(** * Minesweeper knowledge agent and Tic-Tac-Toe minimax (ai50)

    A shallow embedding of [minesweeper/minesweeper.py] and
    [tictactoe/tictactoe.py], followed by the facts proved about them.

    Minesweeper.  Cells are the tuples [(i, j)] of integers, Python sets of
    cells are [gset (Z * Z)], and the knowledge base is the list of its
    sentences in insertion order.  No two entries of the knowledge base
    share a set object ([Sentence.__init__] copies its argument), so the
    in-place updates of the agent are functions from agent states to agent
    states.  A [for] loop over a set of cells visits [elements] of the set;
    the marks such a loop leaves do not depend on the order
    ([mark_mines_perm], [mark_safes_perm]).  The [while] loop of
    [add_knowledge] can run forever ([add_knowledge_runs_forever]), so it
    runs on fuel.

    Tic-Tac-Toe.  A board is a list of lists of spaces, subscripts are
    Python's (negative ones count from the end, [IndexError] out of range),
    and every function returns an [outcome]: a value or an exception.  The
    numbers of the search are the integers with the two infinities.  The
    order in which [minimax], [max_value] and [min_value] visit the set
    [actions(board)] is a parameter.  [result] is given twice: on board
    values, and on a store of list objects with [copy.deepcopy] and the
    assignment to the copy written out ([Heap.result]); [result_refines]
    relates the two. *)

From stdpp Require Import base gmap sets list.
From Stdlib Require Import ZArith Lia.

#[local] Set Warnings "-clear-no-such-hyp,-level-tolerance".
Local Open Scope Z_scope.

(** ** Python helpers *)

(** [range(a, b)]: the integers [a], [a+1], ..., [b-1]. *)
Definition range (a b : Z) : list Z :=
  map (fun k : nat => a + Z.of_nat k) (seq 0 (Z.to_nat (b - a))).


Module Minesweeper.

(** A cell is the tuple [(i, j)]. *)
Abbreviation Cell := (Z * Z)%type.

(** *** class Minesweeper *)

(** The board of a game: its size and, row by row, where the mines are. *)
Record Game := mkGame {
  game_height : Z;
  game_width : Z;
  board : list (list bool)
}.

(** [self.board[i][j]] for [i] and [j] within the bounds of the board. *)
Definition mine_at (g : Game) (i j : Z) : bool :=
  default false (line ← board g !! Z.to_nat i; line !! Z.to_nat j).

(** [Minesweeper.nearby_mines] *)
Definition nearby_mines (g : Game) (cell : Z * Z) : Z :=
  foldl (fun count i =>
    foldl (fun count j =>
      if bool_decide ((i, j) = cell) then count
      else if (0 <=? i) && (i <? game_height g)
              && (0 <=? j) && (j <? game_width g)
           then (if mine_at g i j then count + 1 else count)
           else count)
      count (range (cell.2 - 1) (cell.2 + 2)))
    0 (range (cell.1 - 1) (cell.1 + 2)).

(** *** class Sentence *)

Record Sentence := mkSentence {
  cells : gset Cell;
  count : Z
}.

#[global] Instance Sentence_eq_dec : EqDecision Sentence.
Proof. solve_decision. Defined.

(** [len(self.cells)] *)
Definition len (s : gset Cell) : Z := Z.of_nat (size s).

Module Sentence.

(** [Sentence.__eq__] *)
Definition eqb (s o : Sentence) : bool :=
  bool_decide (cells s = cells o) && (count s =? count o).

(** [Sentence.known_mines] *)
Definition known_mines (s : Sentence) : gset Cell :=
  if count s =? len (cells s) then cells s else ∅.

(** [Sentence.known_safes] *)
Definition known_safes (s : Sentence) : gset Cell :=
  if count s =? 0 then cells s else ∅.

(** [Sentence.mark_mine] *)
Definition mark_mine (cell : Cell) (s : Sentence) : Sentence :=
  if bool_decide (cell ∈ cells s)
  then mkSentence (cells s ∖ {[cell]}) (count s - 1)
  else s.

(** [Sentence.mark_safe] *)
Definition mark_safe (cell : Cell) (s : Sentence) : Sentence :=
  if bool_decide (cell ∈ cells s)
  then mkSentence (cells s ∖ {[cell]}) (count s)
  else s.

End Sentence.

(** *** class MinesweeperAI *)

Record AI := mkAI {
  height : Z;
  width : Z;
  moves_made : gset Cell;
  mines : gset Cell;
  safes : gset Cell;
  knowledge : list Sentence
}.

(** [MinesweeperAI.__init__] *)
Definition init (h w : Z) : AI := mkAI h w ∅ ∅ ∅ [].

(** [MinesweeperAI.mark_mine] *)
Definition mark_mine (cell : Cell) (ai : AI) : AI :=
  mkAI (height ai) (width ai) (moves_made ai)
       ({[cell]} ∪ mines ai) (safes ai)
       (map (Sentence.mark_mine cell) (knowledge ai)).

(** [MinesweeperAI.mark_safe] *)
Definition mark_safe (cell : Cell) (ai : AI) : AI :=
  mkAI (height ai) (width ai) (moves_made ai)
       (mines ai) ({[cell]} ∪ safes ai)
       (map (Sentence.mark_safe cell) (knowledge ai)).

(** [for cell in cs: self.mark_mine(cell)] and its safe twin, over a list. *)
Definition mark_mines (cs : list Cell) (ai : AI) : AI :=
  foldl (fun a c => mark_mine c a) ai cs.

Definition mark_safes (cs : list Cell) (ai : AI) : AI :=
  foldl (fun a c => mark_safe c a) ai cs.

(** The test [(i, j) in self.moves_made or (i, j) in self.safes or
    (i, j) in self.mines] of [get_surrounding_cells]. *)
Definition known (ai : AI) (c : Cell) : bool :=
  bool_decide (c ∈ moves_made ai) || bool_decide (c ∈ safes ai)
  || bool_decide (c ∈ mines ai).

(** [MinesweeperAI.get_surrounding_cells] *)
Definition get_surrounding_cells (ai : AI) (cell : Cell) : list Cell :=
  let min_i := Z.max 0 (cell.1 - 1) in
  let max_i := Z.min (height ai - 1) (cell.1 + 1) in
  let min_j := Z.max 0 (cell.2 - 1) in
  let max_j := Z.min (width ai - 1) (cell.2 + 1) in
  i ← range min_i (max_i + 1);
  j ← range min_j (max_j + 1);
  if known ai (i, j) then [] else [(i, j)].

(** [self.knowledge.pop(i)] for an index known to be in range. *)
Definition pop_knowledge (i : nat) (ai : AI) : AI :=
  mkAI (height ai) (width ai) (moves_made ai) (mines ai) (safes ai)
       (delete i (knowledge ai)).

(** The [while i < len(self.knowledge)] loop of [update_with_knowledge].
    Every iteration either pops a sentence or advances [i], so
    [len(self.knowledge) - i] iterations always suffice; [fuel] counts them. *)
Fixpoint update_loop (fuel : nat) (i : nat) (ai : AI) : AI :=
  match fuel with
  | O => ai
  | S fuel' =>
    match knowledge ai !! i with
    | None => ai
    | Some sentence =>
      if count sentence =? len (cells sentence) then
        update_loop fuel' i
          (mark_mines (elements (cells sentence)) (pop_knowledge i ai))
      else if count sentence =? 0 then
        update_loop fuel' i
          (mark_safes (elements (cells sentence)) (pop_knowledge i ai))
      else update_loop fuel' (S i) ai
    end
  end.

(** [MinesweeperAI.update_with_knowledge] *)
Definition update_with_knowledge (ai : AI) : AI :=
  update_loop (length (knowledge ai)) 0 ai.

(** The local variables of [add_knowledge] that are live across the
    [while new_knowledge] loop, next to the agent itself: the staged queue
    (in list order, popped at its end) and the variable [cells], which the
    subset scan rebinds. *)
Record Frame := mkFrame {
  agent : AI;
  new_knowledge : list Sentence;
  cells_var : list Cell
}.

(** The statements of [add_knowledge] before the [while] loop. *)
Definition add_knowledge_prefix (cell : Cell) (cnt : Z) (ai : AI) : Frame :=
  let ai1 := mkAI (height ai) (width ai) ({[cell]} ∪ moves_made ai)
                  (mines ai) (safes ai) (knowledge ai) in
  let ai2 := mark_safe cell ai1 in
  let cs := get_surrounding_cells ai2 cell in
  if cnt =? 0 then
    mkFrame (update_with_knowledge (mark_safes cs ai2)) [] cs
  else if cnt =? Z.of_nat (length cs) then
    mkFrame (update_with_knowledge (mark_mines cs ai2)) [] cs
  else
    mkFrame (update_with_knowledge ai2) [mkSentence (list_to_set cs) cnt] cs.

(** One round of [for sentence2 in self.knowledge] for a fixed [sentence1]:
    the pair is the staged queue and the variable [cells]. *)
Definition scan_one (sentence1 : Sentence)
    (acc : list Sentence * list Cell) (sentence2 : Sentence)
    : list Sentence * list Cell :=
  if bool_decide (cells sentence1 ⊆ cells sentence2) then
    let cs := cells sentence2 ∖ cells sentence1 in
    (acc.1 ++ [mkSentence cs (count sentence2 - count sentence1)], elements cs)
  else if bool_decide (cells sentence2 ⊆ cells sentence1) then
    let cs := cells sentence1 ∖ cells sentence2 in
    (acc.1 ++ [mkSentence cs (count sentence1 - count sentence2)], elements cs)
  else acc.

(** [self.knowledge.append(sentence1)] *)
Definition append_knowledge (s : Sentence) (ai : AI) : AI :=
  mkAI (height ai) (width ai) (moves_made ai) (mines ai) (safes ai)
       (knowledge ai ++ [s]).

(** One iteration of the [while new_knowledge] loop, entered with
    [sentence1 = new_knowledge.pop()] already taken off the queue [rest]. *)
Definition resolve_step (sentence1 : Sentence) (rest : list Sentence)
    (cs : list Cell) (ai : AI) : Frame :=
  if len (cells sentence1) =? count sentence1 then
    mkFrame (mark_mines cs ai) rest cs
  else if count sentence1 =? 0 then
    mkFrame (mark_safes cs ai) rest cs
  else
    let r := foldl (scan_one sentence1) (rest, cs) (knowledge ai) in
    mkFrame (append_knowledge sentence1 ai) r.1 r.2.

(** [new_knowledge.pop()]: the last element and the list without it. *)
Definition pop_last {A} (l : list A) : option (A * list A) :=
  match reverse l with
  | [] => None
  | x :: r => Some (x, reverse r)
  end.

(** The [while new_knowledge] loop.  It need not terminate, so it runs on
    fuel: [None] means the fuel ran out before the queue was empty. *)
Fixpoint resolve_loop (fuel : nat) (f : Frame) : option AI :=
  match pop_last (new_knowledge f) with
  | None => Some (agent f)
  | Some (sentence1, rest) =>
    match fuel with
    | O => None
    | S fuel' =>
      resolve_loop fuel' (resolve_step sentence1 rest (cells_var f) (agent f))
    end
  end.

(** [MinesweeperAI.add_knowledge] *)
Definition add_knowledge (fuel : nat) (cell : Cell) (cnt : Z) (ai : AI)
    : option AI :=
  resolve_loop fuel (add_knowledge_prefix cell cnt ai).

(** The first [n] iterations of the [while new_knowledge] loop, for looking
    at the frame in the middle of a call. *)
Fixpoint resolve_iter (n : nat) (f : Frame) : Frame :=
  match n with
  | O => f
  | S n' =>
    match pop_last (new_knowledge f) with
    | None => f
    | Some (sentence1, rest) =>
      resolve_iter n' (resolve_step sentence1 rest (cells_var f) (agent f))
    end
  end.

(** [MinesweeperAI.make_safe_move], scanning the set in the order [order]. *)
Fixpoint safe_move_loop (made : gset Cell) (order : list Cell)
    : option Cell :=
  match order with
  | [] => None
  | i :: order' =>
    if bool_decide (i ∉ made) then Some i else safe_move_loop made order'
  end.

Definition make_safe_move (ai : AI) : option Cell :=
  safe_move_loop (moves_made ai) (elements (safes ai)).

Section RandomMove.
(** [random.choice] on a non-empty list. *)
Variable choice : list Cell -> Cell.

(** The [for i in self.safes] loop of [make_random_move] and the
    statement after it.  [safe_moves.append(i)] evaluates to [None], and
    that value is what the [return] inside the loop hands back. *)
Fixpoint random_move_loop (made : gset Cell) (safe_moves : list Cell)
    (order : list Cell) : option Cell :=
  match order with
  | [] =>
    match safe_moves with
    | [] => None
    | _ :: _ => Some (choice safe_moves)
    end
  | i :: order' =>
    if bool_decide (i ∉ made) then None
    else random_move_loop made safe_moves order'
  end.

(** [MinesweeperAI.make_random_move] *)
Definition make_random_move (ai : AI) : option Cell :=
  random_move_loop (moves_made ai) [] (elements (safes ai)).
End RandomMove.

(** The calls a driver can make on an agent. *)
Inductive Call :=
| CallMarkMine (cell : Cell)
| CallMarkSafe (cell : Cell)
| CallAddKnowledge (cell : Cell) (cnt : Z).

Definition call (fuel : nat) (c : Call) (ai : AI) : option AI :=
  match c with
  | CallMarkMine cell => Some (mark_mine cell ai)
  | CallMarkSafe cell => Some (mark_safe cell ai)
  | CallAddKnowledge cell cnt => add_knowledge fuel cell cnt ai
  end.

Fixpoint calls (fuel : nat) (cs : list Call) (ai : AI) : option AI :=
  match cs with
  | [] => Some ai
  | c :: cs' =>
    match call fuel c ai with
    | Some ai' => calls fuel cs' ai'
    | None => None
    end
  end.

(** *** Vocabulary for the statements below *)

(** [c] lies on the [height] by [width] grid of the agent. *)
Definition in_grid (ai : AI) (c : Cell) : Prop :=
  0 ≤ c.1 < height ai ∧ 0 ≤ c.2 < width ai.

(** [c] is within one row and one column of [cell] ([cell] itself is). *)
Definition near (cell c : Cell) : Prop :=
  Z.abs (c.1 - cell.1) ≤ 1 ∧ Z.abs (c.2 - cell.2) ≤ 1.

(** [c] is in none of [moves_made], [safes] and [mines]. *)
Definition unknown (ai : AI) (c : Cell) : Prop :=
  c ∉ moves_made ai ∧ c ∉ safes ai ∧ c ∉ mines ai.

(** The cells a sequence of calls hands to [mark_mine], and to
    [mark_safe]. *)
Definition mine_args (cs : list Call) : list Cell :=
  c ← cs; match c with CallMarkMine cell => [cell] | _ => [] end.

Definition safe_args (cs : list Call) : list Cell :=
  c ← cs; match c with CallMarkSafe cell => [cell] | _ => [] end.

Definition is_mark (c : Call) : Prop :=
  match c with CallAddKnowledge _ _ => False | _ => True end.

(** No sentence of the knowledge base mentions a cell of [mines] or
    [safes]. *)
Definition knowledge_clean (ai : AI) : Prop :=
  ∀ s c, s ∈ knowledge ai → c ∈ cells s → c ∉ mines ai ∧ c ∉ safes ai.

(** What the driver reports when it reveals the cells [cs] of the game [g]
    one after the other: [add_knowledge(cell, nearby_mines(cell))]. *)
Definition observe (g : Game) (cs : list Cell) : list Call :=
  map (fun cell => CallAddKnowledge cell (nearby_mines g cell)) cs.

(** Two small games with a single mine, at [(1, 1)], on a 2 by 3 and on a
    3 by 3 board, and three cells revealed in each. *)
Definition board_2x3 : Game :=
  mkGame 2 3 [[false; false; false];
              [false; true; false]].

Definition board_3x3 : Game :=
  mkGame 3 3 [[false; false; false];
              [false; true; false];
              [false; false; false]].

Definition game_2x3 : list Call :=
  observe board_2x3 [(1, 0); (0, 0); (0, 1)].

Definition game_3x3 : list Call :=
  observe board_3x3 [(0, 0); (2, 1); (0, 2)].

(** A third game, on a 3 by 3 board with mines at [(0, 1)] and [(2, 2)]:
    the driver reveals [(1, 1)] and then [(0, 0)]. *)
Definition board_two_mines : Game :=
  mkGame 3 3 [[false; true; false];
              [false; false; false];
              [false; false; true]].

(** The sentences that keep coming back in the second call of that game:
    what is known around [(1, 1)], the new sentence, its complement, and
    the empty sentence. *)
Definition around_centre : Sentence :=
  mkSentence {[ (0, 1); (0, 2); (1, 0); (1, 2); (2, 0); (2, 1); (2, 2) ]} 2.

Definition corner_pair : Sentence := mkSentence {[ (0, 1); (1, 0) ]} 1.

Definition far_five : Sentence :=
  mkSentence {[ (0, 2); (1, 2); (2, 0); (2, 1); (2, 2) ]} 1.

Definition empty_sentence : Sentence := mkSentence ∅ 0.

(** The frames of that second call: the queue is one of the two sentences
    followed by empty sentences only, the knowledge base is
    [around_centre] followed by copies of the two, and the variable
    [cells] is empty whenever an empty sentence is queued. *)
Definition cycling (f : Frame) : Prop :=
  ∃ x es rest,
    (x = corner_pair ∨ x = far_five)
    ∧ new_knowledge f = x :: es
    ∧ Forall (fun s => s = empty_sentence) es
    ∧ (es ≠ [] → cells_var f = [])
    ∧ knowledge (agent f) = around_centre :: rest
    ∧ Forall (fun s => s = corner_pair ∨ s = far_five) rest.

(** *** More vocabulary *)

(** All cells mentioned by the sentences of the knowledge base. *)
Definition knowledge_cells (ai : AI) : gset Cell :=
  ⋃ (cells <$> knowledge ai).

(** A sentence that [update_with_knowledge] and the loop of [add_knowledge]
    resolve on sight. *)
Definition resolved (s : Sentence) : Prop :=
  count s = len (cells s) ∨ count s = 0.

(** [new] has at least the marks and moves of [old], on the same grid. *)
Definition grows (old new : AI) : Prop :=
  height new = height old ∧ width new = width old
  ∧ moves_made old ⊆ moves_made new
  ∧ mines old ⊆ mines new
  ∧ safes old ⊆ safes new.

(** The agent after the first two statements of [add_knowledge]: the move
    is recorded and the cell marked safe. *)
Definition played (cell : Cell) (ai : AI) : AI :=
  mark_safe cell
    (mkAI (height ai) (width ai) ({[cell]} ∪ moves_made ai)
          (mines ai) (safes ai) (knowledge ai)).

(** The sentence [k] splits into [a] and the rest [b], and neither part is
    resolved: each has fewer mines than cells and at least one mine. *)
Definition splits (k a b : Sentence) : Prop :=
  cells a ⊆ cells k
  ∧ cells b = cells k ∖ cells a
  ∧ count b = count k - count a
  ∧ 0 < count a < len (cells a)
  ∧ 0 < count b < len (cells b).

(** The frames the loop of [add_knowledge] goes through once it holds such
    a [k] in the knowledge base and [a] or [b] in the queue. *)
Definition cycling_on (k a b : Sentence) (f : Frame) : Prop :=
  ∃ x es rest,
    (x = a ∨ x = b)
    ∧ new_knowledge f = x :: es
    ∧ Forall (fun s => s = empty_sentence) es
    ∧ (es ≠ [] → cells_var f = [])
    ∧ knowledge (agent f) = k :: rest
    ∧ Forall (fun s => s = a ∨ s = b) rest.

(** *** The rest of class Minesweeper *)

(** The state of a game: the board, [self.mines] and [self.mines_found]. *)
Record Field := mkField {
  game : Game;
  field_mines : gset Cell;
  mines_found : gset Cell
}.

(** The board [__init__] starts from: [height] rows of [width] times
    [False]. *)
Definition empty_board (h w : Z) : list (list bool) :=
  (fun _ => (fun _ => false) <$> range 0 w) <$> range 0 h.

(** [self.board[i][j] = True], for [i] and [j] within the board. *)
Definition set_mine (b : list (list bool)) (i j : Z) : list (list bool) :=
  match b !! Z.to_nat i with
  | Some row => <[Z.to_nat i := <[Z.to_nat j := true]> row]> b
  | None => b
  end.

(** The loop [while len(self.mines) != mines] of [__init__].  [draws] are
    the pairs [random.randrange(height)], [random.randrange(width)] still
    to come; the loop gives [None] when they run out before the mines are
    placed, or when a pair is not a value [randrange] can return. *)
Fixpoint place_mines (h w n : Z) (draws : list Cell)
    (ms : gset Cell) (b : list (list bool))
    : option (gset Cell * list (list bool)) :=
  if len ms =? n then Some (ms, b)
  else
    match draws with
    | [] => None
    | (i, j) :: draws' =>
      if (0 <=? i) && (i <? h) && (0 <=? j) && (j <? w) then
        if mine_at (mkGame h w b) i j then place_mines h w n draws' ms b
        else place_mines h w n draws' ({[(i, j)]} ∪ ms) (set_mine b i j)
      else None
    end.

(** [Minesweeper.__init__] *)
Definition new_game (h w n : Z) (draws : list Cell) : option Field :=
  '(ms, b) ← place_mines h w n draws ∅ (empty_board h w);
  Some (mkField (mkGame h w b) ms ∅).

(** [Minesweeper.won] *)
Definition won (fl : Field) : bool :=
  bool_decide (mines_found fl = field_mines fl).

(** The cells [nearby_mines] counts: those around [cell], other than
    [cell], that lie on the board and hold a mine. *)
Definition mined_neighbours (g : Game) (cell : Cell) : list Cell :=
  i ← range (cell.1 - 1) (cell.1 + 2);
  j ← range (cell.2 - 1) (cell.2 + 2);
  if bool_decide ((i, j) = cell) then []
  else if (0 <=? i) && (i <? game_height g)
          && (0 <=? j) && (j <? game_width g)
       then (if mine_at g i j then [(i, j)] else [])
       else [].

(** The board has [game_height] rows of [game_width] entries, and
    [ms] is the set of the cells it marks. *)
Definition board_agrees (g : Game) (ms : gset Cell) : Prop :=
  Z.of_nat (length (board g)) = Z.max 0 (game_height g)
  ∧ Forall (fun row => Z.of_nat (length row) = Z.max 0 (game_width g))
           (board g)
  ∧ ∀ i j, (i, j) ∈ ms
           ↔ 0 ≤ i < game_height g ∧ 0 ≤ j < game_width g
             ∧ mine_at g i j = true.

(** The sentence is true of a board whose mines are the cells of [ms]:
    [count] of its cells are mines. *)
Definition holds (ms : gset Cell) (s : Sentence) : Prop :=
  count s = len (cells s ∩ ms).

(** What the agent believes is true on a board whose mines are [ms]. *)
Definition sound (ms : gset Cell) (ai : AI) : Prop :=
  mines ai ⊆ ms
  ∧ safes ai ∩ ms = ∅
  ∧ Forall (holds ms) (knowledge ai).

End Minesweeper.

Module TicTacToe.

(** [X = "X"], [O = "O"], [EMPTY = None]: a space of the board holds a mark
    or nothing. *)
Inductive Mark := X | O.

#[global] Instance Mark_eq_dec : EqDecision Mark.
Proof. solve_decision. Defined.

Abbreviation Space := (option Mark).
Abbreviation Board := (list (list Space)).
Abbreviation Action := (Z * Z)%type.

Definition EMPTY : Space := None.

(** *** Exceptions *)

(** [raise Exception] in [result], and the [IndexError] of a list subscript
    out of range. *)
Inductive exn := Exception | IndexError.

(** What a call comes to: a value, an exception, or -- for the recursive
    search only -- no answer within the given recursion depth. *)
Inductive outcome (A : Type) :=
| Ok (a : A)
| Raise (e : exn)
| OutOfFuel.
Arguments Ok {A} a.
Arguments Raise {A} e.
Arguments OutOfFuel {A}.

#[global] Instance outcome_bind : MBind outcome := fun A B f m =>
  match m with
  | Ok a => f a
  | Raise e => Raise e
  | OutOfFuel => OutOfFuel
  end.

(** *** List subscripts *)

(** The position a subscript [i] stands for in a list of length [n]:
    negative subscripts count from the end. *)
Definition py_pos (n : nat) (i : Z) : Z :=
  if i <? 0 then i + Z.of_nat n else i.

(** [l[i]] *)
Definition py_index {A} (l : list A) (i : Z) : outcome A :=
  let k := py_pos (length l) i in
  if (k <? 0) || (Z.of_nat (length l) <=? k) then Raise IndexError
  else match l !! Z.to_nat k with
       | Some x => Ok x
       | None => Raise IndexError
       end.

(** [board[i][j]] *)
Definition get (board : Board) (i j : Z) : outcome Space :=
  line ← py_index board i; py_index line j.

(** [enumerate(l)] *)
Definition enumerate {A} (l : list A) : list (Z * A) :=
  imap (fun i x => (Z.of_nat i, x)) l.

(** *** The game *)

(** [initial_state] *)
Definition initial_state : Board :=
  [[EMPTY; EMPTY; EMPTY];
   [EMPTY; EMPTY; EMPTY];
   [EMPTY; EMPTY; EMPTY]].

(** The counting loops of [player]: the pair is [(count_x, count_o)]. *)
Definition count_space (acc : Z * Z) (space : Space) : Z * Z :=
  if bool_decide (space = Some X) then (acc.1 + 1, acc.2)
  else if bool_decide (space = Some O) then (acc.1, acc.2 + 1)
  else acc.

Definition count_marks (board : Board) : Z * Z :=
  foldl (fun acc line => foldl count_space acc line) (0, 0) board.

(** [player] *)
Definition player (board : Board) : Mark :=
  let c := count_marks board in
  if c.2 <? c.1 then O else X.

(** [actions] *)
Definition actions (board : Board) : gset Action :=
  list_to_set
    (il ← enumerate board;
     js ← enumerate il.2;
     if bool_decide (js.2 = EMPTY) then [(il.1, js.1)] else []).

(** [result_board[action[0]][action[1]] = turn], for subscripts already
    known to be in range. *)
Definition set_space (board : Board) (action : Action) (turn : Mark)
    : Board :=
  let i := Z.to_nat (py_pos (length board) action.1) in
  match board !! i with
  | Some line =>
    <[i := <[Z.to_nat (py_pos (length line) action.2) := Some turn]> line]>
      board
  | None => board
  end.

(** [result] on a board whose rows are distinct list objects, as the rows of
    every board [initial_state] and [result] build are: such a board is the
    value it reads as, and [copy.deepcopy] is the identity on it.
    [Heap.result] below is the function on a store of list objects, where
    one row object can stand in several rows of a board. *)
Definition result (board : Board) (action : Action) : outcome Board :=
  let result_board := board in
  space ← get result_board action.1 action.2;
  if bool_decide (space ≠ EMPTY) then Raise Exception
  else
    let turn := player result_board in
    Ok (set_space result_board action turn).

(** [if a == b == c: return ret], and [k] for the statements after it: the
    comparison is chained, so [c] is looked up only when [a == b]. *)
Definition check3 (a b c ret k : outcome Space) : outcome Space :=
  x ← a; y ← b;
  if bool_decide (x = y) then
    z ← c;
    if bool_decide (y = z) then ret else k
  else k.

(** The body of [for i in range(3)] in [winner], followed by [k]. *)
Definition winner_round (board : Board) (i : Z) (k : outcome Space)
    : outcome Space :=
  let lines :=
    check3 (get board i 0) (get board i 1) (get board i 2) (get board i 0)
      (check3 (get board 0 i) (get board 1 i) (get board 2 i) (get board 0 i)
         k) in
  if i =? 0 then
    check3 (get board i i) (get board (i + 1) (i + 1)) (get board (-1) (-1))
           (get board i i)
      (check3 (get board i (-1)) (get board (i + 1) (i + 1))
              (get board (-1) i) (get board i (-1))
         lines)
  else lines.

(** [winner] *)
Definition winner (board : Board) : outcome Space :=
  foldr (winner_round board) (Ok None) (range 0 3).

(** [terminal] *)
Definition terminal (board : Board) : outcome bool :=
  w ← winner board;
  if bool_decide (w ≠ None) then Ok true
  else Ok (forallb (forallb (fun space => negb (bool_decide (space = EMPTY))))
                   board).

(** [utility] *)
Definition utility (board : Board) : outcome Z :=
  winner_player ← winner board;
  if bool_decide (winner_player = Some X) then Ok 1
  else if bool_decide (winner_player = Some O) then Ok (-1)
  else Ok 0.

(** *** Search *)

(** The numbers of the search: integers and [float('-inf')],
    [float('inf')]. *)
Inductive Value := NegInf | Fin (z : Z) | PosInf.

(** [a < b] *)
Definition value_lt (a b : Value) : bool :=
  match a, b with
  | NegInf, NegInf => false
  | NegInf, _ => true
  | Fin _, NegInf => false
  | Fin x, Fin y => x <? y
  | Fin _, PosInf => true
  | PosInf, _ => false
  end.

(** [max(v, x)] and [min(v, x)]: the first argument wins a tie. *)
Definition py_max (v x : Value) : Value := if value_lt v x then x else v.
Definition py_min (v x : Value) : Value := if value_lt x v then x else v.

Section Search.
(** The order in which a [for] loop visits a set; the language leaves it
    open. *)
Variable set_order : gset Action -> list Action.

(** [max_value] and [min_value].  [fuel] bounds the depth of the
    recursion. *)
Fixpoint max_value (fuel : nat) (board : Board) : outcome Value :=
  match fuel with
  | 0%nat => OutOfFuel
  | S fuel' =>
    t ← terminal board;
    if t : bool then u ← utility board; Ok (Fin u)
    else
      foldl (fun acc action =>
               v ← acc;
               b ← result board action;
               x ← min_value fuel' b;
               Ok (py_max v x))
            (Ok NegInf) (set_order (actions board))
  end
with min_value (fuel : nat) (board : Board) : outcome Value :=
  match fuel with
  | 0%nat => OutOfFuel
  | S fuel' =>
    t ← terminal board;
    if t : bool then u ← utility board; Ok (Fin u)
    else
      foldl (fun acc action =>
               v ← acc;
               b ← result board action;
               x ← max_value fuel' b;
               Ok (py_min v x))
            (Ok PosInf) (set_order (actions board))
  end.

(** The loop of [minimax] for [X]: the pair is [(optimal_action, v)]. *)
Definition best_for_x (fuel : nat) (board : Board)
    (acc : outcome (option Action * Value)) (action : Action)
    : outcome (option Action * Value) :=
  ov ← acc;
  b ← result board action;
  value ← min_value fuel b;
  if value_lt ov.2 value then Ok (Some action, value) else Ok ov.

(** The loop of [minimax] for [O]. *)
Definition best_for_o (fuel : nat) (board : Board)
    (acc : outcome (option Action * Value)) (action : Action)
    : outcome (option Action * Value) :=
  ov ← acc;
  b ← result board action;
  value ← max_value fuel b;
  if value_lt value ov.2 then Ok (Some action, value) else Ok ov.

(** [minimax] *)
Definition minimax (fuel : nat) (board : Board) : outcome (option Action) :=
  t ← terminal board;
  if t : bool then Ok None
  else
    let optimal_action : option Action := None in
    let turn := player board in
    optimal_action ←
      (if bool_decide (turn = X) then
         ov ← foldl (best_for_x fuel board) (Ok (optimal_action, NegInf))
                    (set_order (actions board));
         Ok ov.1
       else Ok optimal_action);
    optimal_action ←
      (if bool_decide (turn = O) then
         ov ← foldl (best_for_o fuel board) (Ok (optimal_action, PosInf))
                    (set_order (actions board));
         Ok ov.1
       else Ok optimal_action);
    Ok optimal_action.
End Search.

(** *** Boards as list objects *)

(** In the program a board is a list object holding references to three
    row objects, and [result] works on a deep copy of it.  This is the same
    [result] on a store of such objects, for the statements about what the
    call leaves untouched. *)
Module Heap.

Abbreviation loc := positive.

(** A row object holds spaces; a board object holds references to rows. *)
Inductive obj :=
| ORow (spaces : list Space)
| OBoard (rows : list loc).

Abbreviation heap := (gmap loc obj).

(** A new list object. *)
Definition alloc (h : heap) (o : obj) : heap * loc :=
  let l := fresh (dom h) in (<[l := o]> h, l).

(** The state of [copy.deepcopy] while it copies the elements of the outer
    list: the store, the memo of objects already copied, and the copies
    appended so far.  [None] stands for a store that does not hold a
    board there. *)
Definition copy_row (st : option (heap * gmap loc loc * list loc))
    (a : loc) : option (heap * gmap loc loc * list loc) :=
  '(h, memo, ys) ← st;
  match memo !! a with
  | Some y => Some (h, memo, ys ++ [y])
  | None =>
    match h !! a with
    | Some (ORow spaces) =>
      let '(h', y) := alloc h (ORow spaces) in
      Some (h', <[a := y]> memo, ys ++ [y])
    | _ => None
    end
  end.

(** [copy.deepcopy(board)]: the new outer list is created and entered in
    the memo first, then filled with the copies of the rows. *)
Definition deepcopy (h : heap) (board : loc) : option (heap * loc) :=
  match h !! board with
  | Some (OBoard rows) =>
    let '(h0, y) := alloc h (OBoard []) in
    '(h1, _, ys) ← foldl copy_row (Some (h0, {[board := y]}, [])) rows;
    Some (<[y := OBoard ys]> h1, y)
  | _ => None
  end.

(** The board a reference stands for. *)
Definition read_row (h : heap) (a : loc) : option (list Space) :=
  match h !! a with
  | Some (ORow spaces) => Some spaces
  | _ => None
  end.

Definition read_rows (h : heap) (board : loc) : option (list loc) :=
  match h !! board with
  | Some (OBoard rows) => Some rows
  | _ => None
  end.

Definition read_board (h : heap) (board : loc) : option Board :=
  rows ← read_rows h board; mapM (read_row h) rows.

(** [result], store in and store out. *)
Definition result (h : heap) (board : loc) (action : Action)
    : option (heap * outcome loc) :=
  '(h1, result_board) ← deepcopy h board;
  rows ← read_rows h1 result_board;
  match py_index rows action.1 with
  | Ok line =>
    spaces ← read_row h1 line;
    match py_index spaces action.2 with
    | Ok space =>
      if bool_decide (space ≠ EMPTY) then Some (h1, Raise Exception)
      else
        b ← read_board h1 result_board;
        let turn := player b in
        let j := Z.to_nat (py_pos (length spaces) action.2) in
        Some (<[line := ORow (<[j := Some turn]> spaces)]> h1,
              Ok result_board)
    | Raise e => Some (h1, Raise e)
    | OutOfFuel => None
    end
  | Raise e => Some (h1, Raise e)
  | OutOfFuel => None
  end.

(** A store that holds the empty board at location 1, with its rows at
    locations 2, 3 and 4. *)
Definition initial_heap : heap :=
  {[ 1%positive := OBoard [2%positive; 3%positive; 4%positive];
     2%positive := ORow [EMPTY; EMPTY; EMPTY];
     3%positive := ORow [EMPTY; EMPTY; EMPTY];
     4%positive := ORow [EMPTY; EMPTY; EMPTY] ]}.

(** A store in which the three rows of the board at location 1 are one
    and the same row object, at location 2: the board reads as the empty
    board. *)
Definition shared_rows_heap : heap :=
  {[ 1%positive := OBoard [2%positive; 2%positive; 2%positive];
     2%positive := ORow [EMPTY; EMPTY; EMPTY] ]}.

End Heap.

(** *** Vocabulary for the statements below *)

(** A board of three rows of three spaces. *)
Definition wf_board (board : Board) : Prop :=
  length board = 3%nat ∧ Forall (fun line => length line = 3%nat) board.

(** The space in row [i], column [j], counted from 0. *)
Definition space_at (board : Board) (i j : nat) : option Space :=
  line ← board !! i; line !! j.

(** The row and the column, counted from 0, that the subscripts of [action]
    stand for on [board]. *)
Definition action_pos (board : Board) (action : Action) : nat * nat :=
  let i := Z.to_nat (py_pos (length board) action.1) in
  (i, Z.to_nat (py_pos (length (default [] (board !! i))) action.2)).

(** The moves of a game, played one after the other with [result]. *)
Definition play (board : Board) (moves : list Action) : outcome Board :=
  foldl (fun acc action => b ← acc; result b action) (Ok board) moves.

Section Replies.
(** The two calls in the body of each search loop, [result(board, action)]
    and the value of the board it returns, as functions of the action and
    of the board. *)
Variable r : Action -> outcome Board.
Variable m : Board -> outcome Value.

(** The value of the reply to [a] is the integer [z]. *)
Definition reply (a : Action) (z : Z) : Prop :=
  ∃ b, r a = Ok b ∧ m b = Ok (Fin z).

(** The body of the loops of [max_value] and [min_value], with [pick] for
    [max] or [min]. *)
Definition value_step (pick : Value -> Value -> Value)
    (acc : outcome Value) (a : Action) : outcome Value :=
  v ← acc; b ← r a; x ← m b; Ok (pick v x).

(** The body of the loops of [minimax], with [better value v] for the test
    that makes [action] the new optimal action. *)
Definition best_step (better : Value -> Value -> bool)
    (acc : outcome (option Action * Value)) (a : Action)
    : outcome (option Action * Value) :=
  ov ← acc; b ← r a; value ← m b;
  if better value ov.2 then Ok (Some a, value) else Ok ov.
End Replies.

(** The driver's loop: while the board is not terminal, play the action
    [minimax] returns; at most [n] moves. *)
Fixpoint self_play (set_order : gset Action -> list Action) (fuel n : nat)
    (board : Board) : outcome Board :=
  match n with
  | 0%nat => Ok board
  | S n' =>
    t ← terminal board;
    if t : bool then Ok board
    else
      oa ← minimax set_order fuel board;
      match oa with
      | Some action =>
        b ← result board action; self_play set_order fuel n' b
      | None => Ok board
      end
  end.

(** A board with a full row of [X] under an empty first row. *)
Definition second_row_won : Board :=
  [[EMPTY; EMPTY; EMPTY];
   [Some X; Some X; Some X];
   [Some O; Some O; EMPTY]].

(** *** More vocabulary *)

(** The three rows and the three columns, as lists of coordinates, and
    with the two diagonals the eight lines of the board. *)
Definition rows_and_columns : list (list (nat * nat)) :=
  [[(0, 0); (0, 1); (0, 2)]; [(1, 0); (1, 1); (1, 2)];
   [(2, 0); (2, 1); (2, 2)];
   [(0, 0); (1, 0); (2, 0)]; [(0, 1); (1, 1); (2, 1)];
   [(0, 2); (1, 2); (2, 2)]]%nat.

Definition lines : list (list (nat * nat)) :=
  [[(0, 0); (1, 1); (2, 2)]; [(0, 2); (1, 1); (2, 0)]]%nat
  ++ rows_and_columns.

(** Every space of the line [l] holds [space]. *)
Definition line_of (board : Board) (space : Space) (l : list (nat * nat))
    : Prop :=
  Forall (fun p => space_at board p.1 p.2 = Some space) l.

(** The other player. *)
Definition other (m : Mark) : Mark :=
  match m with X => O | O => X end.

(** The player to move after [n] moves of a game: [X] moves first. *)
Definition mover (n : nat) : Mark := if Nat.even n then X else O.

(** One more mark of [m] in the pair [(count_x, count_o)]. *)
Definition bump (m : Mark) (acc : Z * Z) : Z * Z :=
  match m with
  | X => (acc.1 + 1, acc.2)
  | O => (acc.1, acc.2 + 1)
  end.

End TicTacToe.



(** * Facts about the Minesweeper agent *)

Section MinesweeperFacts.
Import Minesweeper.

(** ** [range] *)

Lemma elem_of_range a b x : x ∈ range a b ↔ a ≤ x < b.
Proof.
  unfold range. rewrite list_elem_of_fmap. split.
  - intros (k & -> & Hk). apply elem_of_seq in Hk. lia.
  - intros Hx. exists (Z.to_nat (x - a)). split; [lia|].
    apply elem_of_seq. lia.
Qed.

Lemma NoDup_range a b : NoDup (range a b).
Proof.
  unfold range. apply NoDup_fmap_2; [|apply NoDup_seq].
  intros k1 k2 Hk. lia.
Qed.

(** ** Marking *)

Lemma sentence_mark_mine_twice cell s :
  Sentence.mark_mine cell (Sentence.mark_mine cell s)
  = Sentence.mark_mine cell s.
Proof.
  unfold Sentence.mark_mine.
  destruct (decide (cell ∈ cells s)) as [Hin|Hin].
  - rewrite (bool_decide_eq_true_2 _ Hin). simpl.
    rewrite bool_decide_eq_false_2; [done|].
    rewrite elem_of_difference, elem_of_singleton. tauto.
  - by rewrite !(bool_decide_eq_false_2 _ Hin).
Qed.

Lemma sentence_mark_safe_twice cell s :
  Sentence.mark_safe cell (Sentence.mark_safe cell s)
  = Sentence.mark_safe cell s.
Proof.
  unfold Sentence.mark_safe.
  destruct (decide (cell ∈ cells s)) as [Hin|Hin].
  - rewrite (bool_decide_eq_true_2 _ Hin). simpl.
    rewrite bool_decide_eq_false_2; [done|].
    rewrite elem_of_difference, elem_of_singleton. tauto.
  - by rewrite !(bool_decide_eq_false_2 _ Hin).
Qed.

(** Removing one cell does not change whether another one is a member. *)
Lemma bool_decide_elem_of_remove (c1 c2 : Cell) (X : gset Cell) :
  c1 ≠ c2 → bool_decide (c1 ∈ X ∖ {[c2]}) = bool_decide (c1 ∈ X).
Proof.
  intros Hne. apply bool_decide_ext.
  rewrite elem_of_difference, elem_of_singleton. tauto.
Qed.

Lemma difference_swap (X : gset Cell) (c1 c2 : Cell) :
  X ∖ {[c2]} ∖ {[c1]} = X ∖ {[c1]} ∖ {[c2]}.
Proof.
  apply set_eq. intros x.
  rewrite !elem_of_difference, !elem_of_singleton. tauto.
Qed.

(** Both sentence updates in closed form. *)
Lemma sentence_mark_mine_eq c s :
  Sentence.mark_mine c s
  = mkSentence (cells s ∖ {[c]})
               (count s - if bool_decide (c ∈ cells s) then 1 else 0).
Proof.
  unfold Sentence.mark_mine. case_bool_decide as Hin; [done|].
  destruct s as [X n]; simpl in *. f_equal; [|lia].
  apply set_eq. intros x. rewrite elem_of_difference, elem_of_singleton.
  split; [|tauto]. intros Hx. split; [done|]. by intros ->.
Qed.

Lemma sentence_mark_safe_eq c s :
  Sentence.mark_safe c s = mkSentence (cells s ∖ {[c]}) (count s).
Proof.
  unfold Sentence.mark_safe. case_bool_decide as Hin; [done|].
  destruct s as [X n]; simpl in *. f_equal.
  apply set_eq. intros x. rewrite elem_of_difference, elem_of_singleton.
  split; [|tauto]. intros Hx. split; [done|]. by intros ->.
Qed.

Lemma sentence_mark_mine_comm c1 c2 s :
  Sentence.mark_mine c1 (Sentence.mark_mine c2 s)
  = Sentence.mark_mine c2 (Sentence.mark_mine c1 s).
Proof.
  destruct (decide (c1 = c2)) as [->|Hne]; [done|].
  rewrite !sentence_mark_mine_eq; simpl.
  rewrite (bool_decide_elem_of_remove c1 c2), (bool_decide_elem_of_remove c2 c1)
    by congruence.
  f_equal; [apply difference_swap | lia].
Qed.

Lemma sentence_mark_safe_comm c1 c2 s :
  Sentence.mark_safe c1 (Sentence.mark_safe c2 s)
  = Sentence.mark_safe c2 (Sentence.mark_safe c1 s).
Proof.
  rewrite !sentence_mark_safe_eq; simpl. f_equal. apply difference_swap.
Qed.

Lemma mark_mine_comm c1 c2 ai :
  mark_mine c1 (mark_mine c2 ai) = mark_mine c2 (mark_mine c1 ai).
Proof.
  unfold mark_mine; simpl. f_equal; [set_solver|].
  rewrite !map_map. apply map_ext. intros s. apply sentence_mark_mine_comm.
Qed.

Lemma mark_safe_comm c1 c2 ai :
  mark_safe c1 (mark_safe c2 ai) = mark_safe c2 (mark_safe c1 ai).
Proof.
  unfold mark_safe; simpl. f_equal; [set_solver|].
  rewrite !map_map. apply map_ext. intros s. apply sentence_mark_safe_comm.
Qed.

(** The order in which a [for cell in cells] loop visits a set does not
    matter for the marks it leaves. *)
Lemma mark_mines_perm cs cs' ai :
  cs ≡ₚ cs' → mark_mines cs ai = mark_mines cs' ai.
Proof.
  intros Hp. revert ai. unfold mark_mines.
  induction Hp as [|c l l' _ IH|c1 c2 l|l1 l2 l3 _ IH1 _ IH2]; intros ai; simpl.
  - done.
  - apply IH.
  - by rewrite mark_mine_comm.
  - by rewrite IH1.
Qed.

Lemma mark_safes_perm cs cs' ai :
  cs ≡ₚ cs' → mark_safes cs ai = mark_safes cs' ai.
Proof.
  intros Hp. revert ai. unfold mark_safes.
  induction Hp as [|c l l' _ IH|c1 c2 l|l1 l2 l3 _ IH1 _ IH2]; intros ai; simpl.
  - done.
  - apply IH.
  - by rewrite mark_safe_comm.
  - by rewrite IH1.
Qed.

Lemma mark_mines_sets cs ai :
  mines (mark_mines cs ai) = list_to_set cs ∪ mines ai
  ∧ safes (mark_mines cs ai) = safes ai
  ∧ moves_made (mark_mines cs ai) = moves_made ai
  ∧ length (knowledge (mark_mines cs ai)) = length (knowledge ai).
Proof.
  revert ai. unfold mark_mines.
  induction cs as [|c cs IH]; intros ai; simpl.
  - split; [set_solver | done].
  - destruct (IH (mark_mine c ai)) as (-> & -> & -> & ->). simpl.
    rewrite length_map. split; [set_solver | done].
Qed.

Lemma mark_safes_sets cs ai :
  safes (mark_safes cs ai) = list_to_set cs ∪ safes ai
  ∧ mines (mark_safes cs ai) = mines ai
  ∧ moves_made (mark_safes cs ai) = moves_made ai
  ∧ length (knowledge (mark_safes cs ai)) = length (knowledge ai).
Proof.
  revert ai. unfold mark_safes.
  induction cs as [|c cs IH]; intros ai; simpl.
  - split; [set_solver | done].
  - destruct (IH (mark_safe c ai)) as (-> & -> & -> & ->). simpl.
    rewrite length_map. split; [set_solver | done].
Qed.

(** C9. [Sentence.mark_mine], [Sentence.mark_safe], [MinesweeperAI.mark_mine]
    and [MinesweeperAI.mark_safe] are idempotent: for every cell, marking it
    a second time leaves the sentence, or the agent, as the first marking
    left it. *)
Theorem mark_idempotent (cell : Cell) :
  (∀ s, Sentence.mark_mine cell (Sentence.mark_mine cell s)
        = Sentence.mark_mine cell s)
  ∧ (∀ s, Sentence.mark_safe cell (Sentence.mark_safe cell s)
          = Sentence.mark_safe cell s)
  ∧ (∀ ai, mark_mine cell (mark_mine cell ai) = mark_mine cell ai)
  ∧ (∀ ai, mark_safe cell (mark_safe cell ai) = mark_safe cell ai).
Proof.
  split; [apply sentence_mark_mine_twice|].
  split; [apply sentence_mark_safe_twice|].
  split; intros ai.
  - unfold mark_mine; simpl. f_equal; [set_solver|].
    rewrite map_map. apply map_ext. intros s. apply sentence_mark_mine_twice.
  - unfold mark_safe; simpl. f_equal; [set_solver|].
    rewrite map_map. apply map_ext. intros s. apply sentence_mark_safe_twice.
Qed.

(** ** [update_with_knowledge] *)

Lemma pop_knowledge_length i ai :
  (i < length (knowledge ai))%nat →
  length (knowledge (pop_knowledge i ai)) = pred (length (knowledge ai)).
Proof.
  intros Hi. unfold pop_knowledge; simpl.
  rewrite length_delete; [lia|]. by apply lookup_lt_is_Some_2.
Qed.

(** The loop of [update_with_knowledge] stops because its condition
    [i < len(self.knowledge)] fails, never for lack of fuel: more fuel than
    [len(self.knowledge) - i] changes nothing. *)
Lemma update_loop_fuel fuel i ai :
  (length (knowledge ai) - i ≤ fuel)%nat →
  update_loop fuel i ai = update_loop (length (knowledge ai) - i) i ai.
Proof.
  revert i ai. induction fuel as [|fuel IH]; intros i ai Hf.
  - by replace (length (knowledge ai) - i)%nat with 0%nat by lia.
  - simpl. destruct (knowledge ai !! i) as [s|] eqn:Hs.
    + pose proof (lookup_lt_Some _ _ _ Hs) as Hi.
      destruct (length (knowledge ai) - i)%nat as [|m] eqn:Hm; [lia|].
      simpl. rewrite Hs.
      destruct (count s =? len (cells s));
        [|destruct (count s =? 0)].
      * rewrite IH.
        all: destruct (mark_mines_sets (elements (cells s))
                         (pop_knowledge i ai)) as (_ & _ & _ & Hl);
          rewrite Hl, pop_knowledge_length by done.
        -- f_equal. lia.
        -- lia.
      * rewrite IH.
        all: destruct (mark_safes_sets (elements (cells s))
                         (pop_knowledge i ai)) as (_ & _ & _ & Hl);
          rewrite Hl, pop_knowledge_length by done.
        -- f_equal. lia.
        -- lia.
      * rewrite IH by lia. f_equal. lia.
    + apply lookup_ge_None in Hs.
      by replace (length (knowledge ai) - i)%nat with 0%nat by lia.
Qed.

(** ** [get_surrounding_cells] *)

Lemma known_false ai c : known ai c = false ↔ unknown ai c.
Proof.
  unfold known, unknown. rewrite !orb_false_iff, !bool_decide_eq_false.
  tauto.
Qed.

(** C5, as stated, fails: on a fresh agent the cell itself is returned
    among its own surrounding cells. *)
Lemma get_surrounding_cells_keeps_centre :
  ¬ (∀ (ai : AI) (cell c : Cell),
       c ∈ get_surrounding_cells ai cell
       ↔ in_grid ai c ∧ near cell c ∧ c ≠ cell ∧ unknown ai c).
Proof.
  intros H. destruct (H (init 8 8) (0, 0) (0, 0)) as [H1 _].
  destruct H1 as (_ & _ & Hne & _); [|by apply Hne].
  vm_compute. left.
Qed.

(** C5 (amended). For every cell and every agent state,
    [get_surrounding_cells cell] lists, once each, exactly the cells of the
    grid within one row and one column of [cell] -- [cell] itself
    included -- that are in none of [moves_made], [safes] and [mines]. *)
Theorem get_surrounding_cells_spec (ai : AI) (cell : Cell) :
  (∀ c, c ∈ get_surrounding_cells ai cell
        ↔ in_grid ai c ∧ near cell c ∧ unknown ai c)
  ∧ NoDup (get_surrounding_cells ai cell).
Proof.
  unfold get_surrounding_cells. split.
  - intros [ci cj]. rewrite list_elem_of_bind. split.
    + intros (i & Hin & Hi). apply list_elem_of_bind in Hin.
      destruct Hin as (j & Hin & Hj).
      apply elem_of_range in Hi, Hj.
      destruct (known ai (i, j)) eqn:Hk; [by apply elem_of_nil in Hin|].
      apply list_elem_of_singleton in Hin. inversion Hin; subst.
      apply known_false in Hk. unfold in_grid, near; simpl. repeat split; try lia.
      all: apply Hk.
    + intros ((Hi & Hj) & (Hni & Hnj) & Hu). simpl in *.
      exists ci. split.
      * apply list_elem_of_bind. exists cj. split.
        -- apply known_false in Hu. rewrite Hu. apply list_elem_of_here.
        -- apply elem_of_range. lia.
      * apply elem_of_range. lia.
  - apply NoDup_bind; [| |apply NoDup_range].
    + intros i1 i2 c _ _ H1 H2.
      apply list_elem_of_bind in H1, H2.
      destruct H1 as (j1 & H1 & _), H2 as (j2 & H2 & _).
      destruct (known ai (i1, j1)); [by apply elem_of_nil in H1|].
      destruct (known ai (i2, j2)); [by apply elem_of_nil in H2|].
      apply list_elem_of_singleton in H1, H2. congruence.
    + intros i _. apply NoDup_bind; [| |apply NoDup_range].
      * intros j1 j2 c _ _ H1 H2.
        destruct (known ai (i, j1)); [by apply elem_of_nil in H1|].
        destruct (known ai (i, j2)); [by apply elem_of_nil in H2|].
        apply list_elem_of_singleton in H1, H2. congruence.
      * intros j _. destruct (known ai (i, j)); [apply NoDup_nil_2|].
        apply NoDup_singleton.
Qed.

(** ** [make_random_move] *)

Lemma random_move_loop_none choice made order :
  random_move_loop choice made [] order = None.
Proof.
  induction order as [|i order IH]; simpl; [done|].
  by destruct (bool_decide (i ∉ made)).
Qed.

(** C2 fails on the code. [make_random_move] returns none in every agent
    state, whatever [random.choice] would pick: on a fresh 8 by 8 agent,
    where every cell of the grid is neither played nor a known mine, it
    returns none as well. *)
Theorem make_random_move_none (choice : list Cell → Cell) :
  (∀ ai, make_random_move choice ai = None)
  ∧ make_random_move choice (init 8 8) = None
  ∧ in_grid (init 8 8) (0, 0)
  ∧ (0, 0) ∉ moves_made (init 8 8) ∧ (0, 0) ∉ mines (init 8 8).
Proof.
  split; [intros ai; apply random_move_loop_none|].
  split; [apply random_move_loop_none|].
  split; [unfold in_grid; simpl; lia|].
  split; apply not_elem_of_empty.
Qed.

(** ** The games *)

(** The counts the driver reports in the three games. *)
Lemma games_observed :
  game_2x3 = [CallAddKnowledge (1, 0) 1; CallAddKnowledge (0, 0) 1;
              CallAddKnowledge (0, 1) 1]
  ∧ observe board_2x3 [(0, 2)] = [CallAddKnowledge (0, 2) 1]
  ∧ game_3x3 = [CallAddKnowledge (0, 0) 1; CallAddKnowledge (2, 1) 1;
                CallAddKnowledge (0, 2) 1]
  ∧ observe board_3x3 [(0, 1)] = [CallAddKnowledge (0, 1) 1]
  ∧ observe board_two_mines [(1, 1); (0, 0)]
    = [CallAddKnowledge (1, 1) 2; CallAddKnowledge (0, 0) 1].
Proof. repeat split; vm_compute; reflexivity. Qed.

(** ** Disjointness of [safes] and [mines] *)

Lemma calls_marks fuel cs ai :
  Forall is_mark cs →
  ∃ ai', calls fuel cs ai = Some ai'
         ∧ mines ai' = list_to_set (mine_args cs) ∪ mines ai
         ∧ safes ai' = list_to_set (safe_args cs) ∪ safes ai.
Proof.
  intros Hm. revert ai.
  induction Hm as [|c cs Hc _ IH]; intros ai.
  - exists ai. simpl. split; [done|]. split; set_solver.
  - destruct c as [cell|cell|cell cnt]; [| |done]; simpl.
    + destruct (IH (mark_mine cell ai)) as (ai' & Hc' & Hm' & Hs').
      exists ai'. split; [done|]. rewrite Hm', Hs'.
      unfold mine_args, safe_args; simpl. split; set_solver.
    + destruct (IH (mark_safe cell ai)) as (ai' & Hc' & Hm' & Hs').
      exists ai'. split; [done|]. rewrite Hm', Hs'.
      unfold mine_args, safe_args; simpl. split; set_solver.
Qed.

(** C3, as stated, fails: nothing stops a caller from marking one cell both
    ways. *)
Lemma marked_both_ways :
  ¬ (∀ h w fuel cs ai,
       calls fuel cs (init h w) = Some ai → safes ai ∩ mines ai = ∅).
Proof.
  intros H.
  pose proof (H 8 8 0%nat [CallMarkMine (0, 0); CallMarkSafe (0, 0)] _ eq_refl)
    as Hd.
  assert ((0, 0) ∈ (∅ : gset Cell)) as Hin; [|by apply not_elem_of_empty in Hin].
  rewrite <- Hd. simpl. set_solver.
Qed.

(** Observations alone can do the same. On the 2 by 3 board with one mine at
    [(1, 1)], revealing [(1, 0)], [(0, 0)], [(0, 1)] and [(0, 2)] -- each
    with its true count 1 -- leaves [(1, 1)] both in [mines] and in
    [safes]. *)
Lemma observations_break_disjointness :
  let cs := game_2x3 ++ observe board_2x3 [(0, 2)] in
  mines <$> calls 4 cs (init 2 3) = Some {[ (1, 1); (1, 2) ]}
  ∧ safes <$> calls 4 cs (init 2 3)
    = Some {[ (0, 0); (0, 1); (0, 2); (1, 0); (1, 1) ]}.
Proof. split; vm_compute; reflexivity. Qed.

(** C3 (amended). After any finite sequence of [mark_mine] and [mark_safe]
    calls on a freshly constructed agent in which no cell is handed to both
    operations, the calls all return and [safes] and [mines] are
    disjoint. *)
Theorem marks_keep_safes_mines_apart (h w : Z) (fuel : nat) (cs : list Call) :
  Forall is_mark cs →
  (∀ c, c ∈ mine_args cs → c ∉ safe_args cs) →
  ∃ ai, calls fuel cs (init h w) = Some ai ∧ safes ai ∩ mines ai = ∅.
Proof.
  intros Hm Hd.
  destruct (calls_marks fuel cs (init h w) Hm) as (ai & Hc & Hmi & Hsa).
  exists ai. split; [done|]. rewrite Hmi, Hsa. simpl.
  apply set_eq. intros c. split; [|by intros ?%not_elem_of_empty].
  rewrite elem_of_intersection, !elem_of_union, !elem_of_list_to_set.
  intros [[Hs|Hs] [Hn|Hn]]; try by apply not_elem_of_empty in Hs.
  - by destruct (Hd c Hn).
  - by apply not_elem_of_empty in Hn.
Qed.

Lemma marks_keep_safes_mines_apart_witness :
  ∃ ai, calls 0 [CallMarkMine (0, 0); CallMarkSafe (1, 1)] (init 8 8) = Some ai
        ∧ safes ai ∩ mines ai = ∅.
Proof.
  apply marks_keep_safes_mines_apart.
  - repeat constructor.
  - unfold mine_args, safe_args. simpl.
    intros c Hc%list_elem_of_singleton Hs%list_elem_of_singleton.
    subst c. discriminate.
Defined.

(** ** Known cells inside the knowledge base *)

Lemma mark_mine_clean cell ai :
  knowledge_clean ai → knowledge_clean (mark_mine cell ai).
Proof.
  intros Hc s c Hs Hin. simpl in *.
  apply list_elem_of_fmap in Hs. destruct Hs as (s0 & -> & Hs0).
  rewrite sentence_mark_mine_eq in Hin. simpl in Hin.
  apply elem_of_difference in Hin. destruct Hin as [Hin Hne].
  destruct (Hc s0 c Hs0 Hin) as [Hm Hsf].
  rewrite elem_of_union. tauto.
Qed.

Lemma mark_safe_clean cell ai :
  knowledge_clean ai → knowledge_clean (mark_safe cell ai).
Proof.
  intros Hc s c Hs Hin. simpl in *.
  apply list_elem_of_fmap in Hs. destruct Hs as (s0 & -> & Hs0).
  rewrite sentence_mark_safe_eq in Hin. simpl in Hin.
  apply elem_of_difference in Hin. destruct Hin as [Hin Hne].
  destruct (Hc s0 c Hs0 Hin) as [Hm Hsf].
  rewrite elem_of_union. tauto.
Qed.

(** C4 fails on the code. On the 2 by 3 board with one mine at [(1, 1)],
    after the observations [(1, 0)], [(0, 0)] and [(0, 1)] (true count 1
    each) the agent knows [(1, 1)] to be a mine and yet its knowledge base
    holds the sentence [{(0, 2), (1, 1), (1, 2)} = 1], which mentions
    [(1, 1)]. *)
Theorem stale_sentence_in_knowledge :
  let ai := mkAI 2 3 {[ (0, 0); (0, 1); (1, 0) ]} {[ (1, 1) ]}
                 {[ (0, 0); (0, 1); (1, 0) ]}
                 [mkSentence {[ (0, 2); (1, 1); (1, 2) ]} 1] in
  calls 4 game_2x3 (init 2 3) = Some ai ∧ ¬ knowledge_clean ai.
Proof.
  intros ai. split; [vm_compute; reflexivity|].
  intros Hc.
  destruct (Hc (mkSentence {[ (0, 2); (1, 1); (1, 2) ]} 1) (1, 1)) as [Hm _].
  - apply list_elem_of_here.
  - simpl. rewrite !elem_of_union, !elem_of_singleton. tauto.
  - apply Hm. simpl. by apply elem_of_singleton.
Qed.

(** ** The staged queue of [add_knowledge] *)

(** What the loop does with a popped sentence that resolves directly: it
    marks the cells of the variable [cells], whatever the sentence's own
    cell-set is, and inserts nothing. *)
Lemma resolve_step_all_mines s rest cs ai :
  len (cells s) = count s →
  resolve_step s rest cs ai = mkFrame (mark_mines cs ai) rest cs.
Proof. intros H. unfold resolve_step. by rewrite (proj2 (Z.eqb_eq _ _) H). Qed.

Lemma resolve_step_all_safes s rest cs ai :
  len (cells s) ≠ count s → count s = 0 →
  resolve_step s rest cs ai = mkFrame (mark_safes cs ai) rest cs.
Proof.
  intros H1 H2. unfold resolve_step.
  by rewrite (proj2 (Z.eqb_neq _ _) H1), (proj2 (Z.eqb_eq _ _) H2).
Qed.

Lemma resolve_step_direct_not_inserted s rest cs ai :
  len (cells s) = count s ∨ count s = 0 →
  length (knowledge (agent (resolve_step s rest cs ai)))
  = length (knowledge ai).
Proof.
  intros H. destruct (decide (len (cells s) = count s)) as [He|Hne].
  - rewrite resolve_step_all_mines by done. apply mark_mines_sets.
  - destruct H as [H|H]; [done|].
    rewrite resolve_step_all_safes by done. apply mark_safes_sets.
Qed.

(** C1 fails on the code. On the 3 by 3 board with one mine at [(1, 1)],
    after the observations [(0, 0)], [(2, 1)] and [(0, 2)], the call
    [add_knowledge((0, 1), 1)] reaches, after two rounds of its loop, a
    queue whose last sentence is [{(2, 0), (2, 2)} = 0] while the variable
    [cells] holds [(1, 0)]. The round that pops this sentence marks [(1, 0)]
    and leaves [(2, 0)] and [(2, 2)] unmarked; they are still not in [safes]
    when the call returns. *)
Theorem popped_sentence_cells_not_marked :
  let ai3 := mkAI 3 3 {[ (0, 0); (0, 2); (2, 1) ]} ∅
                  {[ (0, 0); (0, 2); (2, 1) ]}
                  [mkSentence {[ (0, 1); (1, 0); (1, 1) ]} 1;
                   mkSentence {[ (1, 0); (1, 1); (1, 2); (2, 0); (2, 2) ]} 1;
                   mkSentence {[ (0, 1); (1, 1); (1, 2) ]} 1] in
  let f := resolve_iter 2 (add_knowledge_prefix (0, 1) 1 ai3) in
  let sentence1 := mkSentence {[ (2, 0); (2, 2) ]} 0 in
  let rest := [mkSentence {[ (1, 2) ]} 0] in
  let f' := resolve_step sentence1 rest (cells_var f) (agent f) in
  let played := {[ (0, 0); (0, 1); (0, 2); (1, 0); (2, 1) ]} in
  calls 4 game_3x3 (init 3 3) = Some ai3
  ∧ pop_last (new_knowledge f) = Some (sentence1, rest)
  ∧ cells_var f = [(1, 0)]
  ∧ safes (agent f') = played
  ∧ knowledge (agent f') = knowledge (agent f)
  ∧ safes <$> add_knowledge 4 (0, 1) 1 ai3 = Some played
  ∧ (2, 0) ∉ played ∧ (2, 2) ∉ played.
Proof.
  intros ai3 f sentence1 rest f' played.
  repeat split; try (vm_compute; reflexivity).
  all: subst played; rewrite !elem_of_union, !elem_of_singleton;
    intros H; repeat destruct H as [H|H]; discriminate.
Qed.

(** ** A call of [add_knowledge] that does not return *)

Lemma pop_last_snoc {A} (l : list A) (x : A) :
  pop_last (l ++ [x]) = Some (x, l).
Proof. unfold pop_last. by rewrite reverse_snoc, reverse_involutive. Qed.

Lemma pop_last_nonempty {A} (l : list A) :
  l ≠ [] → ∃ x l', l = l' ++ [x] ∧ pop_last l = Some (x, l').
Proof.
  destruct l as [|y l] using rev_ind; [done|]. intros _.
  exists y, l. split; [done | apply pop_last_snoc].
Qed.

(** Scanning copies of the two sentences only queues empty sentences, and
    leaves [cells] empty when it queues one. *)
Lemma scan_copies (x : Sentence) (rest : list Sentence) :
  x = corner_pair ∨ x = far_five →
  Forall (fun s => s = corner_pair ∨ s = far_five) rest →
  ∀ q cs, ∃ es cs',
    foldl (scan_one x) (q, cs) rest = (q ++ es, cs')
    ∧ Forall (fun s => s = empty_sentence) es
    ∧ (es = [] → cs' = cs)
    ∧ (es ≠ [] → cs' = []).
Proof.
  intros Hx. induction 1 as [|s rest Hs _ IH]; intros q cs.
  - exists [], cs. rewrite app_nil_r. done.
  - cbn [foldl].
    assert (scan_one x (q, cs) s = (q, cs)
            ∨ scan_one x (q, cs) s = (q ++ [empty_sentence], [])) as [->| ->].
    { destruct Hx as [-> | ->], Hs as [-> | ->];
        (by left) || (by right). }
    + apply IH.
    + destruct (IH (q ++ [empty_sentence]) [])
        as (es & cs' & -> & Hes & Hnil & Hcs).
      exists (empty_sentence :: es), cs'. rewrite <- app_assoc. simpl.
      split; [done|]. split; [by constructor|]. split; [done|].
      intros _. destruct es as [|e es]; [by apply Hnil | by apply Hcs].
Qed.

Lemma cycling_step (f : Frame) :
  cycling f →
  ∃ s rest, pop_last (new_knowledge f) = Some (s, rest)
            ∧ cycling (resolve_step s rest (cells_var f) (agent f)).
Proof.
  intros (x & es & rest & Hx & Hq & Hes & Hcs & Hk & Hrest).
  rewrite Hq. destruct es as [|e es] using rev_ind.
  - exists x, []. split; [done|].
    assert (resolve_step x [] (cells_var f) (agent f)
            = let r := foldl (scan_one x) ([], cells_var f)
                         (knowledge (agent f)) in
              mkFrame (append_knowledge x (agent f)) r.1 r.2) as ->.
    { by destruct Hx as [-> | ->]. }
    rewrite Hk. cbn [foldl].
    assert (∃ x', (x' = corner_pair ∨ x' = far_five)
                  ∧ scan_one x ([], cells_var f) around_centre
                    = ([x'], elements (cells x'))) as (x' & Hx' & ->).
    { destruct Hx as [-> | ->].
      - exists far_five. split; [by right|].
        unfold scan_one. vm_compute. reflexivity.
      - exists corner_pair. split; [by left|].
        unfold scan_one. vm_compute. reflexivity. }
    destruct (scan_copies x rest Hx Hrest [x'] (elements (cells x')))
      as (es & cs' & -> & Hes' & _ & Hcs').
    exists x', es, (rest ++ [x]). simpl.
    split; [done|]. split; [done|]. split; [done|]. split; [done|].
    split; [by rewrite Hk|].
    apply Forall_app. split; [done|]. by constructor.
  - clear IHes. apply Forall_app in Hes. destruct Hes as [Hes He].
    apply Forall_inv in He. simpl in He. subst e.
    exists empty_sentence, (x :: es).
    split; [apply (pop_last_snoc (x :: es))|].
    rewrite Hcs by (by destruct es). simpl.
    exists x, es, rest. simpl. split; [done|]. split; [done|].
    split; [done|]. split; [done|]. done.
Qed.

Lemma cycling_forever (fuel : nat) (f : Frame) :
  cycling f → resolve_loop fuel f = None.
Proof.
  revert f. induction fuel as [|fuel IH]; intros f Hf;
    destruct (cycling_step f Hf) as (s & rest & Hpop & Hf'); simpl;
    rewrite Hpop; [done | by apply IH].
Qed.

(** On the 3 by 3 board with mines at [(0, 1)] and [(2, 2)], the second of
    the observations [(1, 1)] with count 2 and [(0, 0)] with count 1 never
    returns: the new sentence and its complement in the first one keep
    deriving each other. *)
Lemma add_knowledge_runs_forever :
  let ai := mkAI 3 3 {[ (1, 1) ]} ∅ {[ (1, 1) ]}
              [mkSentence {[ (0, 0); (0, 1); (0, 2); (1, 0); (1, 2);
                             (2, 0); (2, 1); (2, 2) ]} 2] in
  add_knowledge 1 (1, 1) 2 (init 3 3) = Some ai
  ∧ ∀ fuel, add_knowledge fuel (0, 0) 1 ai = None.
Proof.
  intros ai. split; [vm_compute; reflexivity|].
  intros fuel. apply cycling_forever.
  exists corner_pair, [], []. split; [by left|].
  split; [vm_compute; reflexivity|]. split; [constructor|].
  split; [done|]. split; [vm_compute; reflexivity|]. constructor.
Qed.

(** ** Scenarios *)

(** A sentence whose count is the size of its cell-set knows all its cells
    to be mines, one with count zero knows them all to be safe, and any
    other sentence knows nothing. *)
Lemma known_cells (s : Sentence) :
  (count s = len (cells s) → Sentence.known_mines s = cells s)
  ∧ (count s = 0 → Sentence.known_safes s = cells s)
  ∧ (count s ≠ len (cells s) → Sentence.known_mines s = ∅)
  ∧ (count s ≠ 0 → Sentence.known_safes s = ∅).
Proof.
  unfold Sentence.known_mines, Sentence.known_safes.
  destruct (Z.eqb_spec (count s) (len (cells s))),
           (Z.eqb_spec (count s) 0); tauto.
Qed.

(** On the 1 by 1 board the only observation leaves one safe cell and
    nothing else. *)
Example single_cell_board :
  add_knowledge 1 (0, 0) 0 (init 1 1)
  = Some (mkAI 1 1 {[ (0, 0) ]} ∅ {[ (0, 0) ]} []).
Proof. vm_compute. reflexivity. Qed.

(** On the 2 by 1 board with a mine at [(1, 0)], observing [(0, 0)] with
    count 1 marks [(1, 0)] at once. *)
Example two_cell_board :
  add_knowledge 1 (0, 0) 1 (init 2 1)
  = Some (mkAI 2 1 {[ (0, 0) ]} {[ (1, 0) ]} {[ (0, 0) ]} []).
Proof. vm_compute. reflexivity. Qed.

End MinesweeperFacts.

(** * More facts about the Minesweeper agent *)

Section MinesweeperMore.
Import Minesweeper.

(** ** Sentences *)

Lemma len_remove (X : gset Cell) (c : Cell) :
  len (X ∖ {[c]}) = len X - (if bool_decide (c ∈ X) then 1 else 0).
Proof.
  unfold len. case_bool_decide as Hin.
  - rewrite size_difference by (by apply singleton_subseteq_l).
    rewrite size_singleton.
    assert (size X ≠ 0%nat); [|lia].
    apply size_non_empty_iff. intros He. rewrite He in Hin.
    by apply not_elem_of_empty in Hin.
  - replace (X ∖ {[c]}) with X; [lia|].
    apply set_eq. intros x. rewrite elem_of_difference, elem_of_singleton.
    split; [|tauto]. intros Hx. split; [done|]. by intros ->.
Qed.

(** X1. Marking a cell of a sentence as a mine takes exactly that cell and
    one mine off it, marking it as safe takes exactly that cell off and
    leaves the count, and marking a cell that is not in the sentence leaves
    the sentence as it is. *)
Theorem sentence_marks_sizes (cell : Cell) (s : Sentence) :
  let d := if bool_decide (cell ∈ cells s) then 1 else 0 in
  cells (Sentence.mark_mine cell s) = cells s ∖ {[cell]}
  ∧ cells (Sentence.mark_safe cell s) = cells s ∖ {[cell]}
  ∧ len (cells (Sentence.mark_mine cell s)) = len (cells s) - d
  ∧ count (Sentence.mark_mine cell s) = count s - d
  ∧ len (cells (Sentence.mark_safe cell s)) = len (cells s) - d
  ∧ count (Sentence.mark_safe cell s) = count s
  ∧ cell ∉ cells (Sentence.mark_mine cell s)
  ∧ cell ∉ cells (Sentence.mark_safe cell s)
  ∧ (cell ∉ cells s →
     Sentence.mark_mine cell s = s ∧ Sentence.mark_safe cell s = s).
Proof.
  intros d. subst d.
  split; [by rewrite sentence_mark_mine_eq|].
  split; [by rewrite sentence_mark_safe_eq|].
  split; [rewrite sentence_mark_mine_eq; apply len_remove|].
  split; [by rewrite sentence_mark_mine_eq|].
  split; [rewrite sentence_mark_safe_eq; apply len_remove|].
  split; [by rewrite sentence_mark_safe_eq|].
  split; [rewrite sentence_mark_mine_eq; set_solver|].
  split; [rewrite sentence_mark_safe_eq; set_solver|].
  intros Hout. unfold Sentence.mark_mine, Sentence.mark_safe.
  by rewrite bool_decide_eq_false_2.
Qed.

Lemma sentence_marks_sizes_witness :
  Sentence.mark_mine (0, 0) corner_pair = corner_pair
  ∧ Sentence.mark_safe (0, 0) corner_pair = corner_pair.
Proof.
  apply (sentence_marks_sizes (0, 0) corner_pair).
  apply (bool_decide_unpack _). vm_compute. exact I.
Defined.

(** ** Marks on the agent *)

(** X2. The marks a loop over a collection of cells leaves on the agent do
    not depend on the order in which it visits the cells. *)
Theorem marks_order_irrelevant (cs cs' : list Cell) (ai : AI) :
  cs ≡ₚ cs' →
  mark_mines cs ai = mark_mines cs' ai ∧ mark_safes cs ai = mark_safes cs' ai.
Proof.
  intros Hp. split.
  - revert ai. unfold mark_mines.
    induction Hp as [|c l l' _ IH|c1 c2 l|l1 l2 l3 _ IH1 _ IH2];
      intros ai; simpl; [done | apply IH | by rewrite mark_mine_comm |].
    by rewrite IH1.
  - revert ai. unfold mark_safes.
    induction Hp as [|c l l' _ IH|c1 c2 l|l1 l2 l3 _ IH1 _ IH2];
      intros ai; simpl; [done | apply IH | by rewrite mark_safe_comm |].
    by rewrite IH1.
Qed.

Lemma marks_order_irrelevant_witness :
  mark_mines [(0, 0); (1, 1)] (init 8 8) = mark_mines [(1, 1); (0, 0)] (init 8 8)
  ∧ mark_safes [(0, 0); (1, 1)] (init 8 8)
    = mark_safes [(1, 1); (0, 0)] (init 8 8).
Proof. apply marks_order_irrelevant. apply perm_swap. Defined.

(** X3. Marking one cell as a mine and another as safe gives the same agent
    in either order. *)
Theorem mark_mine_safe_comm (c1 c2 : Cell) (ai : AI) :
  c1 ≠ c2 →
  mark_mine c1 (mark_safe c2 ai) = mark_safe c2 (mark_mine c1 ai).
Proof.
  intros Hne. unfold mark_mine, mark_safe; simpl. f_equal.
  rewrite !map_map. apply map_ext. intros s.
  rewrite !sentence_mark_mine_eq, !sentence_mark_safe_eq; simpl.
  rewrite (bool_decide_elem_of_remove c1 c2) by done.
  f_equal. apply difference_swap.
Qed.

Lemma mark_mine_safe_comm_witness :
  mark_mine (0, 0) (mark_safe (1, 1) (init 8 8))
  = mark_safe (1, 1) (mark_mine (0, 0) (init 8 8)).
Proof. apply mark_mine_safe_comm. discriminate. Defined.

(** On one and the same cell the two marks do not commute: the count of a
    sentence that holds the cell depends on which mark came first. *)
Lemma mark_mine_safe_same_cell :
  let ai := mkAI 1 2 ∅ ∅ ∅ [mkSentence {[ (0, 0); (0, 1) ]} 1] in
  knowledge (mark_safe (0, 0) (mark_mine (0, 0) ai))
  = [mkSentence {[ (0, 1) ]} 0]
  ∧ knowledge (mark_mine (0, 0) (mark_safe (0, 0) ai))
    = [mkSentence {[ (0, 1) ]} 1].
Proof. split; vm_compute; reflexivity. Qed.

(** X4. After [mark_mine(cell)] the cell is in [mines], after
    [mark_safe(cell)] it is in [safes], and in both cases no sentence of the
    knowledge base mentions it any more; the other two sets, the grid and
    the number of sentences are as before. *)
Theorem mark_removes_cell (cell : Cell) (ai : AI) :
  (cell ∈ mines (mark_mine cell ai)
   ∧ cell ∉ knowledge_cells (mark_mine cell ai)
   ∧ safes (mark_mine cell ai) = safes ai
   ∧ moves_made (mark_mine cell ai) = moves_made ai
   ∧ length (knowledge (mark_mine cell ai)) = length (knowledge ai))
  ∧ (cell ∈ safes (mark_safe cell ai)
     ∧ cell ∉ knowledge_cells (mark_safe cell ai)
     ∧ mines (mark_safe cell ai) = mines ai
     ∧ moves_made (mark_safe cell ai) = moves_made ai
     ∧ length (knowledge (mark_safe cell ai)) = length (knowledge ai)).
Proof.
  unfold knowledge_cells. split; simpl.
  - split; [apply elem_of_union_l; by apply elem_of_singleton|].
    split; [|by rewrite length_map].
    rewrite elem_of_union_list. intros (X & HX & Hin).
    apply list_elem_of_fmap in HX. destruct HX as (s' & -> & Hs').
    apply list_elem_of_fmap in Hs'. destruct Hs' as (s & -> & _).
    rewrite sentence_mark_mine_eq in Hin. simpl in Hin.
    rewrite elem_of_difference, elem_of_singleton in Hin. tauto.
  - split; [apply elem_of_union_l; by apply elem_of_singleton|].
    split; [|by rewrite length_map].
    rewrite elem_of_union_list. intros (X & HX & Hin).
    apply list_elem_of_fmap in HX. destruct HX as (s' & -> & Hs').
    apply list_elem_of_fmap in Hs'. destruct Hs' as (s & -> & _).
    rewrite sentence_mark_safe_eq in Hin. simpl in Hin.
    rewrite elem_of_difference, elem_of_singleton in Hin. tauto.
Qed.

(** ** [update_with_knowledge] *)

Lemma elem_of_knowledge_cells (ai : AI) (c : Cell) :
  c ∈ knowledge_cells ai ↔ ∃ s, s ∈ knowledge ai ∧ c ∈ cells s.
Proof.
  unfold knowledge_cells. rewrite elem_of_union_list. split.
  - intros (X & HX & Hc). apply list_elem_of_fmap in HX.
    destruct HX as (s & -> & Hs). eauto.
  - intros (s & Hs & Hc). exists (cells s). split; [|done].
    apply list_elem_of_fmap. eauto.
Qed.

Lemma knowledge_clean_cells (ai : AI) :
  knowledge_clean ai
  ↔ ∀ c, c ∈ knowledge_cells ai → c ∉ mines ai ∧ c ∉ safes ai.
Proof.
  unfold knowledge_clean. split.
  - intros Hc c (s & Hs & Hin)%elem_of_knowledge_cells. eauto.
  - intros Hc s c Hs Hin. apply Hc, elem_of_knowledge_cells. eauto.
Qed.

Lemma knowledge_cells_mark_mine (c : Cell) (ai : AI) :
  knowledge_cells (mark_mine c ai) = knowledge_cells ai ∖ {[c]}.
Proof.
  apply set_eq. intros x.
  rewrite elem_of_difference, elem_of_singleton, !elem_of_knowledge_cells.
  simpl. split.
  - intros (s' & Hs' & Hx). apply list_elem_of_fmap in Hs'.
    destruct Hs' as (s & -> & Hs). rewrite sentence_mark_mine_eq in Hx.
    simpl in Hx. rewrite elem_of_difference, elem_of_singleton in Hx.
    split; [|tauto]. exists s. tauto.
  - intros [(s & Hs & Hx) Hne]. exists (Sentence.mark_mine c s).
    split; [apply list_elem_of_fmap; eauto|].
    rewrite sentence_mark_mine_eq. simpl.
    rewrite elem_of_difference, elem_of_singleton. tauto.
Qed.

Lemma knowledge_cells_mark_safe (c : Cell) (ai : AI) :
  knowledge_cells (mark_safe c ai) = knowledge_cells ai ∖ {[c]}.
Proof.
  apply set_eq. intros x.
  rewrite elem_of_difference, elem_of_singleton, !elem_of_knowledge_cells.
  simpl. split.
  - intros (s' & Hs' & Hx). apply list_elem_of_fmap in Hs'.
    destruct Hs' as (s & -> & Hs). rewrite sentence_mark_safe_eq in Hx.
    simpl in Hx. rewrite elem_of_difference, elem_of_singleton in Hx.
    split; [|tauto]. exists s. tauto.
  - intros [(s & Hs & Hx) Hne]. exists (Sentence.mark_safe c s).
    split; [apply list_elem_of_fmap; eauto|].
    rewrite sentence_mark_safe_eq. simpl.
    rewrite elem_of_difference, elem_of_singleton. tauto.
Qed.

Lemma knowledge_cells_mark_mines (cs : list Cell) (ai : AI) :
  knowledge_cells (mark_mines cs ai) = knowledge_cells ai ∖ list_to_set cs.
Proof.
  revert ai. unfold mark_mines.
  induction cs as [|c cs IH]; intros ai; simpl.
  - apply set_eq. intros x. rewrite elem_of_difference. set_solver.
  - rewrite IH, knowledge_cells_mark_mine. set_solver.
Qed.

Lemma knowledge_cells_mark_safes (cs : list Cell) (ai : AI) :
  knowledge_cells (mark_safes cs ai) = knowledge_cells ai ∖ list_to_set cs.
Proof.
  revert ai. unfold mark_safes.
  induction cs as [|c cs IH]; intros ai; simpl.
  - apply set_eq. intros x. rewrite elem_of_difference. set_solver.
  - rewrite IH, knowledge_cells_mark_safe. set_solver.
Qed.

Lemma knowledge_cells_pop (i : nat) (ai : AI) :
  knowledge_cells (pop_knowledge i ai) ⊆ knowledge_cells ai.
Proof.
  intros c (s & Hs & Hc)%elem_of_knowledge_cells.
  apply elem_of_knowledge_cells. exists s. split; [|done].
  simpl in Hs. apply list_elem_of_lookup in Hs. destruct Hs as [k Hk].
  rewrite list_lookup_delete in Hk.
  destruct (decide (k < i)%nat); by eapply list_elem_of_lookup_2.
Qed.

Lemma knowledge_cells_lookup (i : nat) (ai : AI) (s : Sentence) :
  knowledge ai !! i = Some s → cells s ⊆ knowledge_cells ai.
Proof.
  intros Hs c Hc. apply elem_of_knowledge_cells. exists s.
  split; [by eapply list_elem_of_lookup_2 | done].
Qed.

Lemma mark_mines_grid (cs : list Cell) (ai : AI) :
  height (mark_mines cs ai) = height ai ∧ width (mark_mines cs ai) = width ai.
Proof.
  revert ai. unfold mark_mines. induction cs as [|c cs IH]; intros ai; simpl;
    [done|]. by destruct (IH (mark_mine c ai)) as [-> ->].
Qed.

Lemma mark_safes_grid (cs : list Cell) (ai : AI) :
  height (mark_safes cs ai) = height ai ∧ width (mark_safes cs ai) = width ai.
Proof.
  revert ai. unfold mark_safes. induction cs as [|c cs IH]; intros ai; simpl;
    [done|]. by destruct (IH (mark_safe c ai)) as [-> ->].
Qed.

(** What holds before [update_with_knowledge] and is kept by every sentence
    it resolves holds when it returns. *)
Lemma update_loop_ind (P : AI → Prop) :
  (∀ ai i s, P ai → knowledge ai !! i = Some s → count s = len (cells s) →
             P (mark_mines (elements (cells s)) (pop_knowledge i ai))) →
  (∀ ai i s, P ai → knowledge ai !! i = Some s → count s = 0 →
             P (mark_safes (elements (cells s)) (pop_knowledge i ai))) →
  ∀ fuel i ai, P ai → P (update_loop fuel i ai).
Proof.
  intros Hmine Hsafe. induction fuel as [|fuel IH]; intros i ai HP; [done|].
  simpl. destruct (knowledge ai !! i) as [s|] eqn:Hs; [|done].
  destruct (Z.eqb_spec (count s) (len (cells s))); [by eapply IH, Hmine|].
  destruct (Z.eqb_spec (count s) 0); [by eapply IH, Hsafe|].
  by apply IH.
Qed.

Lemma update_with_knowledge_grows (ai : AI) :
  grows ai (update_with_knowledge ai)
  ∧ moves_made (update_with_knowledge ai) = moves_made ai
  ∧ (length (knowledge (update_with_knowledge ai)) ≤ length (knowledge ai))%nat
  ∧ knowledge_cells (update_with_knowledge ai) ⊆ knowledge_cells ai
  ∧ mines (update_with_knowledge ai) ⊆ mines ai ∪ knowledge_cells ai
  ∧ safes (update_with_knowledge ai) ⊆ safes ai ∪ knowledge_cells ai.
Proof.
  unfold update_with_knowledge.
  apply (update_loop_ind (fun a =>
    grows ai a ∧ moves_made a = moves_made ai
    ∧ (length (knowledge a) ≤ length (knowledge ai))%nat
    ∧ knowledge_cells a ⊆ knowledge_cells ai
    ∧ mines a ⊆ mines ai ∪ knowledge_cells ai
    ∧ safes a ⊆ safes ai ∪ knowledge_cells ai)).
  - intros a i s ((Hh & Hw & Hmv & Hmi & Hsa) & Hmv' & Hlen & Hkc & Hm & Hs)
      Hlook _.
    pose proof (knowledge_cells_lookup _ _ _ Hlook) as Hcs.
    pose proof (knowledge_cells_pop i a) as Hpop.
    pose proof (pop_knowledge_length i a (lookup_lt_Some _ _ _ Hlook)) as Hpl.
    destruct (mark_mines_sets (elements (cells s)) (pop_knowledge i a))
      as (Em & Es & Ev & El).
    destruct (mark_mines_grid (elements (cells s)) (pop_knowledge i a))
      as (Eh & Ew).
    unfold grows. rewrite Em, Es, Ev, El, Eh, Ew, Hpl.
    rewrite knowledge_cells_mark_mines. simpl.
    repeat split; try done; try lia; set_solver.
  - intros a i s ((Hh & Hw & Hmv & Hmi & Hsa) & Hmv' & Hlen & Hkc & Hm & Hs)
      Hlook _.
    pose proof (knowledge_cells_lookup _ _ _ Hlook) as Hcs.
    pose proof (knowledge_cells_pop i a) as Hpop.
    pose proof (pop_knowledge_length i a (lookup_lt_Some _ _ _ Hlook)) as Hpl.
    destruct (mark_safes_sets (elements (cells s)) (pop_knowledge i a))
      as (Es & Em & Ev & El).
    destruct (mark_safes_grid (elements (cells s)) (pop_knowledge i a))
      as (Eh & Ew).
    unfold grows. rewrite Em, Es, Ev, El, Eh, Ew, Hpl.
    rewrite knowledge_cells_mark_safes. simpl.
    repeat split; try done; try lia; set_solver.
  - unfold grows. repeat split; try done; set_solver.
Qed.

(** X5. [update_with_knowledge] only resolves what the knowledge base holds:
    it plays no move, forgets no mine and no safe cell, adds no sentence and
    no cell to a sentence, and every cell it marks was mentioned by a
    sentence of the knowledge base. *)
Theorem update_with_knowledge_frame (ai : AI) :
  let ai' := update_with_knowledge ai in
  height ai' = height ai ∧ width ai' = width ai
  ∧ moves_made ai' = moves_made ai
  ∧ mines ai ⊆ mines ai' ∧ mines ai' ⊆ mines ai ∪ knowledge_cells ai
  ∧ safes ai ⊆ safes ai' ∧ safes ai' ⊆ safes ai ∪ knowledge_cells ai
  ∧ (length (knowledge ai') ≤ length (knowledge ai))%nat
  ∧ knowledge_cells ai' ⊆ knowledge_cells ai.
Proof.
  intros ai'. subst ai'.
  destruct (update_with_knowledge_grows ai)
    as ((Hh & Hw & _ & Hmi & Hsa) & Hmv & Hlen & Hkc & Hm & Hs).
  repeat split; done.
Qed.

Lemma mark_mines_clean (cs : list Cell) (ai : AI) :
  knowledge_clean ai → knowledge_clean (mark_mines cs ai).
Proof.
  revert ai. unfold mark_mines. induction cs as [|c cs IH]; intros ai Hc;
    simpl; [done|]. by apply IH, mark_mine_clean.
Qed.

Lemma mark_safes_clean (cs : list Cell) (ai : AI) :
  knowledge_clean ai → knowledge_clean (mark_safes cs ai).
Proof.
  revert ai. unfold mark_safes. induction cs as [|c cs IH]; intros ai Hc;
    simpl; [done|]. by apply IH, mark_safe_clean.
Qed.

Lemma pop_knowledge_clean (i : nat) (ai : AI) :
  knowledge_clean ai → knowledge_clean (pop_knowledge i ai).
Proof.
  rewrite !knowledge_clean_cells. intros Hc c Hin.
  apply (knowledge_cells_pop i ai) in Hin. by apply Hc.
Qed.

Lemma update_with_knowledge_keeps_clean (ai : AI) :
  knowledge_clean ai → safes ai ∩ mines ai = ∅ →
  knowledge_clean (update_with_knowledge ai)
  ∧ safes (update_with_knowledge ai) ∩ mines (update_with_knowledge ai) = ∅.
Proof.
  intros Hc Hd. unfold update_with_knowledge.
  apply (update_loop_ind (fun a =>
    knowledge_clean a ∧ safes a ∩ mines a = ∅)); [| |done].
  - intros a i s [Hca Hda] Hlook _.
    split; [by apply mark_mines_clean, pop_knowledge_clean|].
    destruct (mark_mines_sets (elements (cells s)) (pop_knowledge i a))
      as (Em & Es & _). rewrite Em, Es. simpl.
    pose proof (proj1 (knowledge_clean_cells a) Hca) as Hcc.
    pose proof (knowledge_cells_lookup _ _ _ Hlook) as Hcs.
    apply set_eq. intros c. split; [|by intros ?%not_elem_of_empty].
    rewrite elem_of_intersection, elem_of_union, elem_of_list_to_set,
      elem_of_elements.
    intros [Hs [Hin|Hm]].
    + destruct (Hcc c (Hcs c Hin)) as [_ Hns]. done.
    + rewrite <- Hda. by apply elem_of_intersection.
  - intros a i s [Hca Hda] Hlook _.
    split; [by apply mark_safes_clean, pop_knowledge_clean|].
    destruct (mark_safes_sets (elements (cells s)) (pop_knowledge i a))
      as (Es & Em & _). rewrite Em, Es. simpl.
    pose proof (proj1 (knowledge_clean_cells a) Hca) as Hcc.
    pose proof (knowledge_cells_lookup _ _ _ Hlook) as Hcs.
    apply set_eq. intros c. split; [|by intros ?%not_elem_of_empty].
    rewrite elem_of_intersection, elem_of_union, elem_of_list_to_set,
      elem_of_elements.
    intros [[Hin|Hs] Hm].
    + destruct (Hcc c (Hcs c Hin)) as [Hnm _]. done.
    + rewrite <- Hda. by apply elem_of_intersection.
Qed.

(** X6. When no sentence of the knowledge base mentions a marked cell and no
    cell is marked both ways, the same holds after
    [update_with_knowledge]. *)
Theorem update_with_knowledge_invariant (ai : AI) :
  knowledge_clean ai → safes ai ∩ mines ai = ∅ →
  knowledge_clean (update_with_knowledge ai)
  ∧ safes (update_with_knowledge ai) ∩ mines (update_with_knowledge ai) = ∅.
Proof. apply update_with_knowledge_keeps_clean. Qed.

Lemma update_with_knowledge_invariant_witness :
  let ai := mkAI 3 3 ∅ ∅ ∅ [corner_pair; mkSentence {[ (2, 2) ]} 1] in
  knowledge_clean (update_with_knowledge ai)
  ∧ safes (update_with_knowledge ai) ∩ mines (update_with_knowledge ai) = ∅.
Proof.
  intros ai. apply (update_with_knowledge_invariant ai).
  - intros s c _ _. split; apply not_elem_of_empty.
  - vm_compute. reflexivity.
Defined.

(** ** [make_safe_move] *)

Lemma safe_move_loop_spec (made : gset Cell) (order : list Cell) :
  match safe_move_loop made order with
  | Some c => c ∈ order ∧ c ∉ made
  | None => ∀ c, c ∈ order → c ∈ made
  end.
Proof.
  induction order as [|i order IH]; simpl.
  - by intros c ?%elem_of_nil.
  - case_bool_decide as Hi.
    + split; [left | done].
    + destruct (safe_move_loop made order) as [c|].
      * destruct IH as [Hc Hn]. split; [by right | done].
      * intros c [->|Hc]%elem_of_cons; [done | by apply IH].
Qed.

(** X7. [make_safe_move] returns a cell that is known to be safe and has not
    been played, and returns none exactly when every safe cell has been
    played. *)
Theorem make_safe_move_spec (ai : AI) :
  (∀ c, make_safe_move ai = Some c → c ∈ safes ai ∧ c ∉ moves_made ai)
  ∧ (make_safe_move ai = None ↔ safes ai ⊆ moves_made ai).
Proof.
  unfold make_safe_move.
  pose proof (safe_move_loop_spec (moves_made ai) (elements (safes ai))) as H.
  destruct (safe_move_loop (moves_made ai) (elements (safes ai))) as [c0|].
  - destruct H as [Hc Hn]. apply elem_of_elements in Hc. split.
    + by intros c [= <-].
    + split; [done|]. intros Hsub. by destruct Hn; apply Hsub.
  - split; [done|]. split; [|done]. intros _ c Hc.
    by apply H, elem_of_elements.
Qed.

(** ** [add_knowledge] *)

Lemma elem_of_get_surrounding_cells (ai : AI) (cell c : Cell) :
  c ∈ get_surrounding_cells ai cell
  ↔ in_grid ai c ∧ near cell c ∧ unknown ai c.
Proof.
  unfold get_surrounding_cells. destruct c as [ci cj].
  rewrite list_elem_of_bind. split.
  - intros (i & Hin & Hi). apply list_elem_of_bind in Hin.
    destruct Hin as (j & Hin & Hj). apply elem_of_range in Hi, Hj.
    destruct (known ai (i, j)) eqn:Hk; [by apply elem_of_nil in Hin|].
    apply list_elem_of_singleton in Hin. inversion Hin; subst.
    apply known_false in Hk. unfold in_grid, near; simpl.
    repeat split; try lia. all: apply Hk.
  - intros ((Hi & Hj) & (Hni & Hnj) & Hu). simpl in *.
    exists ci. split; [|apply elem_of_range; lia].
    apply list_elem_of_bind. exists cj. split; [|apply elem_of_range; lia].
    apply known_false in Hu. rewrite Hu. apply list_elem_of_here.
Qed.

Lemma grows_refl (ai : AI) : grows ai ai.
Proof. unfold grows. repeat split; done. Qed.

Lemma grows_trans (a b c : AI) : grows a b → grows b c → grows a c.
Proof.
  unfold grows. intros (? & ? & ? & ? & ?) (? & ? & ? & ? & ?).
  repeat split; try congruence; set_solver.
Qed.

Lemma mark_mines_grows (cs : list Cell) (ai : AI) :
  grows ai (mark_mines cs ai)
  ∧ moves_made (mark_mines cs ai) = moves_made ai.
Proof.
  destruct (mark_mines_sets cs ai) as (Em & Es & Ev & _).
  destruct (mark_mines_grid cs ai) as (Eh & Ew).
  unfold grows. rewrite Em, Es, Ev, Eh, Ew. repeat split; try done; set_solver.
Qed.

Lemma mark_safes_grows (cs : list Cell) (ai : AI) :
  grows ai (mark_safes cs ai)
  ∧ moves_made (mark_safes cs ai) = moves_made ai.
Proof.
  destruct (mark_safes_sets cs ai) as (Es & Em & Ev & _).
  destruct (mark_safes_grid cs ai) as (Eh & Ew).
  unfold grows. rewrite Em, Es, Ev, Eh, Ew. repeat split; try done; set_solver.
Qed.

(** A round of the loop of [add_knowledge] plays no move and forgets no
    mark. *)
Lemma resolve_step_grows (s : Sentence) (rest : list Sentence)
    (cs : list Cell) (ai : AI) :
  grows ai (agent (resolve_step s rest cs ai))
  ∧ moves_made (agent (resolve_step s rest cs ai)) = moves_made ai.
Proof.
  unfold resolve_step.
  destruct (len (cells s) =? count s); [apply mark_mines_grows|].
  destruct (count s =? 0); [apply mark_safes_grows|].
  simpl. split; [|done]. unfold grows. simpl. repeat split; done.
Qed.

Lemma resolve_loop_grows (fuel : nat) (f : Frame) (ai' : AI) :
  resolve_loop fuel f = Some ai' →
  grows (agent f) ai' ∧ moves_made ai' = moves_made (agent f).
Proof.
  revert f. induction fuel as [|fuel IH]; intros f; simpl.
  - destruct (pop_last (new_knowledge f)) as [[s rest]|]; [done|].
    intros [= <-]. split; [apply grows_refl | done].
  - destruct (pop_last (new_knowledge f)) as [[s rest]|].
    + intros Hl. apply IH in Hl. destruct Hl as [Hg Hm].
      destruct (resolve_step_grows s rest (cells_var f) (agent f))
        as [Hg' Hm'].
      split; [by eapply grows_trans | congruence].
    + intros [= <-]. split; [apply grows_refl | done].
Qed.

Lemma played_grows (cell : Cell) (ai : AI) :
  grows ai (played cell ai)
  ∧ moves_made (played cell ai) = {[cell]} ∪ moves_made ai
  ∧ safes (played cell ai) = {[cell]} ∪ safes ai
  ∧ mines (played cell ai) = mines ai.
Proof. unfold grows, played. simpl. repeat split; try done; set_solver. Qed.

(** The agent with which [add_knowledge] enters its loop. *)
Lemma add_knowledge_prefix_grows (cell : Cell) (cnt : Z) (ai : AI) :
  grows (played cell ai) (agent (add_knowledge_prefix cell cnt ai))
  ∧ moves_made (agent (add_knowledge_prefix cell cnt ai))
    = moves_made (played cell ai).
Proof.
  unfold add_knowledge_prefix. fold (played cell ai).
  set (cs := get_surrounding_cells (played cell ai) cell).
  destruct (cnt =? 0); [|destruct (cnt =? Z.of_nat (length cs))];
    cbn [agent].
  - destruct (update_with_knowledge_grows (mark_safes cs (played cell ai)))
      as (Hg & Hm & _).
    destruct (mark_safes_grows cs (played cell ai)) as [Hg' Hm'].
    split; [by eapply grows_trans | by rewrite Hm, Hm'].
  - destruct (update_with_knowledge_grows (mark_mines cs (played cell ai)))
      as (Hg & Hm & _).
    destruct (mark_mines_grows cs (played cell ai)) as [Hg' Hm'].
    split; [by eapply grows_trans | by rewrite Hm, Hm'].
  - destruct (update_with_knowledge_grows (played cell ai)) as (Hg & Hm & _).
    done.
Qed.

(** X8. Whenever [add_knowledge(cell, count)] returns, the cell is recorded
    as played and as safe, it is the only new move, the grid is unchanged,
    and no cell has left [mines] or [safes]. *)
Theorem add_knowledge_grows (fuel : nat) (cell : Cell) (cnt : Z)
    (ai ai' : AI) :
  add_knowledge fuel cell cnt ai = Some ai' →
  height ai' = height ai ∧ width ai' = width ai
  ∧ moves_made ai' = {[cell]} ∪ moves_made ai
  ∧ cell ∈ safes ai'
  ∧ safes ai ⊆ safes ai' ∧ mines ai ⊆ mines ai'.
Proof.
  unfold add_knowledge. intros Hl. apply resolve_loop_grows in Hl.
  destruct Hl as [(Hh & Hw & _ & Hm & Hs) Hmv].
  destruct (add_knowledge_prefix_grows cell cnt ai)
    as [(Hh' & Hw' & _ & Hm' & Hs') Hmv'].
  destruct (played_grows cell ai) as ((Hh0 & Hw0 & _ & Hm0 & Hs0) & Emv & Es & Em).
  split; [congruence|]. split; [congruence|].
  split; [congruence|].
  split; [apply Hs, Hs'; rewrite Es; set_solver|].
  split; set_solver.
Qed.

Lemma add_knowledge_grows_witness :
  let ai' := mkAI 1 1 {[ (0, 0) ]} ∅ {[ (0, 0) ]} [] in
  height ai' = height (init 1 1) ∧ width ai' = width (init 1 1)
  ∧ moves_made ai' = {[ (0, 0) ]} ∪ moves_made (init 1 1)
  ∧ (0, 0) ∈ safes ai'
  ∧ safes (init 1 1) ⊆ safes ai' ∧ mines (init 1 1) ⊆ mines ai'.
Proof.
  intros ai'. apply (add_knowledge_grows 1 (0, 0) 0 (init 1 1) ai').
  vm_compute. reflexivity.
Defined.

Lemma update_with_knowledge_marks_kept (ai : AI) :
  safes ai ⊆ safes (update_with_knowledge ai)
  ∧ mines ai ⊆ mines (update_with_knowledge ai).
Proof.
  destruct (update_with_knowledge_grows ai) as ((_ & _ & _ & Hm & Hs) & _).
  done.
Qed.

(** X9. [add_knowledge(cell, 0)] always returns, and afterwards every cell
    of the grid within one row and column of [cell] is safe, unless it was
    already a known mine or a played cell. *)
Theorem add_knowledge_zero (fuel : nat) (cell : Cell) (ai : AI) :
  ∃ ai', add_knowledge fuel cell 0 ai = Some ai'
         ∧ ∀ c, in_grid ai c → near cell c →
                c ∉ mines ai → c ∉ moves_made ai → c ∈ safes ai'.
Proof.
  unfold add_knowledge, add_knowledge_prefix. fold (played cell ai).
  simpl. eexists. split; [by destruct fuel|].
  intros c Hg Hn Hm Hv.
  set (cs := get_surrounding_cells (played cell ai) cell).
  apply (update_with_knowledge_marks_kept (mark_safes cs (played cell ai))).
  destruct (mark_safes_sets cs (played cell ai)) as (-> & _).
  destruct (played_grows cell ai) as (_ & Emv & Es & Em).
  destruct (decide (c ∈ safes (played cell ai))) as [Hin|Hnin];
    [by apply elem_of_union_r|].
  apply elem_of_union_l, elem_of_list_to_set.
  apply elem_of_get_surrounding_cells.
  split; [done|]. split; [done|]. unfold unknown.
  rewrite Emv, Em. rewrite Es in Hnin. set_solver.
Qed.

(** X10. When [count] is not zero and equals the number of unknown cells
    around [cell], [add_knowledge(cell, count)] always returns, and
    afterwards every such cell is a known mine. *)
Theorem add_knowledge_all_mines (fuel : nat) (cell : Cell) (cnt : Z)
    (ai : AI) :
  cnt ≠ 0 →
  cnt = Z.of_nat (length (get_surrounding_cells (played cell ai) cell)) →
  ∃ ai', add_knowledge fuel cell cnt ai = Some ai'
         ∧ ∀ c, c ∈ get_surrounding_cells (played cell ai) cell →
                c ∈ mines ai'.
Proof.
  intros Hne Hcnt.
  unfold add_knowledge, add_knowledge_prefix. fold (played cell ai).
  set (cs := get_surrounding_cells (played cell ai) cell) in *.
  rewrite (proj2 (Z.eqb_neq _ _) Hne), (proj2 (Z.eqb_eq _ _) Hcnt).
  eexists. split; [by destruct fuel|].
  intros c Hc.
  apply (update_with_knowledge_marks_kept (mark_mines cs (played cell ai))).
  destruct (mark_mines_sets cs (played cell ai)) as (-> & _).
  by apply elem_of_union_l, elem_of_list_to_set.
Qed.

Lemma add_knowledge_all_mines_witness :
  ∃ ai', add_knowledge 0 (0, 0) 1 (init 2 1) = Some ai'
         ∧ ∀ c, c ∈ get_surrounding_cells (played (0, 0) (init 2 1)) (0, 0) →
                c ∈ mines ai'.
Proof.
  apply add_knowledge_all_mines; [discriminate | vm_compute; reflexivity].
Defined.

(** ** Calls of [add_knowledge] that do not return *)

Lemma len_pos_elem (X : gset Cell) : 0 < len X → ∃ x, x ∈ X.
Proof.
  unfold len. intros Hl. apply set_choose_L.
  intros ->. rewrite size_empty in Hl. lia.
Qed.

Section Splits.
Variables k a b : Sentence.
Hypothesis Hsplit : splits k a b.

Lemma splits_back : cells a = cells k ∖ cells b ∧ count a = count k - count b.
Proof.
  destruct Hsplit as (Hsub & Hb & Hc & _). split; [|lia].
  rewrite Hb. apply set_eq. intros x.
  rewrite !elem_of_difference.
  destruct (decide (x ∈ cells a)) as [Hx|Hx]; [|tauto].
  split; [|done]. intros _. split; [by apply Hsub | tauto].
Qed.

Lemma scan_whole_a (acc : list Sentence * list Cell) :
  scan_one a acc k = (acc.1 ++ [b], elements (cells b)).
Proof.
  destruct Hsplit as (Hsub & Hb & Hc & _). unfold scan_one.
  rewrite bool_decide_eq_true_2 by done.
  rewrite <- Hb, <- Hc. by destruct b.
Qed.

Lemma scan_whole_b (acc : list Sentence * list Cell) :
  scan_one b acc k = (acc.1 ++ [a], elements (cells a)).
Proof.
  destruct splits_back as [Ha Hc].
  destruct Hsplit as (_ & Hb & _). unfold scan_one.
  rewrite bool_decide_eq_true_2
    by (rewrite Hb; intros x ?%elem_of_difference; tauto).
  rewrite <- Ha, <- Hc. by destruct a.
Qed.

Lemma scan_copy (x : Sentence) (acc : list Sentence * list Cell) :
  scan_one x acc x = (acc.1 ++ [empty_sentence], []).
Proof.
  unfold scan_one. rewrite bool_decide_eq_true_2 by done.
  rewrite difference_diag_L, Z.sub_diag. by rewrite elements_empty.
Qed.

Lemma parts_apart :
  ¬ cells a ⊆ cells b ∧ ¬ cells b ⊆ cells a.
Proof.
  destruct Hsplit as (_ & Hb & _ & Ha & Hb').
  destruct (len_pos_elem (cells a)) as [x Hx]; [lia|].
  destruct (len_pos_elem (cells b)) as [y Hy]; [lia|].
  split; intros Hsub.
  - pose proof (Hsub _ Hx) as Hxb. rewrite Hb in Hxb.
    apply elem_of_difference in Hxb. tauto.
  - pose proof (Hsub _ Hy) as Hya. rewrite Hb in Hy.
    apply elem_of_difference in Hy. tauto.
Qed.

Lemma scan_other_a (acc : list Sentence * list Cell) :
  scan_one a acc b = acc.
Proof.
  destruct parts_apart as [H1 H2]. unfold scan_one.
  by rewrite !bool_decide_eq_false_2.
Qed.

Lemma scan_other_b (acc : list Sentence * list Cell) :
  scan_one b acc a = acc.
Proof.
  destruct parts_apart as [H1 H2]. unfold scan_one.
  by rewrite !bool_decide_eq_false_2.
Qed.

Lemma scan_parts (x : Sentence) (rest : list Sentence) :
  x = a ∨ x = b →
  Forall (fun s => s = a ∨ s = b) rest →
  ∀ q cs, ∃ es cs',
    foldl (scan_one x) (q, cs) rest = (q ++ es, cs')
    ∧ Forall (fun s => s = empty_sentence) es
    ∧ (es = [] → cs' = cs)
    ∧ (es ≠ [] → cs' = []).
Proof.
  intros Hx. induction 1 as [|s rest Hs _ IH]; intros q cs.
  - exists [], cs. rewrite app_nil_r. done.
  - cbn [foldl].
    assert (scan_one x (q, cs) s = (q, cs)
            ∨ scan_one x (q, cs) s = (q ++ [empty_sentence], [])) as [->| ->].
    { destruct Hx as [-> | ->], Hs as [-> | ->].
      - right. apply scan_copy.
      - left. apply scan_other_a.
      - left. apply scan_other_b.
      - right. apply scan_copy. }
    + apply IH.
    + destruct (IH (q ++ [empty_sentence]) [])
        as (es & cs' & -> & Hes & Hnil & Hcs).
      exists (empty_sentence :: es), cs'. rewrite <- app_assoc. simpl.
      split; [done|]. split; [by constructor|]. split; [done|].
      intros _. destruct es as [|e es]; [by apply Hnil | by apply Hcs].
Qed.

Lemma part_not_resolved (x : Sentence) :
  x = a ∨ x = b → (len (cells x) =? count x) = false ∧ (count x =? 0) = false.
Proof.
  destruct Hsplit as (_ & _ & _ & Ha & Hb).
  intros [-> | ->]; split; first [apply Z.eqb_neq | idtac]; lia.
Qed.

Lemma cycling_on_step (f : Frame) :
  cycling_on k a b f →
  ∃ s rest, pop_last (new_knowledge f) = Some (s, rest)
            ∧ cycling_on k a b (resolve_step s rest (cells_var f) (agent f)).
Proof.
  intros (x & es & rest & Hx & Hq & Hes & Hcs & Hk & Hrest).
  rewrite Hq. destruct es as [|e es] using rev_ind.
  - exists x, []. split; [done|].
    unfold resolve_step.
    destruct (part_not_resolved x Hx) as [-> ->].
    rewrite Hk. cbn [foldl].
    assert (∃ x', (x' = a ∨ x' = b)
                  ∧ scan_one x ([], cells_var f) k
                    = ([x'], elements (cells x'))) as (x' & Hx' & ->).
    { destruct Hx as [-> | ->].
      - exists b. split; [by right | apply scan_whole_a].
      - exists a. split; [by left | apply scan_whole_b]. }
    destruct (scan_parts x rest Hx Hrest [x'] (elements (cells x')))
      as (es & cs' & -> & Hes' & _ & Hcs').
    exists x', es, (rest ++ [x]). simpl.
    split; [done|]. split; [done|]. split; [done|]. split; [done|].
    split; [by rewrite Hk|].
    apply Forall_app. split; [done|]. by constructor.
  - clear IHes. apply Forall_app in Hes. destruct Hes as [Hes He].
    apply Forall_inv in He. simpl in He. subst e.
    exists empty_sentence, (x :: es).
    split; [apply (pop_last_snoc (x :: es))|].
    rewrite Hcs by (by destruct es). simpl.
    exists x, es, rest. simpl. split; [done|]. split; [done|].
    split; [done|]. split; [done|]. done.
Qed.

Lemma cycling_on_forever (fuel : nat) (f : Frame) :
  cycling_on k a b f → resolve_loop fuel f = None.
Proof.
  revert f. induction fuel as [|fuel IH]; intros f Hf;
    destruct (cycling_on_step f Hf) as (s & rest & Hpop & Hf'); simpl;
    rewrite Hpop; [done | by apply IH].
Qed.
End Splits.

(** X11. The loop of [add_knowledge] never ends once it is entered with a
    staged sentence that is a part of the single sentence of the knowledge
    base, when neither that part nor the rest is resolved (each has at
    least one mine and fewer mines than cells): the two keep deriving each
    other. *)
Theorem resolve_loop_never_ends (k a b : Sentence) (f : Frame)
    (fuel : nat) :
  splits k a b →
  new_knowledge f = [a] →
  knowledge (agent f) = [k] →
  resolve_loop fuel f = None.
Proof.
  intros Hs Hq Hk. apply (cycling_on_forever k a b Hs).
  exists a, [], []. split; [by left|]. split; [done|].
  split; [constructor|]. split; [done|]. split; [done | constructor].
Qed.

Lemma resolve_loop_never_ends_witness :
  resolve_loop 100
    (mkFrame (mkAI 3 3 {[ (0, 0); (1, 1) ]} ∅ {[ (0, 0); (1, 1) ]}
                   [around_centre])
             [corner_pair] [])
  = None.
Proof.
  apply (resolve_loop_never_ends around_centre corner_pair far_five);
    [|reflexivity|reflexivity].
  split; [apply (bool_decide_unpack _); vm_compute; exact I|].
  split; [vm_compute; reflexivity|].
  split; [reflexivity|].
  split; vm_compute; split; reflexivity.
Defined.

(** ** [nearby_mines] *)

Lemma foldl_count {A B} (f : Z → A → Z) (g : A → list B) (l : list A)
    (c : Z) :
  (∀ c x, f c x = c + Z.of_nat (length (g x))) →
  foldl f c l = c + Z.of_nat (length (l ≫= g)).
Proof.
  intros Hf. revert c. induction l as [|x l IH]; intros c.
  - simpl. lia.
  - cbn [foldl]. rewrite IH, Hf, bind_cons, length_app. lia.
Qed.

Lemma nearby_mines_length (g : Game) (cell : Cell) :
  nearby_mines g cell = Z.of_nat (length (mined_neighbours g cell)).
Proof.
  unfold nearby_mines, mined_neighbours.
  erewrite (foldl_count _ (fun i => _ ≫= _)); [by rewrite Z.add_0_l|].
  intros c i. simpl. apply foldl_count. intros c' j. simpl.
  destruct (decide ((i, j) = cell)) as [He|Hne].
  - rewrite !(bool_decide_eq_true_2 _ He). simpl. by rewrite Z.add_0_r.
  - rewrite !(bool_decide_eq_false_2 _ Hne).
    destruct ((0 <=? i) && (i <? game_height g)
              && (0 <=? j) && (j <? game_width g));
      [|simpl; by rewrite Z.add_0_r].
    destruct (mine_at g i j); simpl; [done | by rewrite Z.add_0_r].
Qed.

Lemma range_around (a : Z) : range (a - 1) (a + 2) = [a - 1; a; a + 1].
Proof.
  unfold range. replace (a + 2 - (a - 1)) with 3 by lia.
  simpl. f_equal; [lia|]. f_equal; [lia|]. f_equal. lia.
Qed.

Lemma elem_of_mined_neighbours (g : Game) (cell c : Cell) :
  c ∈ mined_neighbours g cell
  ↔ near cell c ∧ c ≠ cell
    ∧ 0 ≤ c.1 < game_height g ∧ 0 ≤ c.2 < game_width g
    ∧ mine_at g c.1 c.2 = true.
Proof.
  unfold mined_neighbours, near. destruct c as [ci cj].
  rewrite list_elem_of_bind. simpl. split.
  - intros (i & Hin & Hi). apply list_elem_of_bind in Hin.
    destruct Hin as (j & Hin & Hj). apply elem_of_range in Hi, Hj.
    case_bool_decide as Hne; [by apply elem_of_nil in Hin|].
    destruct ((0 <=? i) && (i <? game_height g)
              && (0 <=? j) && (j <? game_width g)) eqn:Hb;
      [|by apply elem_of_nil in Hin].
    destruct (mine_at g i j) eqn:Hm; [|by apply elem_of_nil in Hin].
    apply list_elem_of_singleton in Hin. inversion Hin; subst.
    rewrite !andb_true_iff in Hb. repeat split; try done; lia.
  - intros ((Hi & Hj) & Hne & Hgi & Hgj & Hm).
    exists ci. split; [|apply elem_of_range; lia].
    apply list_elem_of_bind. exists cj. split; [|apply elem_of_range; lia].
    rewrite bool_decide_eq_false_2 by done.
    replace ((0 <=? ci) && (ci <? game_height g)
             && (0 <=? cj) && (cj <? game_width g)) with true.
    + rewrite Hm. apply list_elem_of_here.
    + symmetry. rewrite !andb_true_iff. repeat split; lia.
Qed.

Lemma NoDup_mined_neighbours (g : Game) (cell : Cell) :
  NoDup (mined_neighbours g cell).
Proof.
  unfold mined_neighbours. apply NoDup_bind; [| |apply NoDup_range].
  - intros i1 i2 c _ _ H1 H2. apply list_elem_of_bind in H1, H2.
    destruct H1 as (j1 & H1 & _), H2 as (j2 & H2 & _).
    repeat case_match; try (by apply elem_of_nil in H1);
      try (by apply elem_of_nil in H2).
    apply list_elem_of_singleton in H1, H2. congruence.
  - intros i _. apply NoDup_bind; [| |apply NoDup_range].
    + intros j1 j2 c _ _ H1 H2.
      repeat case_match; try (by apply elem_of_nil in H1);
        try (by apply elem_of_nil in H2).
      apply list_elem_of_singleton in H1, H2. congruence.
    + intros j _. repeat case_match; try apply NoDup_nil_2.
      apply NoDup_singleton.
Qed.

Lemma length_opt {A} (c : bool) (x : A) :
  (length (if c then [x] else []) ≤ 1)%nat.
Proof. destruct c; simpl; lia. Qed.

Lemma mined_neighbours_at_most_8 (g : Game) (cell : Cell) :
  (length (mined_neighbours g cell) ≤ 8)%nat.
Proof.
  unfold mined_neighbours. destruct cell as [a b]. simpl.
  rewrite !range_around. simpl.
  rewrite (bool_decide_eq_true_2 ((a, b) = (a, b))) by done.
  rewrite !length_app. simpl.
  repeat match goal with
         | |- context [length (if bool_decide ?P then [] else ?r)] =>
           let H := fresh in
           assert (length (if bool_decide P then [] else r) ≤ 1)%nat as H
             by (case_bool_decide; [simpl; lia|];
                 repeat case_match; simpl; lia);
           revert H;
           generalize (length (if bool_decide P then [] else r))
         end.
  intros. lia.
Qed.

(** X12. [nearby_mines(cell)] is the number of cells that lie on the board,
    within one row and column of [cell] and other than [cell], and hold a
    mine; cells off the board are not counted, and the result is between 0
    and 8. *)
Theorem nearby_mines_spec (g : Game) (cell : Cell) :
  nearby_mines g cell = Z.of_nat (length (mined_neighbours g cell))
  ∧ NoDup (mined_neighbours g cell)
  ∧ (∀ c, c ∈ mined_neighbours g cell
          ↔ near cell c ∧ c ≠ cell
            ∧ 0 ≤ c.1 < game_height g ∧ 0 ≤ c.2 < game_width g
            ∧ mine_at g c.1 c.2 = true)
  ∧ 0 ≤ nearby_mines g cell ≤ 8.
Proof.
  split; [apply nearby_mines_length|].
  split; [apply NoDup_mined_neighbours|].
  split; [intros c; apply elem_of_mined_neighbours|].
  rewrite nearby_mines_length.
  pose proof (mined_neighbours_at_most_8 g cell). lia.
Qed.

(** ** [Minesweeper.__init__] *)

Lemma length_range (a b : Z) : Z.of_nat (length (range a b)) = Z.max 0 (b - a).
Proof. unfold range. rewrite length_map, length_seq. lia. Qed.

Lemma mine_at_empty (h w i j : Z) :
  mine_at (mkGame h w (empty_board h w)) i j = false.
Proof.
  unfold mine_at, empty_board. simpl. rewrite list_lookup_fmap.
  destruct (range 0 h !! Z.to_nat i); simpl; [|done].
  rewrite list_lookup_fmap. by destruct (range 0 w !! Z.to_nat j).
Qed.

Lemma empty_board_agrees (h w : Z) :
  board_agrees (mkGame h w (empty_board h w)) ∅.
Proof.
  unfold board_agrees. simpl. split; [|split].
  - unfold empty_board. rewrite length_fmap, length_range. lia.
  - unfold empty_board. apply Forall_fmap, Forall_forall. intros x _. simpl.
    rewrite length_fmap, length_range. lia.
  - intros i j. rewrite mine_at_empty. split; [by intros ?%not_elem_of_empty|].
    by intros (_ & _ & ?).
Qed.

Lemma mine_at_set_mine (h w : Z) (b : list (list bool)) (i j i' j' : Z) :
  Z.of_nat (length b) = Z.max 0 h →
  Forall (fun row => Z.of_nat (length row) = Z.max 0 w) b →
  0 ≤ i < h → 0 ≤ j < w → 0 ≤ i' → 0 ≤ j' →
  mine_at (mkGame h w (set_mine b i j)) i' j'
  = if bool_decide ((i', j') = (i, j)) then true
    else mine_at (mkGame h w b) i' j'.
Proof.
  intros Hlen Hrows Hi Hj Hi' Hj'. unfold mine_at, set_mine. simpl.
  destruct (b !! Z.to_nat i) as [row|] eqn:Hrow.
  - assert (Z.of_nat (length row) = Z.max 0 w) as Hrl.
    { rewrite Forall_forall in Hrows. apply Hrows.
      by eapply list_elem_of_lookup_2. }
    destruct (decide (Z.to_nat i' = Z.to_nat i)) as [Hei|Hni].
    + rewrite Hei, list_lookup_insert_eq by (apply lookup_lt_Some in Hrow; lia).
      simpl. destruct (decide (Z.to_nat j' = Z.to_nat j)) as [Hej|Hnj].
      * rewrite Hej, list_lookup_insert_eq by lia.
        rewrite bool_decide_eq_true_2; [done|]. f_equal; lia.
      * rewrite list_lookup_insert_ne by done.
        rewrite bool_decide_eq_false_2 by (intros [= -> ->]; done).
        by rewrite Hrow.
    + rewrite list_lookup_insert_ne by done.
      by rewrite bool_decide_eq_false_2 by (intros [= -> ->]; done).
  - apply lookup_ge_None in Hrow. lia.
Qed.

Lemma set_mine_dims (h w : Z) (b : list (list bool)) (i j : Z) :
  Z.of_nat (length b) = Z.max 0 h →
  Forall (fun row => Z.of_nat (length row) = Z.max 0 w) b →
  Z.of_nat (length (set_mine b i j)) = Z.max 0 h
  ∧ Forall (fun row => Z.of_nat (length row) = Z.max 0 w) (set_mine b i j).
Proof.
  intros Hlen Hrows. unfold set_mine.
  destruct (b !! Z.to_nat i) as [row|] eqn:Hrow; [|done].
  rewrite length_insert. split; [done|].
  apply Forall_insert; [done|]. rewrite length_insert.
  rewrite Forall_forall in Hrows. apply Hrows.
  by eapply list_elem_of_lookup_2.
Qed.

Lemma place_mines_agrees (h w n : Z) (draws : list Cell) :
  ∀ ms b ms' b',
    board_agrees (mkGame h w b) ms →
    place_mines h w n draws ms b = Some (ms', b') →
    board_agrees (mkGame h w b') ms' ∧ len ms' = n ∧ ms ⊆ ms'.
Proof.
  induction draws as [|[i j] draws IH]; intros ms b ms' b' Hag; simpl.
  - destruct (Z.eqb_spec (len ms) n); [|done]. by intros [= <- <-].
  - destruct (Z.eqb_spec (len ms) n); [by intros [= <- <-]|].
    destruct ((0 <=? i) && (i <? h) && (0 <=? j) && (j <? w)) eqn:Hin;
      [|done].
    rewrite !andb_true_iff in Hin.
    destruct (mine_at (mkGame h w b) i j) eqn:Hm; [by apply IH|].
    intros Hp. apply IH in Hp.
    + destruct Hp as (? & ? & Hsub). split; [done|]. split; [done|].
      set_solver.
    + destruct Hag as (Hlen & Hrows & Hmines). simpl in *.
      destruct (set_mine_dims h w b i j Hlen Hrows) as [Hlen' Hrows'].
      split; [done|]. split; [done|]. intros i' j'. simpl.
      rewrite elem_of_union, elem_of_singleton, Hmines.
      destruct (decide (0 ≤ i' ∧ 0 ≤ j')) as [[??]|Hneg];
        [|split; [intros [[= -> ->]|(? & ? & _)]; lia
                 | intros (? & ? & _); lia]].
      rewrite mine_at_set_mine by (done || lia).
      case_bool_decide as He.
      * injection He as -> ->. split; [intros _; repeat split; lia|].
        by left.
      * split; [intros [?|?]; done | by right].
Qed.

(** X13. When [Minesweeper(height, width, mines)] is constructed, the board
    has [height] rows of [width] entries, [self.mines] holds exactly the
    cells of the board that are marked, their number is [mines], no mine is
    found yet, and the game counts as won only when [mines] is 0. *)
Theorem new_game_spec (h w n : Z) (draws : list Cell) (fl : Field) :
  new_game h w n draws = Some fl →
  game_height (game fl) = h ∧ game_width (game fl) = w
  ∧ board_agrees (game fl) (field_mines fl)
  ∧ len (field_mines fl) = n
  ∧ mines_found fl = ∅
  ∧ (won fl = true ↔ n = 0).
Proof.
  unfold new_game.
  destruct (place_mines h w n draws ∅ (empty_board h w)) as [[ms b]|] eqn:Hp;
    [|done].
  simpl. intros [= <-]. simpl.
  destruct (place_mines_agrees h w n draws _ _ _ _ (empty_board_agrees h w) Hp)
    as (Hag & Hlen & _).
  split; [done|]. split; [done|]. split; [done|]. split; [done|].
  split; [done|]. unfold won. simpl. rewrite bool_decide_eq_true. split.
  - intros Hw. rewrite <- Hw in Hlen. unfold len in Hlen.
    rewrite size_empty in Hlen. lia.
  - intros ->. symmetry. apply leibniz_equiv, size_empty_iff.
    unfold len in Hlen. lia.
Qed.

Lemma new_game_spec_witness :
  let fl := mkField board_2x3 {[ (1, 1) ]} ∅ in
  game_height (game fl) = 2 ∧ game_width (game fl) = 3
  ∧ board_agrees (game fl) (field_mines fl)
  ∧ len (field_mines fl) = 1
  ∧ mines_found fl = ∅
  ∧ (won fl = true ↔ 1 = 0).
Proof.
  intros fl. apply (new_game_spec 2 3 1 [(1, 1)] fl).
  vm_compute. reflexivity.
Defined.

(** The board with one mine that the examples use. *)
Lemma board_2x3_agrees : board_agrees board_2x3 {[ (1, 1) ]}.
Proof.
  apply (place_mines_agrees 2 3 1 [(1, 1)] ∅ (empty_board 2 3)
           {[ (1, 1) ]} [[false; false; false]; [false; true; false]]
           (empty_board_agrees 2 3)).
  vm_compute. reflexivity.
Qed.

(** X14. On a board that agrees with [self.mines], [nearby_mines(cell)] is
    the number of mines of [self.mines] within one row and column of
    [cell], [cell] itself not counted. *)
Theorem nearby_mines_counts_mines (g : Game) (ms : gset Cell) (cell : Cell) :
  board_agrees g ms →
  nearby_mines g cell = Z.of_nat (length (mined_neighbours g cell))
  ∧ NoDup (mined_neighbours g cell)
  ∧ ∀ c, c ∈ mined_neighbours g cell ↔ c ∈ ms ∧ near cell c ∧ c ≠ cell.
Proof.
  intros (_ & _ & Hms).
  split; [apply nearby_mines_length|].
  split; [apply NoDup_mined_neighbours|].
  intros [i j]. rewrite elem_of_mined_neighbours, Hms. simpl. tauto.
Qed.

Lemma nearby_mines_counts_mines_witness :
  nearby_mines board_2x3 (0, 0)
  = Z.of_nat (length (mined_neighbours board_2x3 (0, 0)))
  ∧ NoDup (mined_neighbours board_2x3 (0, 0))
  ∧ ∀ c, c ∈ mined_neighbours board_2x3 (0, 0)
         ↔ c ∈ ({[ (1, 1) ]} : gset Cell) ∧ near (0, 0) c ∧ c ≠ (0, 0).
Proof.
  apply nearby_mines_counts_mines. apply board_2x3_agrees.
Defined.

(** ** Inference is sound, as far as it goes *)

Lemma holds_known_mines (ms : gset Cell) (s : Sentence) :
  holds ms s → Sentence.known_mines s ⊆ ms.
Proof.
  unfold holds, Sentence.known_mines, len. intros H.
  destruct (Z.eqb_spec (count s) (Z.of_nat (size (cells s)))) as [E|_];
    [|set_solver].
  assert (cells s ∩ ms = cells s) as Heq.
  { apply set_subseteq_size_eq; [set_solver | lia]. }
  set_solver.
Qed.

Lemma holds_known_safes (ms : gset Cell) (s : Sentence) :
  holds ms s → Sentence.known_safes s ∩ ms = ∅.
Proof.
  unfold holds, Sentence.known_safes, len. intros H.
  destruct (Z.eqb_spec (count s) 0) as [E|_]; [|set_solver].
  apply leibniz_equiv, size_empty_iff. lia.
Qed.

Lemma holds_mark_mine (ms : gset Cell) (c : Cell) (s : Sentence) :
  c ∈ ms → holds ms s → holds ms (Sentence.mark_mine c s).
Proof.
  unfold holds, Sentence.mark_mine, len. intros Hc H.
  case_bool_decide as Hin; [|done]. simpl.
  replace ((cells s ∖ {[c]}) ∩ ms) with ((cells s ∩ ms) ∖ {[c]})
    by set_solver.
  assert ({[c]} ⊆ cells s ∩ ms) as Hsub by set_solver.
  rewrite size_difference by done.
  pose proof (subseteq_size _ _ Hsub) as Hle.
  rewrite size_singleton in *. lia.
Qed.

Lemma holds_mark_safe (ms : gset Cell) (c : Cell) (s : Sentence) :
  c ∉ ms → holds ms s → holds ms (Sentence.mark_safe c s).
Proof.
  unfold holds, Sentence.mark_safe, len. intros Hc H.
  case_bool_decide as Hin; [|done]. simpl.
  replace ((cells s ∖ {[c]}) ∩ ms) with (cells s ∩ ms) by set_solver.
  done.
Qed.

(** X21. For a sentence that is true of the board -- [count] of its cells
    are mines -- every cell of [known_mines()] is a mine, no cell of
    [known_safes()] is one, and the sentence stays true when a mine is
    marked with [mark_mine] or a cell without a mine with [mark_safe]. *)
Theorem sentence_inference_sound (ms : gset Cell) (s : Sentence) :
  holds ms s →
  Sentence.known_mines s ⊆ ms
  ∧ Sentence.known_safes s ∩ ms = ∅
  ∧ (∀ c, c ∈ ms → holds ms (Sentence.mark_mine c s))
  ∧ (∀ c, c ∉ ms → holds ms (Sentence.mark_safe c s)).
Proof.
  intros H.
  split; [by apply holds_known_mines|].
  split; [by apply holds_known_safes|].
  split; intros c Hc; [by apply holds_mark_mine | by apply holds_mark_safe].
Qed.

Lemma sentence_inference_sound_witness :
  let ms : gset Cell := {[ (0, 1); (1, 0) ]} in
  let s := mkSentence {[ (0, 1); (1, 0) ]} 2 in
  Sentence.known_mines s ⊆ ms
  ∧ Sentence.known_safes s ∩ ms = ∅
  ∧ (∀ c, c ∈ ms → holds ms (Sentence.mark_mine c s))
  ∧ (∀ c, c ∉ ms → holds ms (Sentence.mark_safe c s)).
Proof.
  intros ms s. apply (sentence_inference_sound ms s).
  vm_compute. reflexivity.
Defined.

Lemma sound_mark_mine (ms : gset Cell) (c : Cell) (ai : AI) :
  c ∈ ms → sound ms ai → sound ms (mark_mine c ai).
Proof.
  intros Hc (Hm & Hs & Hk). unfold sound. simpl.
  split; [set_solver|]. split; [done|].
  apply Forall_fmap. eapply Forall_impl; [exact Hk|].
  intros s Hs'. by apply holds_mark_mine.
Qed.

Lemma sound_mark_safe (ms : gset Cell) (c : Cell) (ai : AI) :
  c ∉ ms → sound ms ai → sound ms (mark_safe c ai).
Proof.
  intros Hc (Hm & Hs & Hk). unfold sound. simpl.
  split; [done|]. split; [set_solver|].
  apply Forall_fmap. eapply Forall_impl; [exact Hk|].
  intros s Hs'. by apply holds_mark_safe.
Qed.

Lemma sound_mark_mines (ms : gset Cell) (cs : list Cell) (ai : AI) :
  (∀ c, c ∈ cs → c ∈ ms) → sound ms ai → sound ms (mark_mines cs ai).
Proof.
  revert ai. unfold mark_mines.
  induction cs as [|c cs IH]; intros ai Hcs Hs; simpl; [done|].
  apply IH; [intros c' Hc'; apply Hcs; by right|].
  apply sound_mark_mine; [apply Hcs; by left | done].
Qed.

Lemma sound_mark_safes (ms : gset Cell) (cs : list Cell) (ai : AI) :
  (∀ c, c ∈ cs → c ∉ ms) → sound ms ai → sound ms (mark_safes cs ai).
Proof.
  revert ai. unfold mark_safes.
  induction cs as [|c cs IH]; intros ai Hcs Hs; simpl; [done|].
  apply IH; [intros c' Hc'; apply Hcs; by right|].
  apply sound_mark_safe; [apply Hcs; by left | done].
Qed.

Lemma sound_pop_knowledge (ms : gset Cell) (i : nat) (ai : AI) :
  sound ms ai → sound ms (pop_knowledge i ai).
Proof.
  intros (Hm & Hs & Hk). unfold sound. simpl.
  split; [done|]. split; [done|]. by apply Forall_delete.
Qed.

Lemma update_with_knowledge_keeps_sound (ms : gset Cell) (ai : AI) :
  sound ms ai → sound ms (update_with_knowledge ai).
Proof.
  intros Hs. unfold update_with_knowledge.
  apply (update_loop_ind (sound ms)); [| |done].
  - intros a i s Ha Hlook Hcount.
    apply sound_mark_mines; [|by apply sound_pop_knowledge].
    destruct Ha as (_ & _ & Hk).
    pose proof (Forall_lookup_1 _ _ _ _ Hk Hlook) as Hh.
    pose proof (holds_known_mines ms s Hh) as Hkm.
    unfold Sentence.known_mines in Hkm.
    rewrite (proj2 (Z.eqb_eq _ _) Hcount) in Hkm.
    intros c Hc%elem_of_elements. by apply Hkm.
  - intros a i s Ha Hlook Hcount.
    apply sound_mark_safes; [|by apply sound_pop_knowledge].
    destruct Ha as (_ & _ & Hk).
    pose proof (Forall_lookup_1 _ _ _ _ Hk Hlook) as Hh.
    pose proof (holds_known_safes ms s Hh) as Hks.
    unfold Sentence.known_safes in Hks.
    rewrite (proj2 (Z.eqb_eq _ _) Hcount) in Hks.
    intros c Hc%elem_of_elements. set_solver.
Qed.

(** X22. [update_with_knowledge] draws only true conclusions: when every
    cell of [mines] is a mine of the board, no cell of [safes] is one and
    every sentence of the knowledge base is true of the board, the same
    holds after the call. *)
Theorem update_with_knowledge_sound (ms : gset Cell) (ai : AI) :
  sound ms ai → sound ms (update_with_knowledge ai).
Proof. apply update_with_knowledge_keeps_sound. Qed.

Lemma update_with_knowledge_sound_witness :
  let ms : gset Cell := {[ (0, 1); (1, 0) ]} in
  let ai := mkAI 3 3 ∅ ∅ ∅ [mkSentence {[ (0, 1); (1, 0) ]} 2;
                            mkSentence {[ (1, 0); (2, 2) ]} 1] in
  sound ms (update_with_knowledge ai).
Proof.
  intros ms ai. apply (update_with_knowledge_sound ms ai).
  split; [apply empty_subseteq|].
  split; [vm_compute; reflexivity|].
  constructor; [vm_compute; reflexivity|].
  constructor; [vm_compute; reflexivity | constructor].
Defined.

Lemma holds_difference (ms : gset Cell) (s1 s2 : Sentence) :
  holds ms s1 → holds ms s2 → cells s1 ⊆ cells s2 →
  holds ms (mkSentence (cells s2 ∖ cells s1) (count s2 - count s1)).
Proof.
  unfold holds, len. simpl. intros H1 H2 Hsub.
  replace ((cells s2 ∖ cells s1) ∩ ms)
    with ((cells s2 ∩ ms) ∖ (cells s1 ∩ ms)) by set_solver.
  assert (cells s1 ∩ ms ⊆ cells s2 ∩ ms) as Hsub' by set_solver.
  rewrite size_difference by done.
  pose proof (subseteq_size _ _ Hsub') as Hle. lia.
Qed.

Lemma scan_one_holds (ms : gset Cell) (s1 s2 : Sentence)
    (acc : list Sentence * list Cell) :
  holds ms s1 → holds ms s2 → Forall (holds ms) acc.1 →
  Forall (holds ms) (scan_one s1 acc s2).1.
Proof.
  intros H1 H2 Hacc. unfold scan_one.
  case_bool_decide as Ha; simpl.
  - apply Forall_app. split; [done|].
    apply Forall_singleton. by apply holds_difference.
  - case_bool_decide as Hb; simpl; [|done].
    apply Forall_app. split; [done|].
    apply Forall_singleton. by apply holds_difference.
Qed.

Lemma scan_holds (ms : gset Cell) (s1 : Sentence) (kb : list Sentence)
    (acc : list Sentence * list Cell) :
  holds ms s1 → Forall (holds ms) kb → Forall (holds ms) acc.1 →
  Forall (holds ms) (foldl (scan_one s1) acc kb).1.
Proof.
  intros H1. revert acc.
  induction kb as [|s2 kb IH]; intros acc Hkb Hacc; simpl; [done|].
  apply IH; [by eapply Forall_inv_tail|].
  apply scan_one_holds; [done | by eapply Forall_inv | done].
Qed.

(** X23. The sentences the loop [for sentence2 in self.knowledge] of
    [add_knowledge] stages are true of the board when [sentence1], the
    sentences of the knowledge base and the sentences staged before are. *)
Theorem subset_inference_sound (ms : gset Cell) (sentence1 : Sentence)
    (kb staged : list Sentence) (cs : list Cell) :
  holds ms sentence1 → Forall (holds ms) kb → Forall (holds ms) staged →
  Forall (holds ms) (foldl (scan_one sentence1) (staged, cs) kb).1.
Proof. intros H1 Hkb Hst. by apply scan_holds. Qed.

Lemma subset_inference_sound_witness :
  let ms : gset Cell := {[ (0, 1) ]} in
  Forall (holds ms)
    (foldl (scan_one (mkSentence {[ (0, 1); (1, 0) ]} 1)) ([], [])
           [mkSentence {[ (0, 1); (1, 0); (1, 1) ]} 1]).1.
Proof.
  intros ms. apply (subset_inference_sound ms).
  - vm_compute. reflexivity.
  - constructor; [vm_compute; reflexivity | constructor].
  - constructor.
Defined.

Lemma NoDup_get_surrounding_cells (ai : AI) (cell : Cell) :
  NoDup (get_surrounding_cells ai cell).
Proof.
  unfold get_surrounding_cells.
  apply NoDup_bind; [| |apply NoDup_range].
  - intros i1 i2 c _ _ H1 H2. apply list_elem_of_bind in H1, H2.
    destruct H1 as (j1 & H1 & _), H2 as (j2 & H2 & _).
    repeat case_match; try (by apply elem_of_nil in H1);
      try (by apply elem_of_nil in H2).
    apply list_elem_of_singleton in H1, H2. congruence.
  - intros i _. apply NoDup_bind; [| |apply NoDup_range].
    + intros j1 j2 c _ _ H1 H2.
      repeat case_match; try (by apply elem_of_nil in H1);
        try (by apply elem_of_nil in H2).
      apply list_elem_of_singleton in H1, H2. congruence.
    + intros j _. case_match; [apply NoDup_nil_2 | apply NoDup_singleton].
Qed.

Lemma sound_played (ms : gset Cell) (cell : Cell) (ai : AI) :
  cell ∉ ms → sound ms ai → sound ms (played cell ai).
Proof.
  intros Hc (Hm & Hs & Hk). unfold played.
  apply sound_mark_safe; [done|]. by unfold sound.
Qed.

(** The mines among the cells [add_knowledge] collects around [cell] are
    the mines [nearby_mines] counts, as long as no cell around [cell] is
    already in [self.mines]. *)
Lemma surrounding_mines (g : Game) (ms : gset Cell) (ai : AI) (cell : Cell) :
  board_agrees g ms →
  height ai = game_height g → width ai = game_width g →
  sound ms ai → moves_made ai ∩ ms = ∅ → cell ∉ ms →
  (∀ c, c ∈ mines ai → ¬ near cell c) →
  len (list_to_set (get_surrounding_cells (played cell ai) cell) ∩ ms)
  = nearby_mines g cell.
Proof.
  intros (_ & _ & Hms) Hh Hw (Hm & Hs & _) Hmv Hcell Hfar.
  rewrite nearby_mines_length. unfold len. f_equal.
  rewrite <- (size_list_to_set (C := gset Cell) (mined_neighbours g cell))
    by apply NoDup_mined_neighbours.
  f_equal. apply set_eq. intros c.
  rewrite elem_of_intersection, !elem_of_list_to_set,
    elem_of_get_surrounding_cells, elem_of_mined_neighbours.
  destruct (played_grows cell ai) as ((Hh' & Hw' & _) & Emv & Esf & Emi).
  unfold in_grid, unknown. rewrite Hh', Hw', Emv, Esf, Emi, Hh, Hw.
  destruct c as [i j]. pose proof (Hms i j) as Hij. simpl. split.
  - intros ((Hg & Hn & _) & Hin). split; [done|].
    split; [intros Heq; apply Hcell; by rewrite <- Heq|]. tauto.
  - intros (Hn & Hne & Hi & Hj & Hmine).
    assert ((i, j) ∈ ms) as Hin by tauto.
    split; [|done]. split; [done|]. split; [done|].
    split; [set_solver|]. split; [set_solver|].
    intros Hc. by apply (Hfar _ Hc).
Qed.

Lemma add_knowledge_prefix_keeps_sound (g : Game) (ms : gset Cell) (ai : AI)
    (cell : Cell) :
  board_agrees g ms →
  height ai = game_height g → width ai = game_width g →
  sound ms ai → moves_made ai ∩ ms = ∅ → cell ∉ ms →
  (∀ c, c ∈ mines ai → ¬ near cell c) →
  sound ms (agent (add_knowledge_prefix cell (nearby_mines g cell) ai))
  ∧ Forall (holds ms)
      (new_knowledge (add_knowledge_prefix cell (nearby_mines g cell) ai))
  ∧ moves_made (agent (add_knowledge_prefix cell (nearby_mines g cell) ai))
    ∩ ms = ∅.
Proof.
  intros Hg Hh Hw Hs Hmv Hcell Hfar.
  pose proof (surrounding_mines g ms ai cell Hg Hh Hw Hs Hmv Hcell Hfar)
    as Hcount.
  pose proof (sound_played ms cell ai Hcell Hs) as Hsp.
  split; [|split].
  3: { destruct (add_knowledge_prefix_grows cell (nearby_mines g cell) ai)
         as [_ ->].
       destruct (played_grows cell ai) as (_ & -> & _). set_solver. }
  all: unfold add_knowledge_prefix; fold (played cell ai);
    pose proof (NoDup_get_surrounding_cells (played cell ai) cell) as Hnd;
    revert Hcount Hnd;
    generalize (get_surrounding_cells (played cell ai) cell); intros cs
      Hcount Hnd;
    destruct (Z.eqb_spec (nearby_mines g cell) 0) as [E0|N0];
    [|destruct (Z.eqb_spec (nearby_mines g cell) (Z.of_nat (length cs)))
        as [E1|N1]]; cbn [agent new_knowledge]; try done.
  - apply update_with_knowledge_keeps_sound, sound_mark_safes; [|done].
    intros c Hc Hin.
    assert (list_to_set cs ∩ ms = (∅ : gset Cell)) as He.
    { apply leibniz_equiv, size_empty_iff. unfold len in Hcount. lia. }
    set_solver.
  - apply update_with_knowledge_keeps_sound, sound_mark_mines; [|done].
    intros c Hc.
    assert (list_to_set cs ∩ ms = (list_to_set cs : gset Cell)) as He.
    { apply set_subseteq_size_eq; [set_solver|].
      rewrite (size_list_to_set cs) by done. unfold len in Hcount. lia. }
    set_solver.
  - by apply update_with_knowledge_keeps_sound.
  - apply Forall_singleton. unfold holds. simpl. by rewrite Hcount.
Qed.

(** X24. Up to its loop, [add_knowledge(cell, count)] draws only true
    conclusions when it is told the truth and no cell around [cell] is
    already in [self.mines]: for an agent whose marks and sentences are true
    of the board and whose moves hit no mine, a [cell] without a mine and
    [count = nearby_mines(cell)], the marks and sentences of the agent are
    true afterwards, the sentence staged for the loop is true, and no move
    has hit a mine. *)
Theorem add_knowledge_prefix_sound (g : Game) (ms : gset Cell) (ai : AI)
    (cell : Cell) :
  board_agrees g ms →
  height ai = game_height g → width ai = game_width g →
  sound ms ai → moves_made ai ∩ ms = ∅ → cell ∉ ms →
  (∀ c, c ∈ mines ai → ¬ near cell c) →
  let f := add_knowledge_prefix cell (nearby_mines g cell) ai in
  sound ms (agent f)
  ∧ Forall (holds ms) (new_knowledge f)
  ∧ moves_made (agent f) ∩ ms = ∅.
Proof. intros. by apply add_knowledge_prefix_keeps_sound. Qed.

Lemma add_knowledge_prefix_sound_witness :
  let ms : gset Cell := {[ (1, 1) ]} in
  let f := add_knowledge_prefix (0, 0) (nearby_mines board_2x3 (0, 0))
                                (init 2 3) in
  sound ms (agent f)
  ∧ Forall (holds ms) (new_knowledge f)
  ∧ moves_made (agent f) ∩ ms = ∅.
Proof.
  intros ms.
  apply (add_knowledge_prefix_sound board_2x3 ms (init 2 3) (0, 0)).
  - apply board_2x3_agrees.
  - reflexivity.
  - reflexivity.
  - split; [apply empty_subseteq|].
    split; [vm_compute; reflexivity | constructor].
  - vm_compute. reflexivity.
  - by intros [=]%elem_of_singleton.
  - intros c Hc. by apply elem_of_empty in Hc.
Defined.

End MinesweeperMore.

(** * Facts about the Tic-Tac-Toe evaluator *)

Section TicTacToeFacts.
Import TicTacToe.

(** ** Subscripts *)

Lemma py_index_Ok {A} (l : list A) (i : Z) (x : A) :
  py_index l i = Ok x
  ↔ 0 ≤ py_pos (length l) i < Z.of_nat (length l)
    ∧ l !! Z.to_nat (py_pos (length l) i) = Some x.
Proof.
  unfold py_index.
  destruct (Z.ltb_spec (py_pos (length l) i) 0) as [Hlt|Hge]; simpl.
  - split; [done | lia].
  - destruct (Z.leb_spec (Z.of_nat (length l)) (py_pos (length l) i))
      as [Hle|Hlt]; simpl.
    + split; [done | lia].
    + destruct (l !! Z.to_nat (py_pos (length l) i)) as [y|] eqn:Hy.
      * split; [intros [= ->]; split; [lia | done]|].
        by intros [_ [= ->]].
      * split; [done|]. by intros [_ ?].
Qed.

Lemma py_index_fuel {A} (l : list A) (i : Z) : py_index l i ≠ OutOfFuel.
Proof.
  unfold py_index.
  destruct ((py_pos (length l) i <? 0)
            || (Z.of_nat (length l) <=? py_pos (length l) i)); [done|].
  by destruct (l !! Z.to_nat (py_pos (length l) i)).
Qed.

Lemma py_index_Raise {A} (l : list A) (i : Z) (e : exn) :
  py_index l i = Raise e → e = IndexError.
Proof.
  unfold py_index.
  destruct ((py_pos (length l) i <? 0)
            || (Z.of_nat (length l) <=? py_pos (length l) i));
    [by intros [= <-]|].
  destruct (l !! Z.to_nat (py_pos (length l) i)); [done | by intros [= <-]].
Qed.

Lemma get_Ok (board : Board) (i j : Z) (space : Space) :
  get board i j = Ok space
  ↔ ∃ line, py_index board i = Ok line ∧ py_index line j = Ok space.
Proof.
  unfold get. destruct (py_index board i) as [line| |] eqn:Hl; simpl.
  - split; [by exists line|]. by intros (line' & [= <-] & ?).
  - split; [done|]. by intros (? & ? & _).
  - split; [done|]. by intros (? & ? & _).
Qed.

Lemma get_Raise (board : Board) (i j : Z) (e : exn) :
  get board i j = Raise e → e = IndexError.
Proof.
  unfold get. destruct (py_index board i) as [line| |] eqn:Hl; simpl.
  - apply py_index_Raise.
  - intros [= <-]. by apply py_index_Raise in Hl.
  - done.
Qed.

(** [get] reads the space at [action_pos]. *)
Lemma get_space_at (board : Board) (action : Action) (space : Space) :
  get board action.1 action.2 = Ok space →
  space_at board (action_pos board action).1 (action_pos board action).2
  = Some space.
Proof.
  rewrite get_Ok. intros (line & Hl & Hs).
  apply py_index_Ok in Hl, Hs. destruct Hl as [_ Hl], Hs as [_ Hs].
  unfold space_at, action_pos; simpl. rewrite Hl. simpl. done.
Qed.

(** ** [result] *)

Lemma set_space_at (board : Board) (action : Action) (turn : Mark)
    (space : Space) (i j : nat) :
  get board action.1 action.2 = Ok space →
  space_at (set_space board action turn) i j
  = if bool_decide ((i, j) = action_pos board action) then Some (Some turn)
    else space_at board i j.
Proof.
  rewrite get_Ok. intros (line & Hl & Hs).
  apply py_index_Ok in Hl, Hs. destruct Hl as [Hli Hl], Hs as [Hsj Hs].
  unfold set_space, action_pos, space_at. rewrite Hl. simpl.
  set (i0 := Z.to_nat (py_pos (length board) action.1)) in *.
  set (j0 := Z.to_nat (py_pos (length line) action.2)) in *.
  destruct (decide (i = i0)) as [->|Hi].
  - rewrite list_lookup_insert_eq by lia. simpl.
    destruct (decide (j = j0)) as [->|Hj].
    + rewrite bool_decide_eq_true_2 by done.
      apply list_lookup_insert_eq. lia.
    + rewrite bool_decide_eq_false_2 by congruence.
      rewrite list_lookup_insert_ne by done. by rewrite Hl.
  - rewrite bool_decide_eq_false_2 by congruence.
    by rewrite list_lookup_insert_ne.
Qed.

Lemma set_space_lengths (board : Board) (action : Action) (turn : Mark) :
  length <$> set_space board action turn = length <$> board.
Proof.
  unfold set_space.
  destruct (board !! Z.to_nat (py_pos (length board) action.1))
    as [line|] eqn:Hl; [|done].
  rewrite list_fmap_insert, length_insert.
  apply list_insert_id. rewrite list_lookup_fmap, Hl. done.
Qed.

Lemma get_set_space (board : Board) (action : Action) (turn : Mark)
    (space : Space) :
  get board action.1 action.2 = Ok space →
  get (set_space board action turn) action.1 action.2 = Ok (Some turn).
Proof.
  rewrite !get_Ok. intros (line & Hl & Hs).
  apply py_index_Ok in Hl, Hs. destruct Hl as [Hli Hl], Hs as [Hsj Hs].
  exists (<[Z.to_nat (py_pos (length line) action.2) := Some turn]> line).
  unfold set_space. rewrite Hl. split.
  - apply py_index_Ok. rewrite length_insert. split; [done|].
    apply list_lookup_insert_eq. lia.
  - apply py_index_Ok. rewrite length_insert. split; [done|].
    apply list_lookup_insert_eq. lia.
Qed.

(** [result] raises [Exception] on an occupied space and on nothing
    else. *)
Lemma result_Exception (board : Board) (action : Action) :
  result board action = Raise Exception
  ↔ ∃ space, get board action.1 action.2 = Ok space ∧ space ≠ EMPTY.
Proof.
  unfold result.
  destruct (get board action.1 action.2) as [space|e|] eqn:Hg; simpl.
  - case_bool_decide as Hs.
    + split; [by exists space | done].
    + split; [done|]. by intros (space' & [= <-] & ?).
  - split; [|by intros (? & ? & _)].
    intros [= ->]. by apply get_Raise in Hg.
  - split; [done | by intros (? & ? & _)].
Qed.

(** On an empty space [result] returns the board with the mover's mark
    there and nothing else changed. *)
Lemma result_empty (board : Board) (action : Action) :
  get board action.1 action.2 = Ok EMPTY →
  ∃ b', result board action = Ok b'
        ∧ get b' action.1 action.2 = Ok (Some (player board))
        ∧ length <$> b' = length <$> board
        ∧ ∀ i j, (i, j) ≠ action_pos board action →
                 space_at b' i j = space_at board i j.
Proof.
  intros Hg. unfold result. rewrite Hg. simpl.
  eexists. split; [reflexivity|].
  split; [by eapply get_set_space|].
  split; [apply set_space_lengths|].
  intros i j Hne. rewrite (set_space_at _ _ _ _ _ _ Hg).
  by rewrite bool_decide_eq_false_2.
Qed.

(** ** [winner] *)

(** C6 fails on the code. The board [second_row_won] is reached by five
    legal moves, its second row holds three [X], and [winner] returns none
    on it: the empty first row compares equal and ends the search. *)
Theorem winner_misses_second_row :
  play initial_state [(1, 0); (2, 0); (1, 1); (2, 1); (1, 2)]
  = Ok second_row_won
  ∧ get second_row_won 1 0 = Ok (Some X)
  ∧ get second_row_won 1 1 = Ok (Some X)
  ∧ get second_row_won 1 2 = Ok (Some X)
  ∧ winner second_row_won = Ok None.
Proof. repeat split; vm_compute; reflexivity. Qed.

(** The scenario of the specification: a full first row is found. *)
Example winner_first_row :
  winner [[Some X; Some X; Some X]; [Some O; Some O; EMPTY];
          [EMPTY; EMPTY; EMPTY]] = Ok (Some X).
Proof. reflexivity. Qed.

(** ** [actions] *)

Lemma elem_of_enumerate {A} (l : list A) (i : Z) (x : A) :
  (i, x) ∈ enumerate l ↔ 0 ≤ i ∧ l !! Z.to_nat i = Some x.
Proof.
  unfold enumerate. rewrite elem_of_lookup_imap. split.
  - intros (k & y & [= -> ->] & Hy). split; [lia|]. by rewrite Nat2Z.id.
  - intros [Hi Hx]. exists (Z.to_nat i), x. split; [|done].
    f_equal. lia.
Qed.

(** The available actions are the coordinates of the empty spaces. *)
Lemma elem_of_actions (board : Board) (a : Action) :
  a ∈ actions board
  ↔ 0 ≤ a.1 ∧ 0 ≤ a.2
    ∧ space_at board (Z.to_nat a.1) (Z.to_nat a.2) = Some EMPTY.
Proof.
  unfold actions, space_at. rewrite elem_of_list_to_set, list_elem_of_bind.
  destruct a as [i j]; simpl. split.
  - intros ([i' line] & Hin & Hl). simpl in *.
    apply list_elem_of_bind in Hin. destruct Hin as ([j' space] & Hin & Hs).
    simpl in *. apply elem_of_enumerate in Hl, Hs.
    case_bool_decide as He; [|by apply elem_of_nil in Hin].
    apply list_elem_of_singleton in Hin. inversion Hin; subst.
    destruct Hl as [? ->], Hs as [? Hs]. simpl. by rewrite Hs.
  - intros (Hi & Hj & Hs).
    destruct (board !! Z.to_nat i) as [line|] eqn:Hl; [|done]. simpl in Hs.
    exists (i, line). split; [|by apply elem_of_enumerate].
    apply list_elem_of_bind. exists (j, EMPTY). simpl.
    split; [apply list_elem_of_here | by apply elem_of_enumerate].
Qed.

Lemma space_at_get (board : Board) (i j : nat) (space : Space) :
  space_at board i j = Some space →
  get board (Z.of_nat i) (Z.of_nat j) = Ok space
  ∧ action_pos board (Z.of_nat i, Z.of_nat j) = (i, j).
Proof.
  unfold space_at. destruct (board !! i) as [line|] eqn:Hl; [|done].
  simpl. intros Hs.
  pose proof (lookup_lt_Some _ _ _ Hl). pose proof (lookup_lt_Some _ _ _ Hs).
  assert (py_pos (length board) (Z.of_nat i) = Z.of_nat i) as Hpi.
  { unfold py_pos. destruct (Z.ltb_spec (Z.of_nat i) 0); [lia | done]. }
  assert (py_pos (length line) (Z.of_nat j) = Z.of_nat j) as Hpj.
  { unfold py_pos. destruct (Z.ltb_spec (Z.of_nat j) 0); [lia | done]. }
  split.
  - apply get_Ok. exists line. split; apply py_index_Ok.
    + rewrite Hpi, Nat2Z.id. split; [lia | done].
    + rewrite Hpj, Nat2Z.id. split; [lia | done].
  - unfold action_pos. simpl. rewrite Hpi, Nat2Z.id, Hl. simpl.
    by rewrite Hpj, Nat2Z.id.
Qed.

Lemma actions_get (board : Board) (a : Action) :
  a ∈ actions board →
  get board a.1 a.2 = Ok EMPTY
  ∧ action_pos board a = (Z.to_nat a.1, Z.to_nat a.2).
Proof.
  intros (Hi & Hj & Hs)%elem_of_actions.
  apply space_at_get in Hs. rewrite !Z2Nat.id in Hs by done.
  by destruct a.
Qed.

Lemma wf_board_lengths (b b' : Board) :
  length <$> b' = length <$> b → wf_board b → wf_board b'.
Proof.
  intros Hl [Hn Hr]. split.
  - by rewrite <- (length_fmap length b'), Hl, length_fmap.
  - assert (Forall (λ n, n = 3%nat) (length <$> b')) as H
      by (rewrite Hl; by apply Forall_fmap).
    by apply Forall_fmap in H.
Qed.

(** Playing an available action fills exactly that space. *)
Lemma result_actions (board : Board) (a : Action) :
  a ∈ actions board →
  ∃ b', result board a = Ok b'
        ∧ actions b' = actions board ∖ {[a]}
        ∧ (wf_board board → wf_board b').
Proof.
  intros Ha. destruct (actions_get _ _ Ha) as [Hg Hpos].
  destruct (result_empty board a Hg) as (b' & Hr & Hg' & Hlen & Hsame).
  exists b'. split; [done|]. split; [|by apply wf_board_lengths].
  apply elem_of_actions in Ha. destruct Ha as (Hi & Hj & _).
  apply set_eq. intros a'.
  rewrite elem_of_difference, elem_of_singleton, !elem_of_actions.
  destruct (decide (a' = a)) as [->|Hne].
  - split; [|tauto]. intros (_ & _ & Hs).
    apply get_space_at in Hg'.
    assert (action_pos b' a = action_pos board a) as Hp.
    { unfold action_pos.
      assert (length b' = length board) as ->
        by (by rewrite <- (length_fmap length b'), Hlen, length_fmap).
      f_equal. f_equal. f_equal.
      assert (length <$> b' !! Z.to_nat (py_pos (length board) a.1)
              = length <$> board !! Z.to_nat (py_pos (length board) a.1)) as He
        by (by rewrite <- !list_lookup_fmap, Hlen).
      destruct (b' !! _), (board !! _); simpl in *; congruence. }
    rewrite Hp, Hpos in Hg'. simpl in Hg'. rewrite Hs in Hg'. done.
  - assert (0 ≤ a'.1 → 0 ≤ a'.2 →
            (Z.to_nat a'.1, Z.to_nat a'.2) ≠ action_pos board a) as Hp.
    { rewrite Hpos. intros ? ? [= H1 H2]. apply Hne.
      destruct a as [i j], a' as [i' j']; simpl in *. f_equal; lia. }
    split.
    + intros (Hi' & Hj' & Hs). rewrite (Hsame _ _ (Hp Hi' Hj')) in Hs. tauto.
    + intros [(Hi' & Hj' & Hs) _]. rewrite (Hsame _ _ (Hp Hi' Hj')). tauto.
Qed.

(** ** [winner], [terminal] and [utility] on three by three boards *)

Lemma wf_board_inv (board : Board) :
  wf_board board →
  ∃ a b c d e f g h i, board = [[a; b; c]; [d; e; f]; [g; h; i]].
Proof.
  intros [Hn Hr].
  destruct board as [|r0 [|r1 [|r2 [|? ?]]]]; try discriminate.
  apply Forall_cons in Hr as [H0 Hr].
  apply Forall_cons in Hr as [H1 Hr].
  apply Forall_cons in Hr as [H2 _].
  destruct r0 as [|a [|b [|c [|? ?]]]]; try discriminate.
  destruct r1 as [|d [|e [|f [|? ?]]]]; try discriminate.
  destruct r2 as [|g [|h [|i [|? ?]]]]; try discriminate.
  by exists a, b, c, d, e, f, g, h, i.
Qed.

(** The eight comparisons of [winner], in the order the loop makes them. *)
Lemma winner_unfold (a b c d e f g h i : Space) :
  winner [[a; b; c]; [d; e; f]; [g; h; i]]
  = check3 (Ok a) (Ok e) (Ok i) (Ok a)
      (check3 (Ok c) (Ok e) (Ok g) (Ok c)
         (check3 (Ok a) (Ok b) (Ok c) (Ok a)
            (check3 (Ok a) (Ok d) (Ok g) (Ok a)
               (check3 (Ok d) (Ok e) (Ok f) (Ok d)
                  (check3 (Ok b) (Ok e) (Ok h) (Ok b)
                     (check3 (Ok g) (Ok h) (Ok i) (Ok g)
                        (check3 (Ok c) (Ok f) (Ok i) (Ok c) (Ok None)))))))).
Proof. reflexivity. Qed.

Lemma check3_Ok (x y z r : Space) (k : outcome Space) :
  (∃ w, k = Ok w) → ∃ w, check3 (Ok x) (Ok y) (Ok z) (Ok r) k = Ok w.
Proof.
  intros Hk. unfold check3; simpl. repeat case_bool_decide; eauto.
Qed.

Lemma winner_Ok (board : Board) :
  wf_board board → ∃ w, winner board = Ok w.
Proof.
  intros (a & b & c & d & e & f & g & h & i & ->)%wf_board_inv.
  rewrite winner_unfold. repeat apply check3_Ok. eauto.
Qed.

Lemma terminal_Ok (board : Board) :
  wf_board board → ∃ t, terminal board = Ok t.
Proof.
  intros [w Hw]%winner_Ok. unfold terminal. rewrite Hw. simpl.
  case_bool_decide; eauto.
Qed.

Lemma utility_Ok (board : Board) :
  wf_board board → ∃ u, utility board = Ok u ∧ -1 ≤ u ≤ 1.
Proof.
  intros [w Hw]%winner_Ok. unfold utility. rewrite Hw. simpl.
  repeat case_bool_decide; eexists; (split; [done | lia]).
Qed.

Lemma forallb_false_lookup {A} (p : A → bool) (l : list A) :
  forallb p l = false → ∃ i x, l !! i = Some x ∧ p x = false.
Proof.
  induction l as [|x l IH]; simpl; [done|].
  destruct (p x) eqn:Hp; simpl.
  - intros (i & y & Hy & Hpy)%IH. by exists (S i), y.
  - intros _. by exists 0%nat, x.
Qed.

(** A board that is not terminal has an empty space. *)
Lemma terminal_false_actions (board : Board) :
  terminal board = Ok false → ∃ a, a ∈ actions board.
Proof.
  unfold terminal. destruct (winner board) as [w| |]; simpl; try done.
  case_bool_decide; [done|]. intros [= Hf].
  apply forallb_false_lookup in Hf. destruct Hf as (i & line & Hl & Hf).
  apply forallb_false_lookup in Hf. destruct Hf as (j & space & Hs & Hf).
  apply negb_false_iff, bool_decide_eq_true in Hf. subst space.
  exists (Z.of_nat i, Z.of_nat j). apply elem_of_actions. simpl.
  split; [lia|]. split; [lia|].
  unfold space_at. rewrite !Nat2Z.id, Hl. done.
Qed.

(** ** Folding the replies to every action *)

Lemma foldl_not_Ok {A B} (f : outcome A → B → outcome A) (l : list B)
    (x : outcome A) :
  (∀ b, f x b = x) → foldl f x l = x.
Proof. intros Hf. induction l as [|b l IH]; simpl; [done|]. by rewrite Hf. Qed.

Section Replies.
(** The two calls in the body of each loop: [result(board, action)] and
    the value of the board it returns. *)
Variable r : Action → outcome Board.
Variable m : Board → outcome Value.

(** [le x y]: for the player who chooses, [y] is at least as good as
    [x]. *)
Variable le : Z → Z → Prop.
Hypothesis le_refl : ∀ x, le x x.
Hypothesis le_trans : ∀ x y z, le x y → le y z → le x z.

Local Abbreviation reply := (reply r m).

Lemma reply_inj a z z' : reply a z → reply a z' → z = z'.
Proof. intros (b & Hb & Hz) (b' & Hb' & Hz'). congruence. Qed.

(** The loops of [max_value] and [min_value]. *)
Variable pick : Value → Value → Value.
Hypothesis pick_Fin :
  ∀ x y, (pick (Fin x) (Fin y) = Fin x ∧ le y x)
         ∨ (pick (Fin x) (Fin y) = Fin y ∧ le x y).

Local Abbreviation value_step := (value_step r m pick).

Lemma value_step_Ok v a b x :
  r a = Ok b → m b = Ok x → value_step (Ok v) a = Ok (pick v x).
Proof. intros Hb Hm. unfold TicTacToe.value_step. simpl. rewrite Hb. simpl. by rewrite Hm. Qed.

Lemma value_fold_from (l : list Action) (y : Z) :
  (∀ a, a ∈ l → ∃ z, reply a z) →
  ∃ z, foldl value_step (Ok (Fin y)) l = Ok (Fin z)
       ∧ le y z
       ∧ (z = y ∨ ∃ a, a ∈ l ∧ reply a z)
       ∧ ∀ a z', a ∈ l → reply a z' → le z' z.
Proof.
  revert y. induction l as [|a l IH]; intros y Hl; cbn [foldl].
  - exists y. split; [done|]. split; [done|]. split; [by left|].
    by intros a z' ?%elem_of_nil.
  - destruct (Hl a) as (za & Hza); [left|].
    pose proof Hza as (b & Hb & Hm).
    rewrite (value_step_Ok _ _ _ _ Hb Hm).
    destruct (pick_Fin y za) as [[-> Hle]|[-> Hle]].
    + destruct (IH y) as (z & Hz & Hyz & Hwho & Hall).
      { intros a' Ha'. apply Hl. by right. }
      exists z. split; [done|]. split; [done|]. split.
      * destruct Hwho as [->|(a' & Ha' & Hr')]; [by left|].
        right. exists a'. split; [by right | done].
      * intros a' z' [->|Ha']%elem_of_cons Hr'.
        -- rewrite (reply_inj _ _ _ Hr' Hza). eauto.
        -- eauto.
    + destruct (IH za) as (z & Hz & Hyz & Hwho & Hall).
      { intros a' Ha'. apply Hl. by right. }
      exists z. split; [done|]. split; [eauto|]. split.
      * right. destruct Hwho as [->|(a' & Ha' & Hr')].
        -- exists a. split; [left | done].
        -- exists a'. split; [by right | done].
      * intros a' z' [->|Ha']%elem_of_cons Hr'.
        -- by rewrite (reply_inj _ _ _ Hr' Hza).
        -- eauto.
Qed.

(** From the infinite start value the first reply is always taken. *)
Lemma value_fold (v0 : Value) (l : list Action) :
  (∀ y, pick v0 (Fin y) = Fin y) →
  l ≠ [] →
  (∀ a, a ∈ l → ∃ z, reply a z) →
  ∃ z, foldl value_step (Ok v0) l = Ok (Fin z)
       ∧ (∃ a, a ∈ l ∧ reply a z)
       ∧ ∀ a z', a ∈ l → reply a z' → le z' z.
Proof.
  intros Hv0 Hne Hl. destruct l as [|a l]; [done|]. cbn [foldl].
  destruct (Hl a) as (za & Hza); [left|].
  pose proof Hza as (b & Hb & Hm).
  rewrite (value_step_Ok _ _ _ _ Hb Hm).
  rewrite Hv0.
  destruct (value_fold_from l za) as (z & Hz & Hyz & Hwho & Hall).
  { intros a' Ha'. apply Hl. by right. }
  exists z. split; [done|]. split.
  - destruct Hwho as [->|(a' & Ha' & Hr')].
    + exists a. split; [left | done].
    + exists a'. split; [by right | done].
  - intros a' z' [->|Ha']%elem_of_cons Hr'.
    + by rewrite (reply_inj _ _ _ Hr' Hza).
    + eauto.
Qed.

(** The loops of [minimax]: [better value v] is the test that makes
    [action] the new optimal action. *)
Variable better : Value → Value → bool.
Hypothesis better_true : ∀ x y, better (Fin x) (Fin y) = true → le y x.
Hypothesis better_false : ∀ x y, better (Fin x) (Fin y) = false → le x y.

Local Abbreviation best_step := (best_step r m better).

Lemma best_step_Ok ov a b x :
  r a = Ok b → m b = Ok x →
  best_step (Ok ov) a = if better x ov.2 then Ok (Some a, x) else Ok ov.
Proof. intros Hb Hm. unfold TicTacToe.best_step. simpl. rewrite Hb. simpl. by rewrite Hm. Qed.

Lemma best_fold_from (l : list Action) (a0 : Action) (z0 : Z) :
  (∀ a, a ∈ l → ∃ z, reply a z) →
  ∃ a z, foldl best_step (Ok (Some a0, Fin z0)) l = Ok (Some a, Fin z)
         ∧ le z0 z
         ∧ ((a = a0 ∧ z = z0) ∨ (a ∈ l ∧ reply a z))
         ∧ ∀ a' z', a' ∈ l → reply a' z' → le z' z.
Proof.
  revert a0 z0. induction l as [|a l IH]; intros a0 z0 Hl; cbn [foldl].
  - exists a0, z0. split; [done|]. split; [done|]. split; [by left|].
    by intros a z' ?%elem_of_nil.
  - destruct (Hl a) as (za & Hza); [left|].
    pose proof Hza as (b & Hb & Hm).
    rewrite (best_step_Ok _ _ _ _ Hb Hm). simpl.
    destruct (better (Fin za) (Fin z0)) eqn:Hbt.
    + apply better_true in Hbt.
      destruct (IH a za) as (a1 & z & Hz & Hyz & Hwho & Hall).
      { intros a' Ha'. apply Hl. by right. }
      exists a1, z. split; [done|]. split; [eauto|]. split.
      * right. destruct Hwho as [[-> ->]|[Ha1 Hr1]].
        -- split; [left | done].
        -- split; [by right | done].
      * intros a' z' [->|Ha']%elem_of_cons Hr'.
        -- by rewrite (reply_inj _ _ _ Hr' Hza).
        -- eauto.
    + apply better_false in Hbt.
      destruct (IH a0 z0) as (a1 & z & Hz & Hyz & Hwho & Hall).
      { intros a' Ha'. apply Hl. by right. }
      exists a1, z. split; [done|]. split; [done|]. split.
      * destruct Hwho as [[-> ->]|[Ha1 Hr1]]; [by left|].
        right. split; [by right | done].
      * intros a' z' [->|Ha']%elem_of_cons Hr'.
        -- rewrite (reply_inj _ _ _ Hr' Hza). eauto.
        -- eauto.
Qed.

Lemma best_fold (v0 : Value) (l : list Action) :
  (∀ y, better (Fin y) v0 = true) →
  l ≠ [] →
  (∀ a, a ∈ l → ∃ z, reply a z) →
  ∃ a z, foldl best_step (Ok (None, v0)) l = Ok (Some a, Fin z)
         ∧ a ∈ l ∧ reply a z
         ∧ ∀ a' z', a' ∈ l → reply a' z' → le z' z.
Proof.
  intros Hv0 Hne Hl. destruct l as [|a l]; [done|]. cbn [foldl].
  destruct (Hl a) as (za & Hza); [left|].
  pose proof Hza as (b & Hb & Hm).
  rewrite (best_step_Ok _ _ _ _ Hb Hm). simpl.
  rewrite Hv0.
  destruct (best_fold_from l a za) as (a1 & z & Hz & Hyz & Hwho & Hall).
  { intros a' Ha'. apply Hl. by right. }
  exists a1, z. split; [done|]. split; [|split].
  - destruct Hwho as [[-> ->]|[Ha1 Hr1]]; [left | by right].
  - by destruct Hwho as [[-> ->]|[Ha1 Hr1]].
  - intros a' z' [->|Ha']%elem_of_cons Hr'.
    + by rewrite (reply_inj _ _ _ Hr' Hza).
    + eauto.
Qed.
End Replies.

(** ** The search *)

Lemma py_max_Fin (x y : Z) :
  (py_max (Fin x) (Fin y) = Fin x ∧ y ≤ x)
  ∨ (py_max (Fin x) (Fin y) = Fin y ∧ x ≤ y).
Proof.
  unfold py_max; simpl. destruct (Z.ltb_spec x y); [right | left]; split;
    (done || lia).
Qed.

Lemma py_min_Fin (x y : Z) :
  (py_min (Fin x) (Fin y) = Fin x ∧ x ≤ y)
  ∨ (py_min (Fin x) (Fin y) = Fin y ∧ y ≤ x).
Proof.
  unfold py_min; simpl. destruct (Z.ltb_spec y x); [right | left]; split;
    (done || lia).
Qed.

Section SearchFacts.
Variable set_order : gset Action → list Action.
Hypothesis set_order_perm : ∀ s, set_order s ≡ₚ elements s.

Lemma elem_of_set_order (s : gset Action) (a : Action) :
  a ∈ set_order s ↔ a ∈ s.
Proof. rewrite set_order_perm. apply elem_of_elements. Qed.

Lemma set_order_nonempty (s : gset Action) (a : Action) :
  a ∈ s → set_order s ≠ [].
Proof.
  intros Ha%elem_of_set_order Hnil. rewrite Hnil in Ha.
  by apply elem_of_nil in Ha.
Qed.

(** The loops of the search are folds of [value_step] and [best_step]. *)
Lemma max_value_S (fuel : nat) (board : Board) :
  max_value set_order (S fuel) board
  = t ← terminal board;
    if t : bool then u ← utility board; Ok (Fin u)
    else foldl (value_step (result board) (min_value set_order fuel) py_max)
               (Ok NegInf) (set_order (actions board)).
Proof. reflexivity. Qed.

Lemma min_value_S (fuel : nat) (board : Board) :
  min_value set_order (S fuel) board
  = t ← terminal board;
    if t : bool then u ← utility board; Ok (Fin u)
    else foldl (value_step (result board) (max_value set_order fuel) py_min)
               (Ok PosInf) (set_order (actions board)).
Proof. reflexivity. Qed.

(** A reply to an available action is a smaller three by three board. *)
Lemma result_smaller (board : Board) (a : Action) (fuel : nat) :
  wf_board board → (size (actions board) ≤ fuel)%nat → a ∈ actions board →
  ∃ b, result board a = Ok b ∧ wf_board b ∧ (size (actions b) < fuel)%nat.
Proof.
  intros Hwf Hsz Ha.
  destruct (result_actions board a Ha) as (b & Hb & Hact & Hwf').
  exists b. split; [done|]. split; [by apply Hwf'|].
  rewrite Hact, size_difference by (by apply singleton_subseteq_l).
  rewrite size_singleton.
  assert (size (actions board) ≠ 0%nat); [|lia].
  apply size_non_empty_iff. intros He. rewrite He in Ha.
  by apply not_elem_of_empty in Ha.
Qed.

(** With fuel above the number of empty spaces both searches return an
    integer. *)
Lemma values_Fin (fuel : nat) (board : Board) :
  wf_board board → (size (actions board) < fuel)%nat →
  (∃ z, max_value set_order fuel board = Ok (Fin z))
  ∧ (∃ z, min_value set_order fuel board = Ok (Fin z)).
Proof.
  revert board. induction fuel as [|fuel IH]; intros board Hwf Hsz; [lia|].
  rewrite max_value_S, min_value_S.
  destruct (terminal_Ok board Hwf) as [t Ht]. rewrite Ht. simpl.
  destruct t.
  - destruct (utility_Ok board Hwf) as (u & -> & _). simpl. eauto.
  - destruct (terminal_false_actions board Ht) as [a0 Ha0].
    pose proof (set_order_nonempty _ _ Ha0) as Hne.
    split.
    + destruct (value_fold (result board) (min_value set_order fuel) Z.le
                  Z.le_refl Z.le_trans py_max py_max_Fin NegInf
                  (set_order (actions board))) as (z & Hz & _);
        [done | done | | eauto].
      intros a Ha%elem_of_set_order.
      destruct (result_smaller board a fuel) as (b & Hb & Hwfb & Hszb);
        [done | lia | done |].
      destruct (IH b Hwfb Hszb) as [_ [z Hz]]. by exists z, b.
    + destruct (value_fold (result board) (max_value set_order fuel)
                  (fun x y => y ≤ x)) with (pick := py_min) (v0 := PosInf)
                  (l := set_order (actions board)) as (z & Hz & _);
        [lia | lia | | done | done | | eauto].
      * intros x y. destruct (py_min_Fin x y); tauto.
      * intros a Ha%elem_of_set_order.
        destruct (result_smaller board a fuel) as (b & Hb & Hwfb & Hszb);
          [done | lia | done |].
        destruct (IH b Hwfb Hszb) as [[z Hz] _]. by exists z, b.
Qed.

(** Every available action has a reply with an integer value. *)
Lemma replies_Fin (fuel : nat) (board : Board) (a : Action) :
  wf_board board → (size (actions board) ≤ fuel)%nat → a ∈ actions board →
  (∃ z, reply (result board) (min_value set_order fuel) a z)
  ∧ (∃ z, reply (result board) (max_value set_order fuel) a z).
Proof.
  intros Hwf Hsz Ha.
  destruct (result_smaller board a fuel) as (b & Hb & Hwfb & Hszb);
    [done | lia | done |].
  destruct (values_Fin fuel b Hwfb Hszb) as [[z1 Hz1] [z2 Hz2]].
  split; [by exists z2, b | by exists z1, b].
Qed.

(** On a board that is not terminal, [max_value] is the largest value
    [min_value] gives to a reply, and [min_value] the smallest value
    [max_value] gives to one. *)
Lemma max_value_spec (fuel : nat) (board : Board) :
  wf_board board → (size (actions board) ≤ fuel)%nat →
  terminal board = Ok false →
  ∃ z, max_value set_order (S fuel) board = Ok (Fin z)
       ∧ (∃ a, a ∈ actions board
               ∧ reply (result board) (min_value set_order fuel) a z)
       ∧ ∀ a z', a ∈ actions board →
                 reply (result board) (min_value set_order fuel) a z' →
                 z' ≤ z.
Proof.
  intros Hwf Hsz Ht. rewrite max_value_S, Ht. simpl.
  destruct (terminal_false_actions board Ht) as [a0 Ha0].
  destruct (value_fold (result board) (min_value set_order fuel) Z.le
              Z.le_refl Z.le_trans py_max py_max_Fin NegInf
              (set_order (actions board)))
    as (z & Hz & (a & Ha & Hr) & Hall);
    [done | by eapply set_order_nonempty | |].
  - intros a Ha%elem_of_set_order.
    by destruct (replies_Fin fuel board a).
  - exists z. split; [done|]. split.
    + exists a. by rewrite <- elem_of_set_order.
    + intros a' z' Ha'%elem_of_set_order. by apply Hall.
Qed.

Lemma min_value_spec (fuel : nat) (board : Board) :
  wf_board board → (size (actions board) ≤ fuel)%nat →
  terminal board = Ok false →
  ∃ z, min_value set_order (S fuel) board = Ok (Fin z)
       ∧ (∃ a, a ∈ actions board
               ∧ reply (result board) (max_value set_order fuel) a z)
       ∧ ∀ a z', a ∈ actions board →
                 reply (result board) (max_value set_order fuel) a z' →
                 z ≤ z'.
Proof.
  intros Hwf Hsz Ht. rewrite min_value_S, Ht. simpl.
  destruct (terminal_false_actions board Ht) as [a0 Ha0].
  destruct (value_fold (result board) (max_value set_order fuel)
              (fun x y => y ≤ x)) with (pick := py_min) (v0 := PosInf)
              (l := set_order (actions board))
    as (z & Hz & (a & Ha & Hr) & Hall);
    [lia | lia | | done | by eapply set_order_nonempty | |].
  - intros x y. destruct (py_min_Fin x y); tauto.
  - intros a Ha%elem_of_set_order.
    by destruct (replies_Fin fuel board a).
  - exists z. split; [done|]. split.
    + exists a. by rewrite <- elem_of_set_order.
    + intros a' z' Ha'%elem_of_set_order. by apply Hall.
Qed.

(** More fuel never changes a value already returned. *)
Lemma value_fold_mono (r : Action → outcome Board)
    (m m' : Board → outcome Value) (pick : Value → Value → Value)
    (l : list Action) (acc : outcome Value) (v : Value) :
  (∀ b x, m b = Ok x → m' b = Ok x) →
  foldl (value_step r m pick) acc l = Ok v →
  foldl (value_step r m' pick) acc l = Ok v.
Proof.
  intros Hm. revert acc. induction l as [|a l IH]; intros acc; [done|].
  cbn [foldl]. intros Hf.
  destruct (value_step r m pick acc a) as [v1|e|] eqn:Hs.
  - assert (value_step r m' pick acc a = Ok v1) as ->; [|by apply IH].
    unfold value_step in *. destruct acc as [v0| |]; try done. simpl in *.
    destruct (r a) as [b| |]; try done. simpl in *.
    destruct (m b) as [x| |] eqn:Hx; try done.
    by rewrite (Hm _ _ Hx).
  - by rewrite foldl_not_Ok in Hf.
  - by rewrite foldl_not_Ok in Hf.
Qed.

Lemma value_fuel_S (fuel : nat) (board : Board) (v : Value) :
  (max_value set_order fuel board = Ok v →
   max_value set_order (S fuel) board = Ok v)
  ∧ (min_value set_order fuel board = Ok v →
     min_value set_order (S fuel) board = Ok v).
Proof.
  revert board v. induction fuel as [|fuel IH]; intros board v; [done|].
  rewrite (max_value_S (S fuel)), (min_value_S (S fuel)).
  rewrite max_value_S, min_value_S.
  destruct (terminal board) as [[|]| |]; simpl; try done.
  split; apply value_fold_mono; intros b x; apply IH.
Qed.

Lemma value_fuel_le (fuel fuel' : nat) (board : Board) (v : Value) :
  (fuel ≤ fuel')%nat →
  (max_value set_order fuel board = Ok v →
   max_value set_order fuel' board = Ok v)
  ∧ (min_value set_order fuel board = Ok v →
     min_value set_order fuel' board = Ok v).
Proof.
  induction 1 as [|fuel' _ IH]; [done|].
  split; intros Hv; apply value_fuel_S; by apply IH.
Qed.

(** The value of a board does not depend on the fuel, once there is
    enough. *)
Lemma value_fuel_indep (fuel fuel' : nat) (board : Board) :
  wf_board board →
  (size (actions board) < fuel)%nat → (size (actions board) < fuel')%nat →
  max_value set_order fuel board = max_value set_order fuel' board
  ∧ min_value set_order fuel board = min_value set_order fuel' board.
Proof.
  intros Hwf H1 H2.
  destruct (values_Fin (S (size (actions board))) board Hwf)
    as [[z1 Hz1] [z2 Hz2]]; [lia|].
  split.
  - rewrite (proj1 (value_fuel_le _ fuel board _ H1) Hz1).
    by rewrite (proj1 (value_fuel_le _ fuel' board _ H2) Hz1).
  - rewrite (proj2 (value_fuel_le _ fuel board _ H1) Hz2).
    by rewrite (proj2 (value_fuel_le _ fuel' board _ H2) Hz2).
Qed.

Lemma value_terminal (fuel : nat) (board : Board) :
  terminal board = Ok true →
  max_value set_order (S fuel) board = (u ← utility board; Ok (Fin u))
  ∧ min_value set_order (S fuel) board = (u ← utility board; Ok (Fin u)).
Proof. intros Ht. by rewrite max_value_S, min_value_S, Ht. Qed.
End SearchFacts.

(** The values of a terminal board. *)
Lemma value_utility (set_order : gset Action → list Action) (fuel : nat)
    (board : Board) :
  wf_board board → terminal board = Ok true →
  ∃ u, utility board = Ok u
       ∧ max_value set_order (S fuel) board = Ok (Fin u)
       ∧ min_value set_order (S fuel) board = Ok (Fin u).
Proof.
  intros Hwf Ht. destruct (utility_Ok board Hwf) as (u & Hu & _).
  destruct (value_terminal set_order fuel board Ht) as [-> ->].
  exists u. by rewrite Hu.
Qed.

(** C8. On a three by three board, with the recursion depth at least the
    number of empty spaces and whatever the order in which the loops visit
    [actions(board)]: [terminal] returns, [minimax] returns none when the
    board is terminal, and otherwise it returns an available action whose
    reply has the largest [min_value] among all available actions when [X]
    is to move, and the smallest [max_value] when [O] is to move.
    And these values are those of the exhaustive search down to terminal
    boards scored by [utility]: on every three by three board, at every
    sufficient depth, [max_value] and [min_value] return [utility(board)]
    when the board is terminal, and otherwise [max_value] returns the
    largest [min_value], and [min_value] the smallest [max_value], of the
    boards [result] gives for the available actions. *)
Theorem minimax_optimal (set_order : gset Action → list Action)
    (fuel : nat) (board : Board) :
  (∀ s, set_order s ≡ₚ elements s) →
  wf_board board →
  (size (actions board) ≤ fuel)%nat →
  (∃ t, terminal board = Ok t
        ∧ if t : bool then minimax set_order fuel board = Ok None
          else
            ∃ a z,
              minimax set_order fuel board = Ok (Some a)
              ∧ a ∈ actions board
              ∧ match player board with
                | X =>
                  reply (result board) (min_value set_order fuel) a z
                  ∧ ∀ a', a' ∈ actions board →
                      ∃ z', reply (result board) (min_value set_order fuel)
                                  a' z'
                            ∧ z' ≤ z
                | O =>
                  reply (result board) (max_value set_order fuel) a z
                  ∧ ∀ a', a' ∈ actions board →
                      ∃ z', reply (result board) (max_value set_order fuel)
                                  a' z'
                            ∧ z ≤ z'
                end)
  ∧ ∀ (depth : nat) (b : Board),
      wf_board b → (size (actions b) ≤ depth)%nat →
      ∃ t, terminal b = Ok t
           ∧ if t : bool then
               ∃ u, utility b = Ok u
                    ∧ max_value set_order (S depth) b = Ok (Fin u)
                    ∧ min_value set_order (S depth) b = Ok (Fin u)
             else
               (∃ z, max_value set_order (S depth) b = Ok (Fin z)
                     ∧ (∃ a, a ∈ actions b
                             ∧ reply (result b) (min_value set_order depth)
                                     a z)
                     ∧ ∀ a z', a ∈ actions b →
                               reply (result b) (min_value set_order depth)
                                     a z' →
                               z' ≤ z)
               ∧ (∃ z, min_value set_order (S depth) b = Ok (Fin z)
                       ∧ (∃ a, a ∈ actions b
                               ∧ reply (result b) (max_value set_order depth)
                                       a z)
                       ∧ ∀ a z', a ∈ actions b →
                                 reply (result b) (max_value set_order depth)
                                       a z' →
                                 z ≤ z').
Proof.
  intros Hperm Hwf Hsz. split; [|clear board Hwf Hsz; intros depth b Hwf Hsz].
  2: { destruct (terminal_Ok b Hwf) as [[] Ht]; eexists; (split; [exact Ht|]).
       - by apply value_utility.
       - split; [by apply max_value_spec | by apply min_value_spec]. }
  destruct (terminal_Ok board Hwf) as [t Ht]. exists t. split; [done|].
  unfold minimax. rewrite Ht. simpl. destruct t; [done|].
  destruct (terminal_false_actions board Ht) as [a0 Ha0].
  pose proof (set_order_nonempty set_order Hperm _ _ Ha0) as Hne.
  destruct (player board) eqn:Hp; simpl.
  - destruct (best_fold (result board) (min_value set_order fuel) Z.le
                Z.le_refl Z.le_trans (fun value v => value_lt v value))
      with (v0 := NegInf) (l := set_order (actions board))
      as (a & z & Hf & Ha & Hr & Hall).
    + intros x y Hlt%Z.ltb_lt. lia.
    + intros x y Hlt%Z.ltb_ge. lia.
    + done.
    + done.
    + intros a Ha%(elem_of_set_order set_order Hperm).
      by destruct (replies_Fin set_order Hperm fuel board a).
    + exists a, z.
      change (best_for_x set_order fuel board)
        with (best_step (result board) (min_value set_order fuel)
                (fun value v => value_lt v value)).
      rewrite Hf. simpl. split; [done|].
      split; [by apply (elem_of_set_order set_order Hperm)|].
      split; [done|]. intros a' Ha'.
      destruct (replies_Fin set_order Hperm fuel board a') as [[z' Hz'] _];
        [done..|].
      exists z'. split; [done|].
      apply (Hall a'); [by apply (elem_of_set_order set_order Hperm) | done].
  - destruct (best_fold (result board) (max_value set_order fuel)
                (fun x y => y ≤ x)) with
        (better := fun value v => value_lt value v)
        (v0 := PosInf) (l := set_order (actions board))
      as (a & z & Hf & Ha & Hr & Hall).
    + lia.
    + lia.
    + intros x y Hlt%Z.ltb_lt. lia.
    + intros x y Hlt%Z.ltb_ge. lia.
    + done.
    + done.
    + intros a Ha%(elem_of_set_order set_order Hperm).
      by destruct (replies_Fin set_order Hperm fuel board a).
    + exists a, z.
      change (best_for_o set_order fuel board)
        with (best_step (result board) (max_value set_order fuel)
                (fun value v => value_lt value v)).
      rewrite Hf. simpl. split; [done|].
      split; [by apply (elem_of_set_order set_order Hperm)|].
      split; [done|]. intros a' Ha'.
      destruct (replies_Fin set_order Hperm fuel board a') as [_ [z' Hz']];
        [done..|].
      exists z'. split; [done|].
      apply (Hall a'); [by apply (elem_of_set_order set_order Hperm) | done].
Qed.

(** ** [result] on a store of list objects *)

Section HeapFacts.
Import Heap.

Lemma fresh_lookup (h : heap) : h !! fresh (dom h) = None.
Proof. apply not_elem_of_dom, is_fresh. Qed.

Lemma foldl_copy_row_None (rows : list loc) :
  foldl copy_row None rows = None.
Proof. by induction rows. Qed.

(** Copying a row only adds a new object; the copies it hands out are
    new. *)
Lemma copy_row_frame (h hi hi' : heap) (memo memo' : gmap loc loc)
    (ys ys' : list loc) (a : loc) :
  copy_row (Some (hi, memo, ys)) a = Some (hi', memo', ys') →
  h ⊆ hi →
  (∀ a y, memo !! a = Some y → h !! y = None) →
  (∀ y, y ∈ ys → h !! y = None) →
  h ⊆ hi'
  ∧ (∀ a y, memo' !! a = Some y → h !! y = None)
  ∧ (∀ y, y ∈ ys' → h !! y = None).
Proof.
  intros Hc Hsub Hmemo Hys. unfold copy_row in Hc. simpl in Hc.
  destruct (memo !! a) as [y|] eqn:Hm.
  - injection Hc as <- <- <-. split; [done|]. split; [done|].
    intros y' [Hy'| ->%list_elem_of_singleton]%elem_of_app; eauto.
  - destruct (hi !! a) as [[spaces|rows]|] eqn:Ha; try done.
    simpl in Hc. injection Hc as <- <- <-.
    assert (h !! fresh (dom hi) = None) as Hfr
      by (eapply lookup_weaken_None; [apply fresh_lookup | done]).
    split; [by apply insert_subseteq_r|]. split.
    + intros a' y' [[-> <-]|[_ Hy']]%lookup_insert_Some; eauto.
    + intros y' [Hy'| ->%list_elem_of_singleton]%elem_of_app; eauto.
Qed.

Lemma foldl_copy_row_frame (h : heap) (rows : list loc) (hi hi' : heap)
    (memo memo' : gmap loc loc) (ys ys' : list loc) :
  foldl copy_row (Some (hi, memo, ys)) rows = Some (hi', memo', ys') →
  h ⊆ hi →
  (∀ a y, memo !! a = Some y → h !! y = None) →
  (∀ y, y ∈ ys → h !! y = None) →
  h ⊆ hi' ∧ (∀ y, y ∈ ys' → h !! y = None).
Proof.
  revert hi memo ys.
  induction rows as [|a rows IH]; intros hi memo ys; cbn [foldl].
  - intros [= <- <- <-]. done.
  - destruct (copy_row (Some (hi, memo, ys)) a) as [[[hj memoj] ysj]|] eqn:Hc;
      [|by rewrite foldl_copy_row_None].
    intros Hf Hsub Hmemo Hys.
    destruct (copy_row_frame h _ _ _ _ _ _ _ Hc Hsub Hmemo Hys)
      as (Hsub' & Hmemo' & Hys').
    by eapply IH.
Qed.

(** [deepcopy] changes no object of the store it starts from and returns
    a new outer list of new rows. *)
Lemma deepcopy_frame (h h1 : heap) (board y : loc) :
  deepcopy h board = Some (h1, y) →
  h ⊆ h1 ∧ h !! y = None
  ∧ ∃ ys, h1 !! y = Some (OBoard ys) ∧ ∀ l, l ∈ ys → h !! l = None.
Proof.
  unfold deepcopy. destruct (h !! board) as [[spaces|rows]|] eqn:Hb; try done.
  simpl.
  destruct (foldl copy_row
              (Some (<[fresh (dom h) := OBoard []]> h,
                     {[board := fresh (dom h)]}, [])) rows)
    as [[[hj memoj] ysj]|] eqn:Hf; [|done].
  simpl. intros [= <- <-].
  pose proof (fresh_lookup h) as Hfr.
  destruct (foldl_copy_row_frame h _ _ _ _ _ _ _ Hf) as [Hsub Hys].
  - by apply insert_subseteq.
  - by intros a y [_ <-]%lookup_singleton_Some.
  - by intros y ?%elem_of_nil.
  - split; [by apply insert_subseteq_r|]. split; [done|].
    exists ysj. split; [apply lookup_insert_eq | done].
Qed.

(** Whatever its outcome, [result] changes no object that was in the
    store before the call. *)
Lemma result_frame (h h' : heap) (board : loc) (action : Action)
    (out : outcome loc) :
  result h board action = Some (h', out) → h ⊆ h'.
Proof.
  unfold result.
  destruct (deepcopy h board) as [[h1 y]|] eqn:Hd; [|done]. simpl.
  destruct (deepcopy_frame _ _ _ _ Hd) as (Hsub & Hy & ys & Hys & Hfresh).
  unfold read_rows. rewrite Hys. simpl.
  destruct (py_index ys action.1) as [line|e|] eqn:Hl; [| |done].
  - destruct (read_row h1 line) as [spaces|]; [|done]. simpl.
    destruct (py_index spaces action.2) as [space|e|]; [| |done].
    + case_bool_decide; [by intros [= <- _]|].
      destruct (read_board h1 y) as [b|]; [|done]. simpl.
      intros [= <- _]. apply insert_subseteq_r; [|done].
      apply Hfresh. apply py_index_Ok in Hl.
      by eapply list_elem_of_lookup_2, Hl.
    + by intros [= <- _].
  - by intros [= <- _].
Qed.

Lemma read_row_Some (h : heap) (a : loc) (spaces : list Space) :
  read_row h a = Some spaces ↔ h !! a = Some (ORow spaces).
Proof.
  unfold read_row. destruct (h !! a) as [[sp|rows]|]; split; congruence.
Qed.

Lemma read_rows_Some (h : heap) (a : loc) (rows : list loc) :
  read_rows h a = Some rows ↔ h !! a = Some (OBoard rows).
Proof.
  unfold read_rows. destruct (h !! a) as [[sp|rs]|]; split; congruence.
Qed.

Lemma read_row_weaken (h h' : heap) (a : loc) (spaces : list Space) :
  h ⊆ h' → read_row h a = Some spaces → read_row h' a = Some spaces.
Proof.
  rewrite !read_row_Some. intros Hsub Ha. by eapply lookup_weaken.
Qed.

Lemma read_board_Some (h : heap) (board : loc) (b : Board) :
  read_board h board = Some b
  ↔ ∃ rows, h !! board = Some (OBoard rows)
            ∧ Forall2 (fun a spaces => read_row h a = Some spaces) rows b.
Proof.
  unfold read_board. split.
  - destruct (read_rows h board) as [rows|] eqn:Hr; [|done]. simpl.
    intros Hm%mapM_Some. exists rows. by apply read_rows_Some in Hr.
  - intros (rows & Hr%read_rows_Some & Hm). rewrite Hr. simpl.
    by apply mapM_Some.
Qed.

Lemma read_board_weaken (h h' : heap) (board : loc) (b : Board) :
  h ⊆ h' → read_board h board = Some b → read_board h' board = Some b.
Proof.
  rewrite !read_board_Some. intros Hsub (rows & Hr & Hm).
  exists rows. split; [by eapply lookup_weaken|].
  eapply Forall2_impl; [done|]. intros a sp. by apply read_row_weaken.
Qed.

(** Copying a readable row appends a row with the same spaces. *)
Lemma copy_row_reads (h hi : heap) (memo : gmap loc loc) (ys : list loc)
    (bp : Board) (a : loc) (spaces : list Space) :
  read_row h a = Some spaces →
  h ⊆ hi →
  (∀ a' y sp, memo !! a' = Some y → read_row h a' = Some sp →
              read_row hi y = Some sp) →
  Forall2 (fun y sp => read_row hi y = Some sp) ys bp →
  ∃ hi' memo' y,
    copy_row (Some (hi, memo, ys)) a = Some (hi', memo', ys ++ [y])
    ∧ hi ⊆ hi'
    ∧ (∀ a' y sp, memo' !! a' = Some y → read_row h a' = Some sp →
                  read_row hi' y = Some sp)
    ∧ Forall2 (fun y sp => read_row hi' y = Some sp)
              (ys ++ [y]) (bp ++ [spaces]).
Proof.
  intros Ha Hsub Hmemo Hys. unfold copy_row. simpl.
  destruct (memo !! a) as [y|] eqn:Hm.
  - exists hi, memo, y. split; [done|]. split; [done|]. split; [done|].
    apply Forall2_app; [done|]. constructor; [eauto | constructor].
  - pose proof (read_row_weaken _ _ _ _ Hsub Ha) as Ha'.
    apply read_row_Some in Ha'. rewrite Ha'. simpl.
    pose proof (insert_subseteq hi (fresh (dom hi)) (ORow spaces)
                  (fresh_lookup hi)) as Hsub'.
    eexists _, _, _. split; [done|]. split; [done|]. split.
    + intros a' y sp [[<- <-]|[_ Hy]]%lookup_insert_Some Hr.
      * rewrite Ha in Hr. injection Hr as <-.
        apply read_row_Some, lookup_insert_eq.
      * eapply read_row_weaken; eauto.
    + apply Forall2_app.
      * eapply Forall2_impl; [done|]. intros y sp.
        by apply read_row_weaken.
      * constructor; [|constructor].
        apply read_row_Some, lookup_insert_eq.
Qed.

Lemma foldl_copy_row_reads (h : heap) (rows : list loc) (bs : Board) :
  Forall2 (fun a sp => read_row h a = Some sp) rows bs →
  ∀ (hi : heap) (memo : gmap loc loc) (ys : list loc) (bp : Board),
    h ⊆ hi →
    (∀ a' y sp, memo !! a' = Some y → read_row h a' = Some sp →
                read_row hi y = Some sp) →
    Forall2 (fun y sp => read_row hi y = Some sp) ys bp →
    ∃ hi' memo' ys',
      foldl copy_row (Some (hi, memo, ys)) rows = Some (hi', memo', ys')
      ∧ hi ⊆ hi'
      ∧ Forall2 (fun y sp => read_row hi' y = Some sp) ys' (bp ++ bs).
Proof.
  induction 1 as [|a sp rows bs Ha _ IH]; intros hi memo ys bp Hsub Hmemo Hys.
  - exists hi, memo, ys. rewrite app_nil_r. done.
  - destruct (copy_row_reads h hi memo ys bp a sp Ha Hsub Hmemo Hys)
      as (hj & memoj & y & Hc & Hsubj & Hmemoj & Hysj).
    cbn [foldl]. rewrite Hc.
    destruct (IH hj memoj (ys ++ [y]) (bp ++ [sp]))
      as (hk & memok & ysk & Hf & Hsubk & Hysk);
      [by etrans | done | done |].
    exists hk, memok, ysk. split; [done|]. split; [by etrans|].
    by rewrite <- app_assoc in Hysk.
Qed.

(** [deepcopy] of a board returns a store in which the copy reads as the
    same board. *)
Lemma deepcopy_reads (h : heap) (board : loc) (b : Board) :
  read_board h board = Some b →
  ∃ h1 y ys,
    deepcopy h board = Some (h1, y)
    ∧ h1 !! y = Some (OBoard ys)
    ∧ Forall2 (fun l sp => read_row h1 l = Some sp) ys b.
Proof.
  intros (rows & Hb & Hrows)%read_board_Some.
  unfold deepcopy. rewrite Hb. simpl.
  pose proof (fresh_lookup h) as Hfr.
  destruct (foldl_copy_row_reads h rows b Hrows
              (<[fresh (dom h) := OBoard []]> h)
              {[board := fresh (dom h)]} [] [])
    as (hj & memoj & ysj & Hf & Hsub & Hys).
  - by apply insert_subseteq.
  - intros a y sp [<- _]%lookup_singleton_Some Hr%read_row_Some. congruence.
  - constructor.
  - rewrite Hf. simpl. eexists _, _, ysj. split; [done|].
    split; [apply lookup_insert_eq|].
    eapply Forall2_impl; [done|]. intros l sp Hl%read_row_Some.
    apply read_row_Some. rewrite lookup_insert_ne; [done|].
    intros <-.
    assert (hj !! fresh (dom h) = Some (OBoard [])) as Hy0
      by (eapply lookup_weaken; [apply lookup_insert_eq | done]).
    congruence.
Qed.

Lemma py_index_Forall2 {A B} (R : A → B → Prop) (l : list A) (k : list B)
    (i : Z) (y : B) :
  Forall2 R l k → py_index k i = Ok y →
  ∃ x, py_index l i = Ok x ∧ R x y.
Proof.
  intros HR [Hi Hy]%py_index_Ok.
  pose proof (Forall2_length _ _ _ HR) as Hlen.
  destruct (Forall2_lookup_r _ _ _ _ _ HR Hy) as (x & Hx & Hxy).
  exists x. split; [|done]. apply py_index_Ok. rewrite Hlen. done.
Qed.

(** C10. When the space [action] addresses on the board at [board] is
    empty, [result] returns a new outer list whose rows are all new
    objects, every object that was in the store before the call --
    the argument board and its rows among them -- is left as it was, and
    the argument still reads as the same board. *)
Theorem result_keeps_argument (h : heap) (board : loc) (b : Board)
    (action : Action) :
  read_board h board = Some b →
  get b action.1 action.2 = Ok EMPTY →
  ∃ h' y ys,
    result h board action = Some (h', Ok y)
    ∧ (∀ l o, h !! l = Some o → h' !! l = Some o)
    ∧ read_board h' board = Some b
    ∧ h !! y = None
    ∧ h' !! y = Some (OBoard ys)
    ∧ ∀ l, l ∈ ys → h !! l = None.
Proof.
  intros Hb (line_b & Hline & Hspace)%get_Ok.
  destruct (deepcopy_reads h board b Hb) as (h1 & y & ys & Hd & Hy & Hrows).
  destruct (deepcopy_frame _ _ _ _ Hd)
    as (Hsub & Hyfresh & ys' & Hy' & Hfresh).
  rewrite Hy in Hy'. injection Hy' as <-.
  destruct (py_index_Forall2 _ _ _ _ _ Hrows Hline) as (line & Hl & Hrow).
  assert (line ∈ ys) as Hin.
  { apply py_index_Ok in Hl. by eapply list_elem_of_lookup_2, Hl. }
  assert (read_board h1 y = Some b) as Hb1
    by (apply read_board_Some; by exists ys).
  unfold result. rewrite Hd. simpl.
  unfold read_rows. rewrite Hy. simpl. rewrite Hl, Hrow. simpl.
  rewrite Hspace, Hb1. simpl.
  assert (h ⊆ <[line := ORow (<[Z.to_nat (py_pos (length line_b) action.2)
                                 := Some (player b)]> line_b)]> h1) as Hsub'
    by (apply insert_subseteq_r; [by apply Hfresh | done]).
  eexists _, y, ys. split; [done|].
  split; [intros l o Hlo; by eapply lookup_weaken|].
  split; [by eapply read_board_weaken|].
  split; [done|]. split; [|done].
  rewrite lookup_insert_ne; [done|].
  intros ->. apply read_row_Some in Hrow. congruence.
Qed.

Lemma result_keeps_argument_witness :
  ∃ h' y ys,
    result initial_heap 1%positive (1, 1) = Some (h', Ok y)
    ∧ (∀ l o, initial_heap !! l = Some o → h' !! l = Some o)
    ∧ read_board h' 1%positive = Some initial_state
    ∧ initial_heap !! y = None
    ∧ h' !! y = Some (OBoard ys)
    ∧ ∀ l, l ∈ ys → initial_heap !! l = None.
Proof.
  apply (result_keeps_argument initial_heap 1%positive initial_state (1, 1)).
  - vm_compute. reflexivity.
  - reflexivity.
Defined.

(** *** Agreement with [result] on board values *)

(** Distinct rows are copied to distinct new rows. *)
Lemma foldl_copy_row_NoDup (rows : list loc) :
  NoDup rows →
  ∀ (hi hi' : heap) (memo memo' : gmap loc loc) (ys ys' : list loc),
    (∀ a, a ∈ rows → memo !! a = None) →
    (∀ y, y ∈ ys → is_Some (hi !! y)) →
    NoDup ys →
    foldl copy_row (Some (hi, memo, ys)) rows = Some (hi', memo', ys') →
    NoDup ys'.
Proof.
  induction 1 as [|a rows Ha _ IH]; intros hi hi' memo memo' ys ys'.
  - by intros _ _ Hnd [= <- <- <-].
  - intros Hmemo Hys Hnd. cbn [foldl]. unfold copy_row at 2. simpl.
    rewrite (Hmemo a) by left.
    destruct (hi !! a) as [[spaces|rs]|] eqn:Hia;
      try (by rewrite foldl_copy_row_None).
    simpl. apply IH.
    + intros a' Ha'. rewrite lookup_insert_ne; [apply Hmemo; by right|].
      by intros <-.
    + intros y [Hy| ->%list_elem_of_singleton]%elem_of_app.
      * apply lookup_insert_is_Some'. right. by apply Hys.
      * apply lookup_insert_is_Some'. by left.
    + apply NoDup_app. split; [done|]. split; [|apply NoDup_singleton].
      intros y Hy ->%list_elem_of_singleton.
      apply Hys in Hy. rewrite fresh_lookup in Hy. by destruct Hy.
Qed.

Lemma deepcopy_NoDup (h h1 : heap) (board y : loc) (b : Board)
    (rows ys : list loc) :
  read_board h board = Some b →
  h !! board = Some (OBoard rows) → NoDup rows →
  deepcopy h board = Some (h1, y) → h1 !! y = Some (OBoard ys) →
  NoDup ys.
Proof.
  intros (rows' & Hb & Hrows)%read_board_Some Hb' Hnd.
  rewrite Hb in Hb'. injection Hb' as ->.
  unfold deepcopy. rewrite Hb. simpl.
  destruct (foldl copy_row
              (Some (<[fresh (dom h) := OBoard []]> h,
                     {[board := fresh (dom h)]}, [])) rows)
    as [[[hj memoj] ysj]|] eqn:Hf; [|done].
  simpl. intros [= <- <-]. rewrite lookup_insert_eq. intros [= <-].
  eapply (foldl_copy_row_NoDup rows Hnd); [| | |exact Hf].
  - intros a Ha. apply lookup_singleton_None. intros <-.
    apply list_elem_of_lookup in Ha. destruct Ha as [i Hi].
    destruct (Forall2_lookup_l _ _ _ _ _ Hrows Hi) as (sp & _ & Hr).
    apply read_row_Some in Hr. congruence.
  - by intros y ?%elem_of_nil.
  - apply NoDup_nil_2.
Qed.

(** On a board whose rows are distinct objects, [result] on the store does
    what [result] on board values does: the same exception, or a reference
    that reads as the board the latter returns. *)
Lemma result_refines (h : heap) (board : loc) (b : Board) (rows : list loc)
    (action : Action) :
  read_board h board = Some b →
  h !! board = Some (OBoard rows) → NoDup rows →
  match TicTacToe.result b action with
  | Ok b' => ∃ h' y, result h board action = Some (h', Ok y)
                     ∧ read_board h' y = Some b'
  | Raise e => ∃ h', result h board action = Some (h', Raise e)
  | OutOfFuel => False
  end.
Proof.
  intros Hb Hrows Hnd.
  destruct (deepcopy_reads h board b Hb) as (h1 & y & ys & Hd & Hy & Hys).
  pose proof (deepcopy_NoDup _ _ _ _ _ _ _ Hb Hrows Hnd Hd Hy) as Hndy.
  pose proof (Forall2_length _ _ _ Hys) as Hlen.
  unfold TicTacToe.result, result, get. rewrite Hd. simpl.
  unfold read_rows. rewrite Hy. simpl.
  destruct (py_index b action.1) as [line_b|e|] eqn:Hline; simpl.
  - destruct (py_index_Forall2 _ _ _ _ _ Hys Hline) as (line & Hl & Hrow).
    rewrite Hl, Hrow. simpl.
    destruct (py_index line_b action.2) as [space|e|] eqn:Hspace; simpl.
    + case_bool_decide as Hsp; [by eexists|].
      assert (read_board h1 y = Some b) as ->
        by (apply read_board_Some; by exists ys).
      simpl. eexists _, y. split; [done|].
      apply read_board_Some. exists ys.
      apply py_index_Ok in Hl, Hline.
      destruct Hl as [Hib Hl], Hline as [_ Hline]. rewrite Hlen in Hl.
      assert (line ≠ y) as Hne
        by (intros ->; apply read_row_Some in Hrow; congruence).
      split; [by rewrite lookup_insert_ne|].
      unfold set_space. rewrite Hline.
      apply Forall2_same_length_lookup. split; [by rewrite length_insert|].
      intros k l sp Hk Hsp'.
      apply list_lookup_insert_Some in Hsp'.
      destruct Hsp' as [(<- & <- & _)|[Hki Hsp']].
      * assert (l = line) as -> by congruence.
        apply read_row_Some, lookup_insert_eq.
      * assert (l ≠ line) as Hll.
        { intros ->. apply Hki. symmetry.
          by eapply (NoDup_lookup ys). }
        apply read_row_Some. rewrite lookup_insert_ne by done.
        apply read_row_Some.
        by destruct (Forall2_lookup_lr _ _ _ _ _ _ Hys Hk Hsp').
    + by eexists.
    + by apply py_index_fuel in Hspace.
  - assert (py_index ys action.1 = Raise e) as ->; [|by eexists].
    revert Hline. unfold py_index. rewrite Hlen.
    destruct ((py_pos (length b) action.1 <? 0)
              || (Z.of_nat (length b) <=? py_pos (length b) action.1))
      eqn:Hrange; [by intros [= <-]|].
    apply orb_false_iff in Hrange. destruct Hrange as [H1 H2].
    apply Z.ltb_ge in H1. apply Z.leb_gt in H2.
    destruct (b !! Z.to_nat (py_pos (length b) action.1)) eqn:Hbi; [done|].
    apply lookup_ge_None in Hbi. lia.
  - by apply py_index_fuel in Hline.
Qed.

(** Shared rows or not, [result] on the store returns where [result] on
    the board read from it returns, and raises what it raises. *)
Lemma result_outcome (h : heap) (board : loc) (b : Board)
    (action : Action) :
  read_board h board = Some b →
  match TicTacToe.result b action with
  | Ok _ => ∃ h' y, result h board action = Some (h', Ok y)
  | Raise e => ∃ h', result h board action = Some (h', Raise e)
  | OutOfFuel => False
  end.
Proof.
  intros Hb.
  destruct (deepcopy_reads h board b Hb) as (h1 & y & ys & Hd & Hy & Hys).
  pose proof (Forall2_length _ _ _ Hys) as Hlen.
  unfold TicTacToe.result, result, get. rewrite Hd. simpl.
  unfold read_rows. rewrite Hy. simpl.
  destruct (py_index b action.1) as [line_b|e|] eqn:Hline; simpl.
  - destruct (py_index_Forall2 _ _ _ _ _ Hys Hline) as (line & Hl & Hrow).
    rewrite Hl, Hrow. simpl.
    destruct (py_index line_b action.2) as [space|e|] eqn:Hspace; simpl.
    + case_bool_decide as Hsp; [by eexists|].
      assert (read_board h1 y = Some b) as ->
        by (apply read_board_Some; by exists ys).
      simpl. by eexists _, y.
    + by eexists.
    + by apply py_index_fuel in Hspace.
  - assert (py_index ys action.1 = Raise e) as ->; [|by eexists].
    revert Hline. unfold py_index. rewrite Hlen.
    destruct ((py_pos (length b) action.1 <? 0)
              || (Z.of_nat (length b) <=? py_pos (length b) action.1))
      eqn:Hrange; [by intros [= <-]|].
    apply orb_false_iff in Hrange. destruct Hrange as [H1 H2].
    apply Z.ltb_ge in H1. apply Z.leb_gt in H2.
    destruct (b !! Z.to_nat (py_pos (length b) action.1)) eqn:Hbi; [done|].
    apply lookup_ge_None in Hbi. lia.
  - by apply py_index_fuel in Hline.
Qed.

(** On a board whose three rows are one row object, [result] at the centre
    marks the middle space of every row. *)
Lemma shared_rows_result :
  match result shared_rows_heap 1%positive (1, 1) with
  | Some (h', Ok y) =>
    read_board h' y = Some [[EMPTY; Some X; EMPTY]; [EMPTY; Some X; EMPTY];
                            [EMPTY; Some X; EMPTY]]
  | _ => False
  end.
Proof. vm_compute. reflexivity. Qed.

(** C7, as stated, fails: "for every board" takes in a board whose rows are
    one and the same list object.  Such a board reads as the empty board,
    and [result] at the centre returns a board that differs from it in the
    middle space of all three rows, not only in the space of the action:
    [copy.deepcopy] copies the shared row once. *)
Lemma result_marks_shared_rows :
  ¬ (∀ (h : heap) (board : loc) (b : Board) (action : Action),
       read_board h board = Some b →
       get b action.1 action.2 = Ok EMPTY →
       ∃ h' y b',
         result h board action = Some (h', Ok y)
         ∧ read_board h' y = Some b'
         ∧ get b' action.1 action.2 = Ok (Some (player b))
         ∧ ∀ i j, (i, j) ≠ action_pos b action →
                  space_at b' i j = space_at b i j).
Proof.
  intros H.
  destruct (H shared_rows_heap 1%positive initial_state (1, 1)
              eq_refl eq_refl) as (h' & y & b' & Hr & Hb' & _ & Hsame).
  pose proof shared_rows_result as Hc. rewrite Hr in Hc.
  rewrite Hb' in Hc. injection Hc as ->.
  by specialize (Hsame 0%nat 1%nat ltac:(done)).
Qed.

(** C7 (amended). For a board in the store and every action: [result]
    raises the invalid-move exception exactly when the space [action]
    addresses holds a mark; and when that space is empty and the rows of
    the board are distinct list objects, it returns a board of the same
    shape that holds the mark of [player(board)] there and agrees with the
    argument in every other space. *)
Theorem result_spec (h : heap) (board : loc) (b : Board) (rows : list loc)
    (action : Action) :
  read_board h board = Some b →
  h !! board = Some (OBoard rows) →
  ((∃ h', result h board action = Some (h', Raise Exception))
   ↔ ∃ space, get b action.1 action.2 = Ok space ∧ space ≠ EMPTY)
  ∧ (NoDup rows →
     get b action.1 action.2 = Ok EMPTY →
     ∃ h' y b',
       result h board action = Some (h', Ok y)
       ∧ read_board h' y = Some b'
       ∧ get b' action.1 action.2 = Ok (Some (player b))
       ∧ length <$> b' = length <$> b
       ∧ ∀ i j, (i, j) ≠ action_pos b action →
                space_at b' i j = space_at b i j).
Proof.
  intros Hb Hrows. split; [split|].
  - intros [h' Hr]. apply result_Exception.
    pose proof (result_outcome h board b action Hb) as Ho.
    destruct (TicTacToe.result b action) as [b'|e|]; [| |done].
    + destruct Ho as (h'' & y & Ho). congruence.
    + destruct Ho as (h'' & Ho). congruence.
  - intros Hocc%result_Exception.
    pose proof (result_outcome h board b action Hb) as Ho.
    by rewrite Hocc in Ho.
  - intros Hnd Hg.
    destruct (result_empty b action Hg) as (b' & Hv & Hmark & Hlen & Hsame).
    pose proof (result_refines h board b rows action Hb Hrows Hnd) as Ho.
    rewrite Hv in Ho. destruct Ho as (h' & y & Hr & Hread).
    by exists h', y, b'.
Qed.

Lemma result_spec_witness :
  ∃ h' y b',
    result initial_heap 1%positive (1, 1) = Some (h', Ok y)
    ∧ read_board h' y = Some b'
    ∧ get b' 1 1 = Ok (Some (player initial_state))
    ∧ length <$> b' = length <$> initial_state
    ∧ ∀ i j, (i, j) ≠ action_pos initial_state (1, 1) →
             space_at b' i j = space_at initial_state i j.
Proof.
  apply (result_spec initial_heap 1%positive initial_state
           [2%positive; 3%positive; 4%positive] (1, 1)).
  - vm_compute. reflexivity.
  - vm_compute. reflexivity.
  - apply (bool_decide_unpack _). vm_compute. exact I.
  - reflexivity.
Defined.
End HeapFacts.

Lemma minimax_optimal_witness :
  (∃ t, terminal initial_state = Ok t
        ∧ if t : bool then minimax elements 9 initial_state = Ok None
          else
            ∃ a z,
              minimax elements 9 initial_state = Ok (Some a)
              ∧ a ∈ actions initial_state
              ∧ match player initial_state with
                | X =>
                  reply (result initial_state) (min_value elements 9) a z
                  ∧ ∀ a', a' ∈ actions initial_state →
                      ∃ z', reply (result initial_state)
                                  (min_value elements 9) a' z'
                            ∧ z' ≤ z
                | O =>
                  reply (result initial_state) (max_value elements 9) a z
                  ∧ ∀ a', a' ∈ actions initial_state →
                      ∃ z', reply (result initial_state)
                                  (max_value elements 9) a' z'
                            ∧ z ≤ z'
                end)
  ∧ ∀ (depth : nat) (b : Board),
      wf_board b → (size (actions b) ≤ depth)%nat →
      ∃ t, terminal b = Ok t
           ∧ if t : bool then
               ∃ u, utility b = Ok u
                    ∧ max_value elements (S depth) b = Ok (Fin u)
                    ∧ min_value elements (S depth) b = Ok (Fin u)
             else
               (∃ z, max_value elements (S depth) b = Ok (Fin z)
                     ∧ (∃ a, a ∈ actions b
                             ∧ reply (result b) (min_value elements depth)
                                     a z)
                     ∧ ∀ a z', a ∈ actions b →
                               reply (result b) (min_value elements depth)
                                     a z' →
                               z' ≤ z)
               ∧ (∃ z, min_value elements (S depth) b = Ok (Fin z)
                       ∧ (∃ a, a ∈ actions b
                               ∧ reply (result b) (max_value elements depth)
                                       a z)
                       ∧ ∀ a z', a ∈ actions b →
                                 reply (result b) (max_value elements depth)
                                       a z' →
                                 z ≤ z').
Proof.
  apply (minimax_optimal elements 9 initial_state).
  - reflexivity.
  - split; [reflexivity | repeat constructor].
  - vm_compute. lia.
Defined.

(** From a board with [X] in a corner and [O] in the centre, both sides
    playing the action [minimax] returns end in a full board that nobody
    has won. *)
Example optimal_play_draw :
  let start := [[Some X; EMPTY; EMPTY]; [EMPTY; Some O; EMPTY];
                [EMPTY; EMPTY; EMPTY]] in
  ∃ final, self_play elements 9 9 start = Ok final
           ∧ terminal final = Ok true ∧ utility final = Ok 0
           ∧ actions final = ∅.
Proof.
  intros start. eexists. split; [vm_compute; reflexivity|].
  repeat split; vm_compute; reflexivity.
Qed.

End TicTacToeFacts.

(** * More facts about the Tic-Tac-Toe evaluator *)

Section TicTacToeMore.
Import TicTacToe.

(** ** [actions] and [result] *)

(** X15. [actions(board)] is the set of the coordinates, counted from 0, of
    the empty spaces of the board. *)
Theorem actions_spec (board : Board) (a : Action) :
  a ∈ actions board
  ↔ 0 ≤ a.1 ∧ 0 ≤ a.2
    ∧ space_at board (Z.to_nat a.1) (Z.to_nat a.2) = Some EMPTY.
Proof. apply elem_of_actions. Qed.

Lemma py_pos_nonneg (n : nat) (i : Z) : 0 ≤ i → py_pos n i = i.
Proof. intros Hi. unfold py_pos. destruct (Z.ltb_spec i 0); [lia | done]. Qed.

Lemma result_Ok_empty (board b' : Board) (a : Action) :
  result board a = Ok b' → get board a.1 a.2 = Ok EMPTY.
Proof.
  unfold result.
  destruct (get board a.1 a.2) as [space| |]; simpl; try done.
  case_bool_decide as Hs; [done|]. intros _.
  destruct space; [|done]. by destruct Hs.
Qed.

(** With subscripts that are not negative, [result] returns a board only
    for an action of [actions(board)]. *)
Lemma result_Ok_actions (board b' : Board) (a : Action) :
  0 ≤ a.1 → 0 ≤ a.2 → result board a = Ok b' → a ∈ actions board.
Proof.
  intros H1 H2 Hr. apply result_Ok_empty in Hr.
  pose proof (get_space_at board a EMPTY Hr) as Hs.
  apply elem_of_actions. split; [done|]. split; [done|].
  revert Hs. unfold action_pos. simpl.
  apply get_Ok in Hr. destruct Hr as (line & Hl & _).
  apply py_index_Ok in Hl. destruct Hl as [_ Hl].
  rewrite (py_pos_nonneg _ _ H1) in *. rewrite Hl. simpl.
  by rewrite (py_pos_nonneg _ _ H2).
Qed.

(** ** [player] *)

Lemma count_space_bump (acc : Z * Z) (space : Space) :
  count_space acc space
  = match space with Some m => bump m acc | None => acc end.
Proof. by destruct space as [[|]|]. Qed.

Lemma count_space_bump_comm (m : Mark) (acc : Z * Z) (space : Space) :
  count_space (bump m acc) space = bump m (count_space acc space).
Proof. by destruct m, space as [[|]|]. Qed.

Lemma foldl_count_space_bump (m : Mark) (acc : Z * Z) (l : list Space) :
  foldl count_space (bump m acc) l = bump m (foldl count_space acc l).
Proof.
  revert acc. induction l as [|x l IH]; intros acc; simpl; [done|].
  by rewrite count_space_bump_comm, IH.
Qed.

Lemma foldl_rows_bump (m : Mark) (acc : Z * Z) (rows : Board) :
  foldl (fun acc line => foldl count_space acc line) (bump m acc) rows
  = bump m (foldl (fun acc line => foldl count_space acc line) acc rows).
Proof.
  revert acc. induction rows as [|r rows IH]; intros acc; simpl; [done|].
  by rewrite foldl_count_space_bump, IH.
Qed.

Lemma foldl_count_space_insert (m : Mark) (acc : Z * Z) (l : list Space)
    (j : nat) :
  l !! j = Some EMPTY →
  foldl count_space acc (<[j := Some m]> l)
  = bump m (foldl count_space acc l).
Proof.
  intros Hj. pose proof (lookup_lt_Some _ _ _ Hj) as Hlt.
  rewrite insert_take_drop by done.
  rewrite <- (take_drop_middle l j EMPTY Hj) at 3.
  rewrite !foldl_app. simpl.
  rewrite (count_space_bump _ (Some m)), foldl_count_space_bump.
  done.
Qed.

Lemma foldl_rows_insert (m : Mark) (rows : Board) :
  ∀ (acc : Z * Z) (i j : nat) (line : list Space),
    rows !! i = Some line → line !! j = Some EMPTY →
    foldl (fun acc line => foldl count_space acc line) acc
          (<[i := <[j := Some m]> line]> rows)
    = bump m (foldl (fun acc line => foldl count_space acc line) acc rows).
Proof.
  induction rows as [|r rows IH]; intros acc i j line Hi Hj; [done|].
  destruct i as [|i]; simpl in *.
  - injection Hi as ->.
    by rewrite (foldl_count_space_insert _ _ _ _ Hj), foldl_rows_bump.
  - by apply IH.
Qed.

(** A move adds one mark of the player to move and nothing else. *)
Lemma count_marks_result (board b' : Board) (a : Action) :
  result board a = Ok b' →
  count_marks b' = bump (player board) (count_marks board).
Proof.
  intros Hr. pose proof (result_Ok_empty _ _ _ Hr) as Hg.
  unfold result in Hr. rewrite Hg in Hr. simpl in Hr. injection Hr as <-.
  apply get_Ok in Hg. destruct Hg as (line & Hl & Hs).
  apply py_index_Ok in Hl, Hs. destruct Hl as [_ Hl], Hs as [_ Hs].
  unfold set_space. rewrite Hl. unfold count_marks.
  by apply foldl_rows_insert.
Qed.

Lemma play_snoc (board : Board) (moves : list Action) (a : Action) :
  play board (moves ++ [a]) = (b ← play board moves; result b a).
Proof. unfold play. by rewrite foldl_app. Qed.

Lemma mover_S (n : nat) : mover (S n) = other (mover n).
Proof.
  unfold mover. rewrite Nat.even_succ, <- Nat.negb_even.
  by destruct (Nat.even n).
Qed.

Lemma play_marks (moves : list Action) (b : Board) :
  play initial_state moves = Ok b →
  ∃ x o, count_marks b = (x, o)
         ∧ x + o = Z.of_nat (length moves)
         ∧ (if Nat.even (length moves) then x = o else x = o + 1)
         ∧ player b = mover (length moves).
Proof.
  revert b. induction moves as [|a moves IH] using rev_ind; intros b.
  - intros [= <-]. exists 0, 0. done.
  - rewrite play_snoc.
    destruct (play initial_state moves) as [b0| |]; simpl; try done.
    intros Hr. destruct (IH b0 eq_refl) as (x & o & Hc & Hsum & Hpar & Hpl).
    apply count_marks_result in Hr. rewrite Hc, Hpl in Hr.
    rewrite length_app. simpl. rewrite Nat.add_1_r, mover_S.
    unfold player. rewrite Hr. unfold mover in *.
    rewrite Nat.even_succ, <- Nat.negb_even.
    destruct (Nat.even (length moves)); simpl.
    + exists (x + 1), o. split; [done|]. split; [lia|]. split; [lia|].
      destruct (Z.ltb_spec o (x + 1)); [done | lia].
    + exists x, (o + 1). split; [done|]. split; [lia|]. split; [lia|].
      destruct (Z.ltb_spec (o + 1) x); [lia | done].
Qed.

(** X17. In a game played from the empty board with [result], after [n]
    moves the board holds [n] marks, as many [X] as [O] when [n] is even
    and one [X] more when it is odd, and [player] names [X] and [O] in
    turn, [X] first. *)
Theorem players_alternate (moves : list Action) (b : Board) :
  play initial_state moves = Ok b →
  ∃ x o, count_marks b = (x, o)
         ∧ x + o = Z.of_nat (length moves)
         ∧ (if Nat.even (length moves) then x = o else x = o + 1)
         ∧ player b = mover (length moves).
Proof. apply play_marks. Qed.

Lemma players_alternate_witness :
  ∃ x o, count_marks second_row_won = (x, o)
         ∧ x + o = Z.of_nat 5
         ∧ (if Nat.even 5 then x = o else x = o + 1)
         ∧ player second_row_won = mover 5.
Proof.
  apply (players_alternate [(1, 0); (2, 0); (1, 1); (2, 1); (1, 2)]).
  vm_compute. reflexivity.
Defined.

(** ** [terminal] and [utility] *)

Lemma forallb_lookup {A} (p : A → bool) (l : list A) (i : nat) (x : A) :
  forallb p l = true → l !! i = Some x → p x = true.
Proof.
  revert i. induction l as [|y l IH]; intros i; simpl; [done|].
  intros [Hy Hl]%andb_true_iff. destruct i as [|i]; simpl.
  - by intros [= <-].
  - by apply IH.
Qed.

(** The scan of [terminal] for an empty space finds one exactly when an
    action is available. *)
Lemma no_empty_space (board : Board) :
  forallb (forallb (fun space => negb (bool_decide (space = EMPTY)))) board
  = true
  ↔ actions board = ∅.
Proof.
  split.
  - intros Hf. apply set_eq. intros a. split; [|by intros ?%not_elem_of_empty].
    intros (_ & _ & Hs)%elem_of_actions. unfold space_at in Hs.
    destruct (board !! Z.to_nat a.1) as [line|] eqn:Hl; [|done].
    simpl in Hs. pose proof (forallb_lookup _ _ _ _ Hf Hl) as Hrow.
    pose proof (forallb_lookup _ _ _ _ Hrow Hs) as He. done.
  - intros He.
    destruct (forallb _ board) eqn:Hf; [done|].
    apply forallb_false_lookup in Hf. destruct Hf as (i & line & Hl & Hf).
    apply forallb_false_lookup in Hf. destruct Hf as (j & space & Hs & Hf).
    apply negb_false_iff, bool_decide_eq_true in Hf. subst space.
    assert ((Z.of_nat i, Z.of_nat j) ∈ actions board) as Hin.
    { apply elem_of_actions. simpl. split; [lia|]. split; [lia|].
      unfold space_at. by rewrite !Nat2Z.id, Hl. }
    rewrite He in Hin. by apply not_elem_of_empty in Hin.
Qed.

(** X18. Whenever [terminal(board)] returns, it returns true exactly when
    [winner] names a player or no action is available; and a board whose
    [utility] is not 0 is terminal. *)
Theorem terminal_spec (board : Board) (t : bool) :
  terminal board = Ok t →
  (t = true ↔ (∃ m, winner board = Ok (Some m)) ∨ actions board = ∅)
  ∧ (∀ u, utility board = Ok u → u ≠ 0 → t = true).
Proof.
  unfold terminal, utility.
  destruct (winner board) as [w| |]; simpl; try done.
  destruct w as [m|]; simpl.
  - intros [= <-]. split; [|done]. split; [|done]. intros _. left. eauto.
  - intros [= <-]. split.
    + rewrite no_empty_space. split; [by right|].
      by intros [[m ?]|?].
    + intros u [= <-]. done.
Qed.

Lemma terminal_spec_witness :
  (false = true
   ↔ (∃ m, winner initial_state = Ok (Some m)) ∨ actions initial_state = ∅)
  ∧ (∀ u, utility initial_state = Ok u → u ≠ 0 → false = true).
Proof. apply (terminal_spec initial_state false). reflexivity. Defined.

(** ** [winner] *)

(** One comparison of [winner]: it returns the first space when the three
    are equal, and goes on when they are not. *)
Lemma check3_cases (x y z : Space) (k : outcome Space) :
  (check3 (Ok x) (Ok y) (Ok z) (Ok x) k = Ok x ∧ x = y ∧ y = z)
  ∨ (check3 (Ok x) (Ok y) (Ok z) (Ok x) k = k ∧ ¬ (x = y ∧ y = z)).
Proof.
  unfold check3. simpl. repeat case_bool_decide; [left | right | right].
  - done.
  - split; [done|]. tauto.
  - split; [done|]. tauto.
Qed.

Ltac walk_winner leaf :=
  rewrite winner_unfold;
  repeat match goal with
         | |- context [check3 (Ok ?x) (Ok ?y) (Ok ?z) (Ok ?x) ?k] =>
           let H := fresh "Hno" in
           destruct (check3_cases x y z k) as [[-> [? ?]]|[-> H]];
           [leaf|]
         end.

(** X19. On a three by three board, a mark [winner] returns fills one of
    the eight lines. *)
Theorem winner_sound (board : Board) (m : Mark) :
  wf_board board →
  winner board = Ok (Some m) →
  ∃ l, l ∈ lines ∧ line_of board (Some m) l.
Proof.
  intros (a & b & c & d & e & f & g & h & i & ->)%wf_board_inv.
  walk_winner ltac:(
    intros [= ?]; subst;
    match goal with
    | |- ∃ l, l ∈ lines ∧ line_of ?bd ?sp l =>
      first
        [ exists [(0, 0); (1, 1); (2, 2)]%nat; split;
          [set_solver | by repeat constructor]
        | exists [(0, 2); (1, 1); (2, 0)]%nat; split;
          [set_solver | by repeat constructor]
        | exists [(0, 0); (0, 1); (0, 2)]%nat; split;
          [set_solver | by repeat constructor]
        | exists [(1, 0); (1, 1); (1, 2)]%nat; split;
          [set_solver | by repeat constructor]
        | exists [(2, 0); (2, 1); (2, 2)]%nat; split;
          [set_solver | by repeat constructor]
        | exists [(0, 0); (1, 0); (2, 0)]%nat; split;
          [set_solver | by repeat constructor]
        | exists [(0, 1); (1, 1); (2, 1)]%nat; split;
          [set_solver | by repeat constructor]
        | exists [(0, 2); (1, 2); (2, 2)]%nat; split;
          [set_solver | by repeat constructor] ]
    end).
  done.
Qed.

Lemma winner_sound_witness :
  ∃ l, l ∈ lines ∧ line_of [[Some X; Some X; Some X]; [Some O; Some O; EMPTY];
                            [EMPTY; EMPTY; EMPTY]] (Some X) l.
Proof.
  apply winner_sound; [split; [reflexivity | repeat constructor]|].
  reflexivity.
Defined.

(** X20. On a three by three board where some player fills a line and no
    row and no column is entirely empty, [winner] returns a mark. *)
Theorem winner_complete (board : Board) :
  wf_board board →
  (∃ l m, l ∈ lines ∧ line_of board (Some m) l) →
  (∀ l, l ∈ rows_and_columns → ¬ line_of board EMPTY l) →
  ∃ m, winner board = Ok (Some m).
Proof.
  intros (a & b & c & d & e & f & g & h & i & ->)%wf_board_inv
    (l & m & Hl & Hfull) Hne.
  assert (¬ (a = None ∧ b = None ∧ c = None)) as Hr0.
  { intros (-> & -> & ->). apply (Hne [(0, 0); (0, 1); (0, 2)]%nat);
      [set_solver | by repeat constructor]. }
  assert (¬ (d = None ∧ e = None ∧ f = None)) as Hr1.
  { intros (-> & -> & ->). apply (Hne [(1, 0); (1, 1); (1, 2)]%nat);
      [set_solver | by repeat constructor]. }
  assert (¬ (g = None ∧ h = None ∧ i = None)) as Hr2.
  { intros (-> & -> & ->). apply (Hne [(2, 0); (2, 1); (2, 2)]%nat);
      [set_solver | by repeat constructor]. }
  assert (¬ (a = None ∧ d = None ∧ g = None)) as Hc0.
  { intros (-> & -> & ->). apply (Hne [(0, 0); (1, 0); (2, 0)]%nat);
      [set_solver | by repeat constructor]. }
  assert (¬ (b = None ∧ e = None ∧ h = None)) as Hc1.
  { intros (-> & -> & ->). apply (Hne [(0, 1); (1, 1); (2, 1)]%nat);
      [set_solver | by repeat constructor]. }
  assert (¬ (c = None ∧ f = None ∧ i = None)) as Hc2.
  { intros (-> & -> & ->). apply (Hne [(0, 2); (1, 2); (2, 2)]%nat);
      [set_solver | by repeat constructor]. }
  clear Hne.
  assert ((a = Some m ∧ e = Some m ∧ i = Some m)
          ∨ (c = Some m ∧ e = Some m ∧ g = Some m)
          ∨ (a = Some m ∧ b = Some m ∧ c = Some m)
          ∨ (d = Some m ∧ e = Some m ∧ f = Some m)
          ∨ (g = Some m ∧ h = Some m ∧ i = Some m)
          ∨ (a = Some m ∧ d = Some m ∧ g = Some m)
          ∨ (b = Some m ∧ e = Some m ∧ h = Some m)
          ∨ (c = Some m ∧ f = Some m ∧ i = Some m)) as Hline.
  { unfold lines, rows_and_columns in Hl. simpl in Hl.
    repeat (apply elem_of_cons in Hl as [->|Hl]);
      [..|by apply elem_of_nil in Hl];
      apply Forall_cons in Hfull as [H1 Hfull];
      apply Forall_cons in Hfull as [H2 Hfull];
      apply Forall_cons in Hfull as [H3 _];
      injection H1 as H1; injection H2 as H2; injection H3 as H3;
      tauto. }
  clear Hl Hfull.
  walk_winner ltac:(idtac).
  all: try match goal with
           | |- ∃ m', Ok ?x = Ok (Some m') =>
             is_var x; destruct x as [mx|]; [by exists mx|]
           end.
  all: exfalso; simplify_eq.
  all: try (by intuition congruence).
  destruct_or!; destruct_and!; simplify_eq;
    match goal with H : ¬ (?x = ?x ∧ ?x = ?x) |- _ => by apply H end.
Qed.

Lemma winner_complete_witness :
  ∃ m, winner [[Some X; Some O; EMPTY]; [Some O; Some X; EMPTY];
               [EMPTY; EMPTY; Some X]] = Ok (Some m).
Proof.
  apply winner_complete.
  - split; [reflexivity | repeat constructor].
  - exists [(0, 0); (1, 1); (2, 2)]%nat, X. split; [left|].
    repeat constructor.
  - unfold rows_and_columns. intros l Hl Hfull.
    repeat (apply elem_of_cons in Hl as [->|Hl]);
      [..|by apply elem_of_nil in Hl];
      apply Forall_cons in Hfull as [H1 Hfull];
      apply Forall_cons in Hfull as [H2 Hfull];
      apply Forall_cons in Hfull as [H3 _];
      discriminate.
Defined.

(** ** [max_value] and [min_value] *)

Section SearchMore.
Variable set_order : gset Action → list Action.
Hypothesis set_order_perm : ∀ s, set_order s ≡ₚ elements s.

Lemma values_terminal (fuel : nat) (board : Board) :
  wf_board board → terminal board = Ok true →
  ∃ u, utility board = Ok u ∧ -1 ≤ u ≤ 1
       ∧ max_value set_order (S fuel) board = Ok (Fin u)
       ∧ min_value set_order (S fuel) board = Ok (Fin u).
Proof.
  intros Hwf Ht. destruct (utility_Ok board Hwf) as (u & Hu & Hb).
  destruct (value_terminal set_order fuel board Ht) as [-> ->].
  exists u. rewrite Hu. done.
Qed.

Lemma values_bounded (fuel : nat) (board : Board) :
  wf_board board → (size (actions board) < fuel)%nat →
  (∃ z, max_value set_order fuel board = Ok (Fin z) ∧ -1 ≤ z ≤ 1)
  ∧ (∃ z, min_value set_order fuel board = Ok (Fin z) ∧ -1 ≤ z ≤ 1).
Proof.
  revert board. induction fuel as [|fuel IH]; intros board Hwf Hsz; [lia|].
  destruct (terminal_Ok board Hwf) as [[] Ht].
  - destruct (values_terminal fuel board Hwf Ht) as (u & _ & Hb & -> & ->).
    split; by exists u.
  - assert (size (actions board) ≤ fuel)%nat as Hle by lia.
    split.
    + destruct (max_value_spec set_order set_order_perm fuel board Hwf Hle Ht)
        as (z & -> & (a & Ha & b & Hb & Hv) & _).
      exists z. split; [done|].
      destruct (result_smaller board a fuel Hwf Hle Ha)
        as (b' & Hb' & Hwf' & Hsz').
      rewrite Hb in Hb'. injection Hb' as <-.
      destruct (IH b Hwf' Hsz') as [_ (z' & Hz' & Hbound)].
      rewrite Hv in Hz'. by injection Hz' as <-.
    + destruct (min_value_spec set_order set_order_perm fuel board Hwf Hle Ht)
        as (z & -> & (a & Ha & b & Hb & Hv) & _).
      exists z. split; [done|].
      destruct (result_smaller board a fuel Hwf Hle Ha)
        as (b' & Hb' & Hwf' & Hsz').
      rewrite Hb in Hb'. injection Hb' as <-.
      destruct (IH b Hwf' Hsz') as [(z' & Hz' & Hbound) _].
      rewrite Hv in Hz'. by injection Hz' as <-.
Qed.
End SearchMore.

(** X25. On a three by three board, with the recursion depth above the
    number of empty spaces and whatever the order in which the loops visit
    [actions(board)]: on a terminal board [max_value] and [min_value] both
    return [utility(board)]; otherwise [max_value] returns the largest
    [min_value] of the boards [result] gives for the available actions, and
    [min_value] the smallest [max_value] of these boards. *)
Theorem search_values_spec (set_order : gset Action → list Action)
    (fuel : nat) (board : Board) :
  (∀ s, set_order s ≡ₚ elements s) →
  wf_board board →
  (size (actions board) ≤ fuel)%nat →
  ∃ t, terminal board = Ok t
       ∧ if t : bool then
           ∃ u, utility board = Ok u
                ∧ max_value set_order (S fuel) board = Ok (Fin u)
                ∧ min_value set_order (S fuel) board = Ok (Fin u)
         else
           (∃ z, max_value set_order (S fuel) board = Ok (Fin z)
                 ∧ (∃ a, a ∈ actions board
                         ∧ reply (result board) (min_value set_order fuel)
                                 a z)
                 ∧ ∀ a z', a ∈ actions board →
                           reply (result board) (min_value set_order fuel)
                                 a z' →
                           z' ≤ z)
           ∧ (∃ z, min_value set_order (S fuel) board = Ok (Fin z)
                   ∧ (∃ a, a ∈ actions board
                           ∧ reply (result board) (max_value set_order fuel)
                                   a z)
                   ∧ ∀ a z', a ∈ actions board →
                             reply (result board) (max_value set_order fuel)
                                   a z' →
                             z ≤ z').
Proof.
  intros Hperm Hwf Hsz.
  destruct (terminal_Ok board Hwf) as [[] Ht]; eexists; (split; [exact Ht|]).
  - destruct (values_terminal set_order fuel board Hwf Ht)
      as (u & Hu & _ & Hmax & Hmin).
    by exists u.
  - split; [by apply max_value_spec | by apply min_value_spec].
Qed.

Lemma search_values_spec_witness :
  let board := [[Some X; Some O; Some X]; [Some O; Some O; Some X];
                [EMPTY; Some X; Some O]] in
  ∃ t, terminal board = Ok t
       ∧ if t : bool then
           ∃ u, utility board = Ok u
                ∧ max_value elements 2 board = Ok (Fin u)
                ∧ min_value elements 2 board = Ok (Fin u)
         else
           (∃ z, max_value elements 2 board = Ok (Fin z)
                 ∧ (∃ a, a ∈ actions board
                         ∧ reply (result board) (min_value elements 1) a z)
                 ∧ ∀ a z', a ∈ actions board →
                           reply (result board) (min_value elements 1) a z' →
                           z' ≤ z)
           ∧ (∃ z, min_value elements 2 board = Ok (Fin z)
                   ∧ (∃ a, a ∈ actions board
                           ∧ reply (result board) (max_value elements 1) a z)
                   ∧ ∀ a z', a ∈ actions board →
                             reply (result board) (max_value elements 1)
                                   a z' →
                             z ≤ z').
Proof.
  intros board. apply (search_values_spec elements 1 board).
  - reflexivity.
  - split; [reflexivity | repeat constructor].
  - vm_compute. lia.
Defined.

(** X26. On a three by three board, with the recursion depth above the
    number of empty spaces and whatever the order in which the loops visit
    [actions(board)], [max_value] and [min_value] return: each gives one of
    the integers -1, 0 and 1, never an exception and never an infinity. *)
Theorem search_values_bounded (set_order : gset Action → list Action)
    (fuel : nat) (board : Board) :
  (∀ s, set_order s ≡ₚ elements s) →
  wf_board board →
  (size (actions board) < fuel)%nat →
  (∃ z, max_value set_order fuel board = Ok (Fin z) ∧ -1 ≤ z ≤ 1)
  ∧ (∃ z, min_value set_order fuel board = Ok (Fin z) ∧ -1 ≤ z ≤ 1).
Proof. intros Hperm Hwf Hsz. by apply values_bounded. Qed.

Lemma search_values_bounded_witness :
  (∃ z, max_value elements 10 initial_state = Ok (Fin z) ∧ -1 ≤ z ≤ 1)
  ∧ (∃ z, min_value elements 10 initial_state = Ok (Fin z) ∧ -1 ≤ z ≤ 1).
Proof.
  apply (search_values_bounded elements 10 initial_state).
  - reflexivity.
  - split; [reflexivity | repeat constructor].
  - vm_compute. lia.
Defined.

(** ** [result] on a store of list objects *)

Section HeapMore.
Import Heap.

(** X27. Whether it returns a board or raises, [result] changes no object
    that was in the store before the call: all it writes to are the copies
    [copy.deepcopy] has made. *)
Theorem result_never_mutates (h : heap) (board : loc) (action : Action) :
  match result h board action with
  | Some (h', _) => ∀ l o, h !! l = Some o → h' !! l = Some o
  | None => True
  end.
Proof.
  destruct (result h board action) as [[h' out]|] eqn:Hr; [|done].
  intros l o Hl. eapply lookup_weaken; [exact Hl|].
  by eapply result_frame.
Qed.

(** X16. On a board whose rows are distinct list objects, an action of
    [actions(board)] can always be played: [result] returns a board, the
    action is no longer available on it and every other one still is.  And
    with subscripts that are not negative, [result] returns a board for no
    other action. *)
Theorem result_on_actions (h : heap) (board : loc) (b : Board)
    (rows : list loc) (a : Action) :
  read_board h board = Some b →
  h !! board = Some (OBoard rows) → NoDup rows →
  (a ∈ actions b →
   ∃ h' y b', result h board a = Some (h', Ok y)
              ∧ read_board h' y = Some b'
              ∧ actions b' = actions b ∖ {[a]})
  ∧ (0 ≤ a.1 → 0 ≤ a.2 →
     ∀ h' y, result h board a = Some (h', Ok y) → a ∈ actions b).
Proof.
  intros Hb Hrows Hnd.
  pose proof (result_refines h board b rows a Hb Hrows Hnd) as Ho.
  split.
  - intros Ha. destruct (result_actions b a Ha) as (b' & Hv & Hact & _).
    rewrite Hv in Ho. destruct Ho as (h' & y & Hr & Hread).
    by exists h', y, b'.
  - intros H1 H2 h' y Hr.
    destruct (TicTacToe.result b a) as [b'|e|] eqn:Hv; [| |done].
    + by eapply result_Ok_actions.
    + destruct Ho as (h'' & Ho). congruence.
Qed.

Lemma result_on_actions_witness :
  ∃ h' y b', result initial_heap 1%positive (1, 1) = Some (h', Ok y)
             ∧ read_board h' y = Some b'
             ∧ actions b' = actions initial_state ∖ {[ (1, 1) ]}.
Proof.
  apply (result_on_actions initial_heap 1%positive initial_state
           [2%positive; 3%positive; 4%positive] (1, 1)).
  - vm_compute. reflexivity.
  - vm_compute. reflexivity.
  - apply (bool_decide_unpack _). vm_compute. exact I.
  - apply (bool_decide_unpack _). vm_compute. exact I.
Defined.

(** X28. When the rows of the board at [board] are distinct list objects,
    [result] on the store does what [result] on board values does: it
    returns a new object that reads as the board with the space of [action]
    set to [player(board)], and it raises the same exception where that
    raises. *)
Theorem result_on_store_agrees (h : heap) (board : loc) (b : Board)
    (rows : list loc) (action : Action) :
  read_board h board = Some b →
  h !! board = Some (OBoard rows) → NoDup rows →
  match TicTacToe.result b action with
  | Ok b' => ∃ h' y, result h board action = Some (h', Ok y)
                     ∧ read_board h' y = Some b'
  | Raise e => ∃ h', result h board action = Some (h', Raise e)
  | OutOfFuel => False
  end.
Proof. apply result_refines. Qed.

Lemma result_on_store_agrees_witness :
  match TicTacToe.result initial_state (1, 1) with
  | Ok b' => ∃ h' y, result initial_heap 1%positive (1, 1) = Some (h', Ok y)
                     ∧ read_board h' y = Some b'
  | Raise e => ∃ h', result initial_heap 1%positive (1, 1)
                     = Some (h', Raise e)
  | OutOfFuel => False
  end.
Proof.
  apply (result_on_store_agrees initial_heap 1%positive initial_state
           [2%positive; 3%positive; 4%positive] (1, 1)).
  - vm_compute. reflexivity.
  - vm_compute. reflexivity.
  - apply (bool_decide_unpack _). vm_compute. exact I.
Defined.
End HeapMore.

End TicTacToeMore.

